(** * BlocksService: the block enrichment pipeline of substrate-api-sidecar

  A shallow embedding of [BlocksService] (fetchBlock, extractExtrinsics,
  sanitizeEvents, createCalcFee, fetchEvents, parseGenericCall,
  parseArrayGenericCalls) and the properties of its assembled blocks.

  Modelling conventions:
  - a JS value that may be [undefined] or [null] is an [option];
  - a thrown exception is the [Throw] outcome of the monad [M];
  - every call that leaves the process (node RPC, storage query, the
    wasm fee calculator) is a field of [ApiPromise] and is recorded in
    the trace carried by [M], in source order;
  - arrays are lists, read with [!!] and written with [<[ i := x ]>]. *)

From Stdlib Require Import ZArith NArith List String Lia Bool.
From stdpp Require Import base option list strings pretty.

Set Warnings "-register-all".

(** ** Codec values and calls *)

Module Codec.

(** [GenericCall]: its pallet ([section]), its method name and the struct
    of its named arguments ([genericCall.get('args')], a [Struct] whose
    [defKeys] are distinct and ordered). *)
Record GenericCall_ (C : Type) : Type := mkCall {
  section : string;
  method : string;
  args : option (list (string * C));
}.
Arguments mkCall {C} _ _ _.
Arguments section {C} _.
Arguments method {C} _.
Arguments args {C} _.

(** The argument values [parseGenericCall] tells apart:
    [Array.isArray(argument)], [argument instanceof GenericCall], and any
    other codec, of which only [toRawType()] and its bytes ([toHex()])
    are looked at. *)
Inductive Codec : Type :=
| CArray (elems : list Codec)
| CCall (c : GenericCall_ Codec)
| CValue (rawType : string) (u8a : list Byte.byte).

Definition GenericCall := GenericCall_ Codec.
Definition Struct := list (string * Codec).

(** [registry.createType('Call', hex)] as a function of the bytes: [None]
    when it throws. Nothing is asked of it: it may pad an input that is too
    short and decode calls of any number of arguments. *)
Definition Decoder := list Byte.byte -> option GenericCall.

(** The test that sends an argument to the registry:
    [paramName === 'call' && argument?.toRawType() === 'Bytes']. *)
Definition isOpaqueCall (paramName rawType : string) : bool :=
  String.eqb paramName "call" && String.eqb rawType "Bytes".

(** How much of a value the parser can walk through, when [rank] bounds the
    walk through the call that the bytes of an opaque call decode to. Bytes
    that are not sent to the registry count for nothing, whatever they would
    decode to. *)
Section Measure.
Variable rank : list Byte.byte -> nat.

Fixpoint codec_size (c : Codec) : nat :=
  match c with
  | CArray l => S (list_sum (map codec_size l))
  | CCall g =>
      S (S (match args g with
            | Some s =>
                list_sum
                  (map (fun kv =>
                          match snd kv with
                          | CValue rawType u8a =>
                              if isOpaqueCall (fst kv) rawType
                              then S (rank u8a) else 1
                          | _ => codec_size (snd kv)
                          end) s)
            | None => 0
            end))
  | CValue _ _ => 1
  end.

Definition arg_size (paramName : string) (argument : Codec) : nat :=
  match argument with
  | CValue rawType u8a =>
      if isOpaqueCall paramName rawType then S (rank u8a) else 1
  | _ => codec_size argument
  end.

Definition struct_size (s : Struct) : nat :=
  list_sum (map (fun kv => arg_size (fst kv) (snd kv)) s).

Definition call_size (g : GenericCall) : nat :=
  S (match args g with Some s => struct_size s | None => 0 end).

End Measure.

(** The type registry of a block. The recursion of [parseGenericCall] goes
    through [createType('Call', hex)], so it ends only if decoding the opaque
    calls found in decoded calls does not go on for ever. A registry comes
    with the evidence that it does not: a [rank] of byte strings that bounds
    the size of what they decode to, opaque calls inside counted by their own
    rank. Any decoder whose chains of opaque calls are finite has one; it
    says nothing of the length of the bytes or of the number of arguments. *)
Record Registry : Type := mkRegistry {
  createCall : Decoder;
  rank : list Byte.byte -> nat;
  createCall_ranked :
    forall b g, createCall b = Some g -> call_size rank g <= rank b;
}.

End Codec.
Export Codec.

(** ** Sanitized calls *)

Record IFrameMethod : Type := mkFrameMethod {
  fm_pallet : string;
  fm_method : string;
}.

(** A labelled argument of a sanitized call: a codec passed through
  verbatim, a nested sanitized call, or the array returned by
  [parseArrayGenericCalls]. *)
Inductive SanitizedArg : Type :=
| SCodec (c : Codec)
| SCall (c : ISanitizedCall)
| SArray (l : list (Codec + ISanitizedCall))
with ISanitizedCall : Type :=
| mkSanitizedCall (sc_method : IFrameMethod) (sc_args : list (string * SanitizedArg)).

Definition sc_method (c : ISanitizedCall) : IFrameMethod :=
  match c with mkSanitizedCall m _ => m end.
Definition sc_args (c : ISanitizedCall) : list (string * SanitizedArg) :=
  match c with mkSanitizedCall _ a => a end.

(** Property read on a JS object kept as an ordered list of entries. *)
Fixpoint obj_get {A : Type} (k : string) (o : list (string * A)) : option A :=
  match o with
  | [] => None
  | (k', v) :: o' => if String.eqb k k' then Some v else obj_get k o'
  end.

Module CallParser.
Section WithDecoder.

(** [registry.createType('Call', _)] of the registry at hand. *)
Variable createType_Call : Decoder.

(** One step of the recursive descent, with the recursive call [self]
    abstracted: the branches of the [for (const paramName of defKeys)]
    loop body of [parseGenericCall]. *)
Definition parseArgWith (self : GenericCall -> option ISanitizedCall)
    (paramName : string) (argument : Codec) : option SanitizedArg :=
  match argument with
  | CArray argsArray =>
      (* parseArrayGenericCalls *)
      SArray <$> mapM (fun a =>
                         match a with
                         | CCall g => inr <$> self g
                         | _ => Some (inl a)
                         end) argsArray
  | CCall g => SCall <$> self g
  | CValue rawType u8a =>
      if String.eqb paramName "call" && String.eqb rawType "Bytes" then
        match createType_Call u8a with
        | Some call => SCall <$> self call      (* try *)
        | None => Some (SCodec argument)         (* catch *)
        end
      else Some (SCodec argument)
  end.

Definition parseCallWith (self : GenericCall -> option ISanitizedCall)
    (genericCall : GenericCall) : option ISanitizedCall :=
  newArgs ← match args genericCall with
            | Some callArgs =>
                mapM (fun kv => pair (fst kv) <$> parseArgWith self (fst kv) (snd kv))
                     callArgs
            | None => Some []
            end;
  Some (mkSanitizedCall
          (mkFrameMethod (section genericCall) (method genericCall)) newArgs).

(** [parseGenericCall] with its recursion depth bounded by [fuel]:
    [None] only when the fuel runs out. *)
Fixpoint parse_fuel (fuel : nat) (genericCall : GenericCall)
    : option ISanitizedCall :=
  match fuel with
  | O => None
  | S n => parseCallWith (parse_fuel n) genericCall
  end.

End WithDecoder.

Section WithRegistry.

Variable registry : Registry.

(** [parseGenericCall(genericCall, registry)]. The fuel [call_size] always
    suffices (lemma [parse_fuel_enough]), so the default is never taken. *)
Definition parseGenericCall (genericCall : GenericCall) : ISanitizedCall :=
  default (mkSanitizedCall
             (mkFrameMethod (section genericCall) (method genericCall)) [])
          (parse_fuel (createCall registry)
             (call_size (rank registry) genericCall) genericCall).

(** The loop body with the recursion closed: what [newArgs[paramName]] is
    assigned. *)
Definition parseArg (paramName : string) (argument : Codec) : SanitizedArg :=
  match argument with
  | CArray argsArray =>
      SArray (map (fun a =>
                     match a with
                     | CCall g => inr (parseGenericCall g)
                     | _ => inl a
                     end) argsArray)
  | CCall g => SCall (parseGenericCall g)
  | CValue rawType u8a =>
      if String.eqb paramName "call" && String.eqb rawType "Bytes" then
        match createCall registry u8a with
        | Some call => SCall (parseGenericCall call)
        | None => SCodec argument
        end
      else SCodec argument
  end.

End WithRegistry.
End CallParser.
Export CallParser.

(** ** Outcomes, the trace of outside calls, and the monad [M] *)

Definition Hash := list Byte.byte.

Inductive Exn : Type :=
| Error (message : string)
| InternalServerError (message : string)
| TypeError (message : string)
| Rejected (message : string).

Inductive Outcome (A : Type) : Type :=
| Ok (a : A)
| Throw (e : Exn).
Arguments Ok {A} _.
Arguments Throw {A} _.

(** What [CalcFee.from_params] is given. *)
Record Coefficient : Type := mkCoefficient {
  coeffInteger : string;
  coeffFrac : N;
  degree : N;
  negative : bool;
}.

(** [specName] and [specVersion] as [createCalcFee] returns them: either may
    hold a string or a number. *)
Inductive StrOrNum : Type :=
| OfStr (s : string)
| OfNum (n : N).

Definition toStr (v : StrOrNum) : string :=
  match v with OfStr s => s | OfNum n => pretty n end.

Record FeeParams : Type := mkFeeParams {
  fp_coefficients : list Coefficient;
  fp_extrinsicBaseWeight : Z;
  fp_multiplier : string;
  fp_perByteFee : string;
  fp_specName : StrOrNum;
  fp_specVersion : StrOrNum;
}.

(** The object bound to [calcFee]: the dummy [{ calc_fee: () => null }] or a
    calculator built by the wasm package. *)
Inductive CalcFeeObj : Type :=
| DummyCalcFee
| WasmCalcFee (handle : nat).

Inductive ApiCall : Type :=
| rpc_chain_getBlock (h : Hash)
| rpc_chain_getHeader (h : Hash)
| rpc_state_getRuntimeVersion (h : Hash)
| rpc_state_getMetadata (h : Hash)
| query_system_events_at (h : Hash)
| query_session_validators_at (h : Hash)
| query_transactionPayment_nextFeeMultiplier_at (h : Hash)
| CalcFee_from_params (p : FeeParams)
| CalcFee_calc_fee (handle : nat) (weight : Z) (len : N).

Definition Trace := list ApiCall.

Definition M (A : Type) : Type := Trace -> Trace * Outcome A.

Definition ret {A : Type} (a : A) : M A := fun t => (t, Ok a).

Definition throw {A : Type} (e : Exn) : M A := fun t => (t, Throw e).

Definition bind {A B : Type} (m : M A) (k : A -> M B) : M B :=
  fun t =>
    match m t with
    | (t', Ok a) => k a t'
    | (t', Throw e) => (t', Throw e)
    end.

#[export] Instance M_ret : MRet M := @ret.
#[export] Instance M_bind : MBind M := fun A B k m => bind m k.
#[export] Instance M_fmap : FMap M :=
  fun A B f m => bind m (fun a => ret (f a)).

(** [try { body } catch { handler }]. *)
Definition try_catch {A : Type} (body : M A) (handler : Exn -> M A) : M A :=
  fun t =>
    match body t with
    | (t', Ok a) => (t', Ok a)
    | (t', Throw e) => handler e t'
    end.

(** An awaited call to the outside: logged, then its outcome. *)
Definition await {A : Type} (c : ApiCall) (r : Outcome A) : M A :=
  fun t => (t ++ [c], r).

(** A pure step that may throw. *)
Definition lift {A : Type} (r : Outcome A) : M A := fun t => (t, r).

(** [Promise.all([a, b])]: both are started; the first rejection wins. *)
Definition promise_all2 {A B : Type} (a : M A) (b : M B) : M (A * B) :=
  fun t =>
    match a t with
    | (t1, ra) =>
        match b t1 with
        | (t2, rb) =>
            (t2, match ra, rb with
                 | Ok x, Ok y => Ok (x, y)
                 | Throw e, _ => Throw e
                 | Ok _, Throw e => Throw e
                 end)
        end
    end.

(** Reading a property of a value that may be [undefined]. *)
Definition prop_of {A : Type} (name : string) (o : option A) : M A :=
  match o with
  | Some a => ret a
  | None => throw (TypeError ("Cannot read property of undefined: " +:+ name))
  end.

(** ** Blocks, extrinsics and events as the node returns them *)

Inductive AnyJson : Type :=
| JNull
| JBool (b : bool)
| JNumber (n : Z)
| JString (s : string)
| JArray (l : list AnyJson)
| JObject (o : list (string * AnyJson)).

Definition AccountId := string.

Module Raw.

(** A field of an event's data: its [toJSON()] and the [weight] and [class]
    properties read when it is the trailing [DispatchInfo]. *)
Record Datum : Type := mkDatum {
  toJSON : AnyJson;
  weight : option N;
  class : option string;
}.

Record Event : Type := mkEvent {
  ev_section : string;
  ev_method : string;
  data : list Datum;
  ev_documentation : list string;
}.

Inductive Phase : Type :=
| ApplyExtrinsic (i : N)
| Finalization
| Initialization.

Record EventRecord : Type := mkEventRecord {
  event : Event;
  phase : Phase;
}.

Record Extrinsic : Type := mkExtrinsic {
  method : GenericCall;
  nonce : N;
  signature : string;
  signer : string;
  isSigned : bool;
  tip : N;
  encodedLength : N;
  toU8a : list Byte.byte;
  documentation : list string;
}.

(** A digest log; [value] is what [asPreRuntime] / [asConsensus] return,
    the engine id and its payload. *)
Record DigestItem : Type := mkDigestItem {
  type : string;
  index : N;
  value : string * list Byte.byte;
}.

Record Header : Type := mkHeader {
  parentHash : Hash;
  number : N;
  stateRoot : Hash;
  extrinsicsRoot : Hash;
  digest : list DigestItem;
}.

Record Block : Type := mkBlock {
  header : Header;
  extrinsics : list Extrinsic;
  registry : Registry;
}.

End Raw.

(** ** Constants, runtime versions and the API object *)

Record WeightsPerClass : Type := { baseExtrinsic : option N }.
Record PerDispatchClass : Type := { normal : option WeightsPerClass }.
Record BlockWeights : Type := { perClass : option PerDispatchClass }.

Record SystemConsts : Type := {
  extrinsicBaseWeight : option N;
  blockWeights : option BlockWeights;
}.

Record WeightToFeeCoefficient : Type := {
  c_coeffInteger : N;
  c_coeffFrac : N;
  c_degree : N;
  c_negative : bool;
}.

Record TransactionPaymentConsts : Type := {
  transactionByteFee : option N;
  weightToFee : option (list WeightToFeeCoefficient);
}.

Record Consts : Type := {
  system : option SystemConsts;
  transactionPayment : option TransactionPaymentConsts;
}.

Record RuntimeVersion : Type := {
  specName : string;
  specVersion : N;
}.

(** Raw metadata, kept as the constants [expandMetadata] decorates it to. *)
Record Metadata : Type := { decorated_consts : Consts }.

Record RuntimeDispatchInfo : Type := {
  rdi_weight : N;
  rdi_class : option string;
  rdi_partialFee : N;
}.

(** [api]: each field is one of the members [BlocksService] uses. A query
    whose [.at] is not a function is [None]. *)
Record ApiPromise : Type := {
  getBlock : Hash -> Outcome Raw.Block;
  getHeader : Hash -> Outcome Raw.Header;
  getRuntimeVersion : Hash -> Outcome RuntimeVersion;
  getMetadata : Hash -> Outcome Metadata;
  system_events_at : Hash -> Outcome (list Raw.EventRecord);
  session_validators_at : option (Hash -> Outcome (list AccountId));
  nextFeeMultiplier_at : option (Hash -> Outcome Z);
  consts : Consts;
  runtimeVersion : RuntimeVersion;
  createType_RuntimeDispatchInfo :
    N -> option string -> option string -> Outcome RuntimeDispatchInfo;
}.

(** What the service imports besides [api]: the helpers [sanitizeDocs]
    (AbstractService), [isFrameMethod] (types/responses) and [isPaysFee]
    (types/util), which are not among the sources and are taken as
    parameters, the hash function, the consensus engines' [extractAuthor],
    and the wasm fee calculator. *)
Record Externals : Type := {
  sanitizeDocs : list string -> string;
  isFrameMethod : IFrameMethod -> bool;
  isPaysFee : AnyJson -> bool;
  blake2AsU8a : list Byte.byte -> list Byte.byte;
  engine_extractAuthor :
    string -> list Byte.byte -> list AccountId -> option AccountId;
  from_params : FeeParams -> Outcome (option nat);
  calc_fee : nat -> Z -> N -> Outcome string;
}.

(** ** The assembled block *)

Record ISanitizedEvent : Type := mkSanitizedEvent {
  se_method : IFrameMethod;
  se_data : list Raw.Datum;
  se_docs : option string;
}.

Inductive Info : Type :=
| InfoEmpty
| InfoError (error : string)
| InfoDispatch (rdi : RuntimeDispatchInfo).

(** [success]: a boolean, or the string put there when the events could not
    be fetched. *)
Inductive Success : Type :=
| SuccessBool (b : bool)
| SuccessText (s : string).

Record IExtrinsic : Type := mkIExtrinsic {
  method : IFrameMethod;
  signature : option (string * string);
  nonce : option N;
  args : list (string * SanitizedArg);
  tip : option N;
  hash : string;
  info : Info;
  events : list ISanitizedEvent;
  success : Success;
  paysFee : option bool;
  docs : option string;
}.

Definition set_success (v : Success) (x : IExtrinsic) : IExtrinsic :=
  mkIExtrinsic (method x) (signature x) (nonce x) (args x) (tip x) (hash x)
    (info x) (events x) v (paysFee x) (docs x).

Definition set_paysFee (v : option bool) (x : IExtrinsic) : IExtrinsic :=
  mkIExtrinsic (method x) (signature x) (nonce x) (args x) (tip x) (hash x)
    (info x) (events x) (success x) v (docs x).

Definition push_event (e : ISanitizedEvent) (x : IExtrinsic) : IExtrinsic :=
  mkIExtrinsic (method x) (signature x) (nonce x) (args x) (tip x) (hash x)
    (info x) (events x ++ [e]) (success x) (paysFee x) (docs x).

Definition set_info (v : Info) (x : IExtrinsic) : IExtrinsic :=
  mkIExtrinsic (method x) (signature x) (nonce x) (args x) (tip x) (hash x)
    v (events x) (success x) (paysFee x) (docs x).

Record IBlock : Type := mkIBlock {
  b_number : N;
  b_hash : Hash;
  b_parentHash : Hash;
  b_stateRoot : Hash;
  b_extrinsicsRoot : Hash;
  b_authorId : option AccountId;
  b_logs : list Raw.DigestItem;
  b_onInitialize : list ISanitizedEvent;
  b_extrinsics : list IExtrinsic;
  b_onFinalize : list ISanitizedEvent;
}.

(** ** Strings *)

Definition hexDigit (n : N) : string :=
  String (Ascii.ascii_of_N (if (n <? 10)%N then 48 + n else 87 + n)%N) EmptyString.

Definition byteToHex (b : Byte.byte) : string :=
  let n := Byte.to_N b in hexDigit (n / 16)%N +:+ hexDigit (n mod 16)%N.

(** [u8aToHex], also what [toString()] of a hash prints. *)
Definition u8aToHex (u : list Byte.byte) : string :=
  "0x" +:+ fold_right (fun b s => byteToHex b +:+ s) EmptyString u.

(** The event methods that are checked for. *)
Definition Event_success : string := "ExtrinsicSuccess".
Definition Event_failure : string := "ExtrinsicFailed".

Definition fetchEvents_message : string :=
  "Unable to fetch Events, cannot confirm extrinsic status. Check pruning settings on the node.".

(** ** BlocksService *)

(** [data.paysFee === true || data.paysFee === 'Yes'] *)
Definition paysFee_value (data : AnyJson) : bool :=
  match data with
  | JObject o =>
      match obj_get "paysFee" o with
      | Some (JBool true) => true
      | Some (JString s) => String.eqb s "Yes"
      | _ => false
      end
  | _ => false
  end.

Module BlocksService.
Section Service.

Variable ext : Externals.
Variable api : ApiPromise.

(** [fetchEvents]: the events at [hash], or the message when the query
    fails. *)
Definition fetchEvents (hash : Hash) : M (list Raw.EventRecord + string) :=
  try_catch
    (inl <$> await (query_system_events_at hash) (system_events_at api hash))
    (fun _ => ret (inr fetchEvents_message)).

(** [extractExtrinsics]. [block.registry.createType('Call', method)] wraps
    the method it is given, so [call] is [method]. *)
Definition extractExtrinsics (block : Raw.Block)
    (events : list Raw.EventRecord + string) (extrinsicDocs : bool)
    : list IExtrinsic :=
  let defaultSuccess :=
    match events with
    | inr message => SuccessText message
    | inl _ => SuccessBool false
    end in
  map (fun extrinsic =>
         let isSigned := Raw.isSigned extrinsic in
         let hash := u8aToHex (blake2AsU8a ext (Raw.toU8a extrinsic)) in
         let call := Raw.method extrinsic in
         {| method := mkFrameMethod (Codec.section (Raw.method extrinsic))
                                    (Codec.method (Raw.method extrinsic));
            signature := if isSigned
                         then Some (Raw.signature extrinsic, Raw.signer extrinsic)
                         else None;
            nonce := if isSigned then Some (Raw.nonce extrinsic) else None;
            args := sc_args (parseGenericCall (Raw.registry block) call);
            tip := if isSigned then Some (Raw.tip extrinsic) else None;
            hash := hash;
            info := InfoEmpty;
            events := [];
            success := defaultSuccess;
            paysFee := if isSigned then None else Some false;
            docs := if extrinsicDocs
                    then Some (sanitizeDocs ext (Raw.documentation extrinsic))
                    else None |})
      (Raw.extrinsics block).

(** The inner [for (const data of sanitizedData)] loop, left at the first
    field that passes the test. *)
Fixpoint scanPaysFee (extrinsic : IExtrinsic) (sanitizedData : list AnyJson)
    : IExtrinsic :=
  match sanitizedData with
  | [] => extrinsic
  | data :: rest =>
      if bool_decide (is_Some (signature extrinsic)) && isPaysFee ext data
      then set_paysFee (Some (paysFee_value data)) extrinsic
      else scanPaysFee extrinsic rest
  end.

Record Attributed : Type := mkAttributed {
  at_extrinsics : list IExtrinsic;
  at_onInitialize : list ISanitizedEvent;
  at_onFinalize : list ISanitizedEvent;
}.

Definition missingExtrinsic (extrinsicIdx : N) (hash : Hash) : Exn :=
  Error ("Missing extrinsic " +:+ pretty extrinsicIdx +:+ " in block "
         +:+ u8aToHex hash).

Definition sanitizedEvent (eventDocs : bool) (event : Raw.Event)
    : ISanitizedEvent :=
  {| se_method := mkFrameMethod (Raw.ev_section event) (Raw.ev_method event);
     se_data := Raw.data event;
     se_docs := if eventDocs
                then Some (sanitizeDocs ext (Raw.ev_documentation event))
                else None |}.

(** What an event in phase [ApplyExtrinsic] does to its extrinsic: the
    [success] flag, the [paysFee] scan, and the push onto its events. *)
Definition applyEvent (eventDocs : bool) (event : Raw.Event)
    (extrinsic : IExtrinsic) : IExtrinsic :=
  let extrinsic :=
    if String.eqb (Raw.ev_method event) Event_success
    then set_success (SuccessBool true) extrinsic
    else extrinsic in
  let extrinsic :=
    if String.eqb (Raw.ev_method event) Event_success
       || String.eqb (Raw.ev_method event) Event_failure
    then scanPaysFee extrinsic (map Raw.toJSON (Raw.data event))
    else extrinsic in
  push_event (sanitizedEvent eventDocs event) extrinsic.

(** The body of [for (const record of events)]. *)
Definition attributeEvent (hash : Hash) (eventDocs : bool)
    (record : Raw.EventRecord) (acc : Attributed) : Outcome Attributed :=
  let event := Raw.event record in
  match Raw.phase record with
  | Raw.ApplyExtrinsic i =>
      let extrinsicIdx := N.to_nat i in
      match at_extrinsics acc !! extrinsicIdx with
      | None => Throw (missingExtrinsic i hash)
      | Some extrinsic =>
          Ok (mkAttributed
                (<[extrinsicIdx := applyEvent eventDocs event extrinsic]>
                   (at_extrinsics acc))
                (at_onInitialize acc) (at_onFinalize acc))
      end
  | Raw.Finalization =>
      Ok (mkAttributed (at_extrinsics acc) (at_onInitialize acc)
            (at_onFinalize acc ++ [sanitizedEvent eventDocs event]))
  | Raw.Initialization =>
      Ok (mkAttributed (at_extrinsics acc)
            (at_onInitialize acc ++ [sanitizedEvent eventDocs event])
            (at_onFinalize acc))
  end.

Fixpoint attributeEvents (hash : Hash) (eventDocs : bool)
    (events : list Raw.EventRecord) (acc : Attributed) : Outcome Attributed :=
  match events with
  | [] => Ok acc
  | record :: rest =>
      match attributeEvent hash eventDocs record acc with
      | Ok acc' => attributeEvents hash eventDocs rest acc'
      | Throw e => Throw e
      end
  end.

Definition sanitizeEvents (events : list Raw.EventRecord + string)
    (extrinsics : list IExtrinsic) (hash : Hash) (eventDocs : bool)
    : Outcome Attributed :=
  match events with
  | inl records =>
      attributeEvents hash eventDocs records (mkAttributed extrinsics [] [])
  | inr _ => Ok (mkAttributed extrinsics [] [])
  end.

Definition extractAuthor (sessionValidators : list AccountId)
    (digest : list Raw.DigestItem) : option AccountId :=
  match filter (fun l => Raw.type l = "PreRuntime") digest with
  | pitem :: _ =>
      engine_extractAuthor ext (fst (Raw.value pitem)) (snd (Raw.value pitem))
        sessionValidators
  | [] =>
      match filter (fun l => Raw.type l = "Consensus") digest with
      | citem :: _ =>
          engine_extractAuthor ext (fst (Raw.value citem)) (snd (Raw.value citem))
            sessionValidators
      | [] => None
      end
  end.

(** What [createCalcFee] returns; [calcFee] is [None] when
    [CalcFee.from_params] gave nothing back. *)
Record CalcFeeResult : Type := mkCalcFeeResult {
  r_calcFee : option CalcFeeObj;
  r_specName : StrOrNum;
  r_specVersion : StrOrNum;
}.

(** [api.consts.transactionPayment?.transactionByteFee] *)
Definition perByte_const : option N :=
  tp ← transactionPayment (consts api); transactionByteFee tp.

(** [api.consts.system.extrinsicBaseWeight ||
     api.consts.system.blockWeights.perClass.normal.baseExtrinsic],
    every access without optional chaining. *)
Definition extrinsicBaseWeightExists : M (option N) :=
  sys ← prop_of "extrinsicBaseWeight" (system (consts api));
  match extrinsicBaseWeight sys with
  | Some w => ret (Some w)
  | None =>
      bw ← prop_of "perClass" (blockWeights sys);
      pc ← prop_of "normal" (perClass bw);
      nm ← prop_of "baseExtrinsic" (normal pc);
      ret (baseExtrinsic nm)
  end.

(** [c.system?.extrinsicBaseWeight ||
     (c.system?.blockWeights).perClass?.normal?.baseExtrinsic],
    for the constants decorated from historical metadata. *)
Definition decorated_baseWeight (c : Consts) : M (option N) :=
  match sys ← system c; extrinsicBaseWeight sys with
  | Some w => ret (Some w)
  | None =>
      bw ← prop_of "perClass" (sys ← system c; blockWeights sys);
      ret (pc ← perClass bw; nm ← normal pc; baseExtrinsic nm)
  end.

(** [api.consts.system?.extrinsicBaseWeight ||
     api.consts.system.blockWeights.perClass?.normal?.baseExtrinsic] *)
Definition live_baseWeight : M (option N) :=
  match sys ← system (consts api); extrinsicBaseWeight sys with
  | Some w => ret (Some w)
  | None =>
      sys ← prop_of "blockWeights" (system (consts api));
      bw ← prop_of "perClass" (blockWeights sys);
      ret (pc ← perClass bw; nm ← normal pc; baseExtrinsic nm)
  end.

Definition historical_height : N := 515500.
Definition historical_perByte : string := "1000000000".

Definition createCalcFee (parentHash : Hash) (block : Raw.Block)
    : M CalcFeeResult :=
  let perByte := perByte_const in
  baseWeightExists ← extrinsicBaseWeightExists;
  match perByte, baseWeightExists, nextFeeMultiplier_at api with
  | Some perByte, Some _, Some nextFeeMultiplier_at =>
      tp ← prop_of "weightToFee" (transactionPayment (consts api));
      weightToFee ← prop_of "map" (weightToFee tp);
      let coefficients :=
        map (fun c => mkCoefficient (pretty (c_coeffInteger c)) (c_coeffFrac c)
                        (c_degree c) (c_negative c)) weightToFee in
      parentParentHash ←
        (if (1 <? Raw.number (Raw.header block))%N
         then Raw.parentHash <$>
                await (rpc_chain_getHeader parentHash) (getHeader api parentHash)
         else ret parentHash);
      '(version, multiplier) ←
        promise_all2
          (await (rpc_state_getRuntimeVersion parentParentHash)
                 (getRuntimeVersion api parentParentHash))
          (await (query_transactionPayment_nextFeeMultiplier_at parentHash)
                 (nextFeeMultiplier_at parentHash));
      let name := specName version in
      let vnum := specVersion version in
      extrinsicBaseWeight ←
        (if negb (String.eqb name (specName (runtimeVersion api)))
            || negb (vnum =? specVersion (runtimeVersion api))%N
         then
           metadata ← await (rpc_state_getMetadata parentParentHash)
                            (getMetadata api parentParentHash);
           decorated_baseWeight (decorated_consts metadata)
         else live_baseWeight);
      match extrinsicBaseWeight with
      | None =>
          throw (InternalServerError
            "`extrinsicBaseWeight` is not defined when it was expected to be defined. File an issue at https://github.com/paritytech/substrate-api-sidecar/issues")
      | Some extrinsicBaseWeight =>
          let perByteStr :=
            if (Raw.number (Raw.header block) <? historical_height)%N
            then historical_perByte
            else pretty perByte in
          let params :=
            mkFeeParams coefficients (Z.of_N extrinsicBaseWeight)
              (pretty multiplier) perByteStr (OfStr name) (OfNum vnum) in
          calcFee ← await (CalcFee_from_params params) (from_params ext params);
          ret (mkCalcFeeResult (WasmCalcFee <$> calcFee) (OfStr name) (OfNum vnum))
      end
  | _, _, _ =>
      version ← await (rpc_state_getRuntimeVersion parentHash)
                      (getRuntimeVersion api parentHash);
      (* [specVersion, specName] = [version.specName, version.specVersion] *)
      ret (mkCalcFeeResult (Some DummyCalcFee)
             (OfNum (specVersion version)) (OfStr (specName version)))
  end.

(** [calcFee.calc_fee(weight, len)]: [null] from the dummy. *)
Definition run_calc_fee (calcFee : CalcFeeObj) (weight : Z) (len : N)
    : M (option string) :=
  match calcFee with
  | DummyCalcFee => ret None
  | WasmCalcFee handle =>
      Some <$> await (CalcFee_calc_fee handle weight len)
                     (calc_fee ext handle weight len)
  end.

Definition isCompleted (e : ISanitizedEvent) : bool :=
  isFrameMethod ext (se_method e)
  && (String.eqb (fm_method (se_method e)) Event_success
      || String.eqb (fm_method (se_method e)) Event_failure).

(** The body of the [try] of the fee loop: the value assigned to
    [extrinsics[idx].info]. The data of an event is always there (it is an
    array, and [sanitizeEvents] has already called its [toJSON]), so the
    [!completedData] test never holds and its branch is left out. An empty
    data array makes [weightInfo] undefined, and reading its [weight]
    throws. [console.error] in the [catch] is not modelled. *)
Definition feeInfo (calcFee : CalcFeeObj) (raw : Raw.Extrinsic)
    (extrinsic : IExtrinsic) : M Info :=
  let xtEvents := events extrinsic in
  match List.find isCompleted xtEvents with
  | None => ret (InfoError "Unable to find success or failure event for extrinsic")
  | Some completedEvent =>
      let completedData := se_data completedEvent in
      weightInfo ← prop_of "weight" (last completedData);
      match Raw.weight weightInfo with
      | None =>
          ret (InfoError
                 "Success or failure event for extrinsic does not specify weight")
      | Some weight =>
          let len := Raw.encodedLength raw in
          partialFee ← run_calc_fee calcFee (Z.of_N weight) len;
          InfoDispatch <$>
            lift (createType_RuntimeDispatchInfo api weight
                    (Raw.class weightInfo) partialFee)
      end
  end.

Definition unsupported_message (specName specVersion : StrOrNum) : string :=
  "Fee calculation not supported for " +:+ toStr specName +:+ "#"
  +:+ toStr specVersion.

(** One turn of [for (let idx = 0; ...; ++idx)] in [fetchBlock]. *)
Definition feeStep (fee : CalcFeeResult) (block : Raw.Block) (idx : nat)
    (extrinsics : list IExtrinsic) : M (list IExtrinsic) :=
  extrinsic ← prop_of "paysFee" (extrinsics !! idx);
  if negb (bool_decide (paysFee extrinsic = Some true))
  then ret extrinsics
  else
    raw ← prop_of "isSigned" (Raw.extrinsics block !! idx);
    if negb (Raw.isSigned raw)
    then ret extrinsics
    else
      match r_calcFee fee with
      | None =>
          ret (<[idx := set_info
                          (InfoError (unsupported_message (r_specName fee)
                                        (r_specVersion fee)))
                          extrinsic]> extrinsics)
      | Some calcFee =>
          info ← try_catch (feeInfo calcFee raw extrinsic)
                   (fun _ => ret (InfoError "Unable to fetch fee info"));
          ret (<[idx := set_info info extrinsic]> extrinsics)
      end.

Fixpoint feeLoop (fee : CalcFeeResult) (block : Raw.Block) (turns idx : nat)
    (extrinsics : list IExtrinsic) : M (list IExtrinsic) :=
  match turns with
  | O => ret extrinsics
  | S turns' =>
      extrinsics' ← feeStep fee block idx extrinsics;
      feeLoop fee block turns' (S idx) extrinsics'
  end.

(** [parentHash.every((byte) => !byte)] *)
Definition isGenesisParent (parentHash : Hash) : bool :=
  forallb (fun byte => Byte.eqb byte Byte.x00) parentHash.

(** The awaited [Promise.all] at the head of [fetchBlock]. *)
Definition fetchBlock_fetch (hash : Hash)
    : M (Raw.Block * (list Raw.EventRecord + string) * option (list AccountId)) :=
  match session_validators_at api with
  | Some validators_at =>
      '(block, (events, sessionValidators)) ←
        promise_all2
          (await (rpc_chain_getBlock hash) (getBlock api hash))
          (promise_all2 (fetchEvents hash)
             (await (query_session_validators_at hash) (validators_at hash)));
      ret (block, events, Some sessionValidators)
  | None =>
      '(block, events) ←
        promise_all2
          (await (rpc_chain_getBlock hash) (getBlock api hash))
          (fetchEvents hash);
      ret (block, events, None)
  end.

(** The rest of [fetchBlock], once the fetches are joined. *)
Definition fetchBlock_assemble (hash : Hash) (eventDocs extrinsicDocs : bool)
    (block : Raw.Block) (events : list Raw.EventRecord + string)
    (sessionValidators : option (list AccountId)) : M IBlock :=
  let h := Raw.header block in
  let authorId :=
    sessionValidators ← sessionValidators;
    extractAuthor sessionValidators (Raw.digest h) in
  let logs := Raw.digest h in
  let nonSanitizedExtrinsics := extractExtrinsics block events extrinsicDocs in
  attributed ← lift (sanitizeEvents events nonSanitizedExtrinsics hash eventDocs);
  let result extrinsics :=
    mkIBlock (Raw.number h) hash (Raw.parentHash h) (Raw.stateRoot h)
      (Raw.extrinsicsRoot h) authorId logs (at_onInitialize attributed)
      extrinsics (at_onFinalize attributed) in
  if isGenesisParent (Raw.parentHash h)
  then ret (result (at_extrinsics attributed))
  else
    fee ← createCalcFee (Raw.parentHash h) block;
    extrinsics ← feeLoop fee block (length (Raw.extrinsics block)) 0
                   (at_extrinsics attributed);
    ret (result extrinsics).

Definition fetchBlock (hash : Hash) (eventDocs extrinsicDocs : bool) : M IBlock :=
  '(block, events, sessionValidators) ← fetchBlock_fetch hash;
  fetchBlock_assemble hash eventDocs extrinsicDocs block events sessionValidators.

End Service.
End BlocksService.

(** ** A sample chain

    Block #10 of the spec's example: [timestamp.set] (unsigned) then
    [balances.transfer] (signed), with the node's answers fixed. *)

Module Sample.
Import BlocksService.

Definition zeroHash : Hash := repeat Byte.x00 32.
Definition hashA : Hash := repeat Byte.x0a 32.
Definition hashParent : Hash := repeat Byte.x09 32.
Definition hashGrandparent : Hash := repeat Byte.x08 32.

Fixpoint hash_eqb (a b : Hash) : bool :=
  match a, b with
  | [], [] => true
  | x :: a', y :: b' => Byte.eqb x y && hash_eqb a' b'
  | _, _ => false
  end.

(** A registry that decodes, as call indices,
    - no bytes at all, padded with zeros, to [system.fillBlock(0)];
    - [0x2a] to [system.remark()];
    - [0x0400] followed by two bytes to [balances.transfer] of the two;
    and throws on anything else. Every decoded call is walked through in three
    steps at most. *)
Definition decodeCall (b : list Byte.byte) : option GenericCall :=
  match b with
  | [] =>
      Some (mkCall "system" "fillBlock"
              (Some [("ratio", CValue "Perbill"
                                 [Byte.x00; Byte.x00; Byte.x00; Byte.x00])]))
  | [x] => if Byte.eqb x Byte.x2a then Some (mkCall "system" "remark" None) else None
  | [p; m; dest; value] =>
      if Byte.eqb p Byte.x04 && Byte.eqb m Byte.x00
      then Some (mkCall "balances" "transfer"
                   (Some [("dest", CValue "AccountId" [dest]);
                          ("value", CValue "Compact<Balance>" [value])]))
      else None
  | _ => None
  end.

Definition decodeRank (b : list Byte.byte) : nat := 3.

Definition decodeCall_ranked (b : list Byte.byte) (g : GenericCall) :
  decodeCall b = Some g -> call_size decodeRank g <= decodeRank b.
Proof.
  destruct b as [|x [|y [|z [|w [|v b']]]]]; simpl; try discriminate.
  - intros [= <-]. cbv. lia.
  - destruct (Byte.eqb x Byte.x2a); try discriminate.
    intros [= <-]. cbv. lia.
  - destruct (Byte.eqb x Byte.x04 && Byte.eqb y Byte.x00); try discriminate.
    intros [= <-]. cbv. lia.
Qed.

Definition registry : Registry := mkRegistry decodeCall decodeRank decodeCall_ranked.

(** A helper that accepts the objects whose [paysFee] field is truthy. *)
Definition truthyPaysFee (thing : AnyJson) : bool :=
  match thing with
  | JObject o =>
      match obj_get "paysFee" o with
      | Some (JBool b) => b
      | Some (JNumber n) => negb (n =? 0)%Z
      | Some (JString s) =>
          match s with EmptyString => false | String _ _ => true end
      | Some (JArray _) | Some (JObject _) => true
      | Some JNull | None => false
      end
  | _ => false
  end.

Definition dispatchInfo (pays : AnyJson) : Raw.Datum :=
  Raw.mkDatum
    (JObject [("weight", JNumber 1000); ("class", JString "Normal");
              ("paysFee", pays)])
    (Some 1000%N) (Some "Normal").

Definition successEvent (i : N) : Raw.EventRecord :=
  Raw.mkEventRecord
    (Raw.mkEvent "system" Event_success [dispatchInfo (JString "Yes")] [])
    (Raw.ApplyExtrinsic i).

Definition failedEvent (i : N) : Raw.EventRecord :=
  Raw.mkEventRecord
    (Raw.mkEvent "system" Event_failure
       [Raw.mkDatum (JObject [("module", JNumber 5)]) None None;
        dispatchInfo (JBool true)] [])
    (Raw.ApplyExtrinsic i).

Definition timestampSet : Raw.Extrinsic :=
  Raw.mkExtrinsic
    (mkCall "timestamp" "set" (Some [("now", CValue "Compact<Moment>" [Byte.x01])]))
    0 "" "" false 0 10 [Byte.x01] [].

Definition balancesTransfer : Raw.Extrinsic :=
  Raw.mkExtrinsic
    (mkCall "balances" "transfer"
       (Some [("dest", CValue "AccountId" [Byte.x02]);
              ("value", CValue "Compact<Balance>" [Byte.x03])]))
    7 "0xsig" "alice" true 0 140 [Byte.x02] [].

Definition header (parent : Hash) (n : N) : Raw.Header :=
  Raw.mkHeader parent n [] [] [].

Definition block (parent : Hash) (n : N) : Raw.Block :=
  Raw.mkBlock (header parent n) [timestampSet; balancesTransfer] registry.

Definition version : RuntimeVersion := {| specName := "kusama"; specVersion := 2005 |}.
Definition oldVersion : RuntimeVersion := {| specName := "kusama"; specVersion := 2004 |}.

Definition fullConsts : Consts :=
  {| system := Some {| extrinsicBaseWeight := Some 125000000%N;
                       blockWeights := None |};
     transactionPayment :=
       Some {| transactionByteFee := Some 1000000%N;
               weightToFee := Some [ {| c_coeffInteger := 8; c_coeffFrac := 0;
                                        c_degree := 1; c_negative := false |} ] |} |}.

Definition externals : Externals :=
  {| sanitizeDocs := fun l => fold_right String.append EmptyString l;
     isFrameMethod := fun _ => true;
     isPaysFee := truthyPaysFee;
     blake2AsU8a := fun u => u;
     engine_extractAuthor := fun _ _ vs => head vs;
     from_params := fun _ => Ok (Some 0);
     calc_fee := fun _ _ _ => Ok "149000000" |}.

(** The same, with a fee calculator whose [calc_fee] always throws. *)
Definition externalsThrowing : Externals :=
  {| sanitizeDocs := sanitizeDocs externals;
     isFrameMethod := isFrameMethod externals;
     isPaysFee := isPaysFee externals;
     blake2AsU8a := blake2AsU8a externals;
     engine_extractAuthor := engine_extractAuthor externals;
     from_params := from_params externals;
     calc_fee := fun _ _ _ => Throw (Error "unreachable") |}.

(** [multisig.asMulti] around an opaque call. *)
Definition asMulti (payload : list Byte.byte) : GenericCall :=
  mkCall "multisig" "asMulti"
    (Some [("threshold", CValue "u16" [Byte.x02]);
           ("call", CValue "Bytes" payload)]).

(** A node on which everything needed by the fee calculator is there. The
    version at the grandparent is the old one. *)
Definition api (parent : Hash) (n : N)
    (events : Outcome (list Raw.EventRecord)) : ApiPromise :=
  {| getBlock := fun _ => Ok (block parent n);
     getHeader := fun _ => Ok (header hashGrandparent (n - 1));
     getRuntimeVersion := fun h =>
       Ok (if hash_eqb h hashGrandparent then oldVersion else version);
     getMetadata := fun _ => Ok {| decorated_consts := fullConsts |};
     system_events_at := fun _ => events;
     session_validators_at := None;
     nextFeeMultiplier_at := Some (fun _ => Ok 1000000000%Z);
     consts := fullConsts;
     runtimeVersion := version;
     createType_RuntimeDispatchInfo := fun w c fee =>
       Ok {| rdi_weight := w; rdi_class := c;
             rdi_partialFee := match fee with Some _ => 149000000 | None => 0 end |} |}.

(** The same node without [transactionPayment.nextFeeMultiplier]. *)
Definition apiNoMultiplier (parent : Hash) (n : N)
    (events : Outcome (list Raw.EventRecord)) : ApiPromise :=
  let a := api parent n events in
  {| getBlock := getBlock a; getHeader := getHeader a;
     getRuntimeVersion := getRuntimeVersion a; getMetadata := getMetadata a;
     system_events_at := system_events_at a;
     session_validators_at := session_validators_at a;
     nextFeeMultiplier_at := None;
     consts := consts a; runtimeVersion := runtimeVersion a;
     createType_RuntimeDispatchInfo := createType_RuntimeDispatchInfo a |}.

(** A node whose runtime has no constants at all: [createCalcFee] would
    throw on it. *)
Definition apiBare (parent : Hash) (n : N)
    (events : Outcome (list Raw.EventRecord)) : ApiPromise :=
  let a := api parent n events in
  {| getBlock := getBlock a; getHeader := getHeader a;
     getRuntimeVersion := getRuntimeVersion a; getMetadata := getMetadata a;
     system_events_at := system_events_at a;
     session_validators_at := Some (fun _ => Ok ["alice"; "bob"]);
     nextFeeMultiplier_at := None;
     consts := {| system := None; transactionPayment := None |};
     runtimeVersion := runtimeVersion a;
     createType_RuntimeDispatchInfo := createType_RuntimeDispatchInfo a |}.

(** The extrinsics of block #10 after attribution of [ExtrinsicSuccess] in
    phase 1, and a calculator as the wasm package returns it. *)
Definition attributed10 : list IExtrinsic :=
  match sanitizeEvents externals (inl [successEvent 1])
          (extractExtrinsics externals (block hashParent 10)
             (inl [successEvent 1]) false) hashA false with
  | Ok a => at_extrinsics a
  | Throw _ => []
  end.

Definition wasmFee : CalcFeeResult :=
  mkCalcFeeResult (Some (WasmCalcFee 0)) (OfStr "kusama") (OfNum 2004).

End Sample.

(** ** Vocabulary of the statements *)

(** [m] adds to the trace only calls that satisfy [P], and ends in an outcome
    that satisfies [Q]. *)
Definition emits {A : Type} (P : ApiCall -> Prop) (Q : Outcome A -> Prop)
    (m : M A) : Prop :=
  forall t, exists l r, m t = (t ++ l, r) /\ Forall P l /\ Q r.

(** The record is in phase [ApplyExtrinsic(idx)]. *)
Definition appliesTo (idx : nat) (record : Raw.EventRecord) : bool :=
  match Raw.phase record with
  | Raw.ApplyExtrinsic i => bool_decide (N.to_nat i = idx)
  | _ => false
  end.

Definition hasMethod (name : string) (record : Raw.EventRecord) : bool :=
  String.eqb (Raw.ev_method (Raw.event record)) name.

(** The calls [createCalcFee] and the fee loop make. *)
Definition isFeeCall (c : ApiCall) : bool :=
  match c with
  | rpc_chain_getBlock _ | query_system_events_at _
  | query_session_validators_at _ => false
  | _ => true
  end.

(** The calls into the wasm fee calculator. *)
Definition isWasmCall (c : ApiCall) : bool :=
  match c with
  | CalcFee_from_params _ | CalcFee_calc_fee _ _ _ => true
  | _ => false
  end.

(** The calls to [calcFee.calc_fee]. *)
Definition isCalcFeeCall (c : ApiCall) : bool :=
  match c with CalcFee_calc_fee _ _ _ => true | _ => false end.

(** A step that never touches the trace. *)
Definition silent {A : Type} (m : M A) : Prop :=
  forall t, m t = (t, snd (m [])).

(** An extrinsic with the three fields event attribution writes. *)
Definition with_attribution (evs : list ISanitizedEvent) (s : Success)
    (p : option bool) (e : IExtrinsic) : IExtrinsic :=
  mkIExtrinsic (method e) (signature e) (nonce e) (args e) (tip e) (hash e)
    (info e) evs s p (docs e).

(** All the events of phase [ApplyExtrinsic(idx)], applied in order. *)
Definition applyAll (ext : Externals) (eventDocs : bool) (idx : nat)
    (records : list Raw.EventRecord) (e : IExtrinsic) : IExtrinsic :=
  fold_left (fun e r => BlocksService.applyEvent ext eventDocs (Raw.event r) e)
    (List.filter (appliesTo idx) records) e.

(** What [fetchEvents] resolves to. *)
Definition fetched_events (api : ApiPromise) (hash : Hash)
    : list Raw.EventRecord + string :=
  match system_events_at api hash with
  | Ok records => inl records
  | Throw _ => inr fetchEvents_message
  end.

(** The version mismatch test of [createCalcFee]. *)
Definition versionDiffers (api : ApiPromise) (v : RuntimeVersion) : bool :=
  negb (String.eqb (specName v) (specName (runtimeVersion api)))
  || negb (specVersion v =? specVersion (runtimeVersion api))%N.

(** The outcome of the [try] body of the fee loop; it does not depend on the
    trace it is run from (lemma [feeInfo_emits]). *)
Definition feeInfo_outcome (ext : Externals) (api : ApiPromise)
    (calcFee : CalcFeeObj) (raw : Raw.Extrinsic) (e : IExtrinsic) : Outcome Info :=
  snd (BlocksService.feeInfo ext api calcFee raw e []).

(** What one turn of the fee loop leaves at its index. *)
Definition annotate (ext : Externals) (api : ApiPromise)
    (fee : BlocksService.CalcFeeResult) (raw : Raw.Extrinsic) (e : IExtrinsic)
    : IExtrinsic :=
  if bool_decide (paysFee e = Some true) && Raw.isSigned raw then
    set_info
      match BlocksService.r_calcFee fee with
      | None =>
          InfoError (BlocksService.unsupported_message
                       (BlocksService.r_specName fee)
                       (BlocksService.r_specVersion fee))
      | Some calcFee =>
          match feeInfo_outcome ext api calcFee raw e with
          | Ok i => i
          | Throw _ => InfoError "Unable to fetch fee info"
          end
      end e
  else e.

(** ** Further vocabulary *)

Definition inInitialization (record : Raw.EventRecord) : bool :=
  match Raw.phase record with Raw.Initialization => true | _ => false end.

Definition inFinalization (record : Raw.EventRecord) : bool :=
  match Raw.phase record with Raw.Finalization => true | _ => false end.

(** The record is an [ExtrinsicSuccess] or an [ExtrinsicFailed] event. *)
Definition isSentinel (record : Raw.EventRecord) : bool :=
  hasMethod Event_success record || hasMethod Event_failure record.

(** The number of events an attribution holds, over its three places. *)
Definition eventCount (onInitialize onFinalize : list ISanitizedEvent)
    (extrinsics : list IExtrinsic) : nat :=
  length onInitialize + length onFinalize
  + list_sum (map (fun e => length (events e)) extrinsics).

(** What a record says about fee payment: for an [ExtrinsicSuccess] or
    [ExtrinsicFailed] event, the first of its data fields that the helper
    [isPaysFee] accepts, read as
    [data.paysFee === true || data.paysFee === 'Yes']; nothing when the
    helper accepts none of them. *)
Definition declaredPaysFee (ext : Externals) (record : Raw.EventRecord)
    : option bool :=
  if isSentinel record
  then paysFee_value
         <$> List.find (isPaysFee ext)
               (map Raw.toJSON (Raw.data (Raw.event record)))
  else None.

(** Where the base extrinsic weight is looked for in a set of constants: the
    legacy [system.extrinsicBaseWeight] first, then
    [system.blockWeights.perClass.normal.baseExtrinsic]. *)
Definition baseWeightOf (c : Consts) : option N :=
  sys ← system c;
  match extrinsicBaseWeight sys with
  | Some w => Some w
  | None =>
      bw ← blockWeights sys; pc ← perClass bw; nm ← normal pc; baseExtrinsic nm
  end.

(** The coefficients as [createCalcFee] hands them to the calculator. *)
Definition coefficientsOf (weightToFee : list WeightToFeeCoefficient)
    : list Coefficient :=
  map (fun c => mkCoefficient (pretty (c_coeffInteger c)) (c_coeffFrac c)
                  (c_degree c) (c_negative c)) weightToFee.

(** The first item of a digest with the given type. *)
Definition digestItemOfType (ty : string) (digest : list Raw.DigestItem)
    : option Raw.DigestItem :=
  List.find (fun l => bool_decide (Raw.type l = ty)) digest.

(** * The staking endpoint [/staking/eras-reward-points]

    [ErasRewardPointsController] and [ErasRewardPointsService]. *)

Module Staking.

(** What the handlers throw: [BadRequest] of [http-errors], or any other
    exception. *)
Inductive HttpError : Type :=
| BadRequest (message : string)
| Other (e : Exn).

(** A settled promise. *)
Inductive Settled (A : Type) : Type :=
| Fulfilled (a : A)
| RejectedWith (e : HttpError).
Arguments Fulfilled {A} _.
Arguments RejectedWith {A} _.

(** The calls to the node. *)
Inductive StakingCall : Type :=
| rpc_chain_getFinalizedHead
| query_staking_activeEra
| query_staking_currentEra
| query_staking_historyDepth_at (hash : Hash)
| query_staking_erasRewardPoints_at (hash : Hash) (era : Z).

Record IErasRewardPoint : Type := mkPoint {
  validator_id : string;
}.

(** JS arrays that are pushed to after a reference to them was stored live
    in a store; a reference is an index into it. *)
Definition Ref := nat.

Record IErasRewardPoints : Type := mkPoints {
  era : N;
  totalEraRewardPoints : N;
  erasRewardPoint : Ref;
}.

Record World : Type := mkWorld {
  calls : list StakingCall;
  arrays : list (list IErasRewardPoint);
}.

(** An async function body: the world is threaded through, and the body
    settles. *)
Definition Task (A : Type) : Type := World -> World * Settled A.

Definition resolve {A : Type} (a : A) : Task A := fun w => (w, Fulfilled a).

Definition reject {A : Type} (e : HttpError) : Task A :=
  fun w => (w, RejectedWith e).

Definition andThen {A B : Type} (m : Task A) (k : A -> Task B) : Task B :=
  fun w =>
    match m w with
    | (w', Fulfilled a) => k a w'
    | (w', RejectedWith e) => (w', RejectedWith e)
    end.

#[global] Instance Task_ret : MRet Task := @resolve.
#[global] Instance Task_bind : MBind Task := fun A B k m => andThen m k.

(** An awaited query: logged, then its answer. *)
Definition request {A : Type} (c : StakingCall) (r : Settled A) : Task A :=
  fun w => (mkWorld (calls w ++ [c]) (arrays w), r).

(** A call that is not a query and may throw. *)
Definition attempt {A : Type} (r : Settled A) : Task A := fun w => (w, r).

(** [Promise.all([a, b, c])]: the three are started; it is fulfilled when
    all are, and rejected otherwise. *)
Definition all3 {A B C : Type} (a : Task A) (b : Task B) (c : Task C)
    : Task (A * B * C) :=
  fun w =>
    match a w with
    | (w1, ra) =>
        match b w1 with
        | (w2, rb) =>
            match c w2 with
            | (w3, rc) =>
                (w3, match ra, rb, rc with
                     | Fulfilled x, Fulfilled y, Fulfilled z => Fulfilled (x, y, z)
                     | RejectedWith e, _, _ => RejectedWith e
                     | _, RejectedWith e, _ => RejectedWith e
                     | _, _, RejectedWith e => RejectedWith e
                     end)
            end
        end
    end.

(** [const a = []] *)
Definition newArray : Task Ref :=
  fun w => (mkWorld (calls w) (arrays w ++ [[]]), Fulfilled (length (arrays w))).

(** [a.push(x)] *)
Definition push (a : Ref) (x : IErasRewardPoint) : Task unit :=
  fun w => (mkWorld (calls w) (alter (fun l => l ++ [x]) a (arrays w)),
            Fulfilled tt).

(** What [staking.currentEra()] may be: an [Option], a [BN], or neither. *)
Inductive CurrentEra : Type :=
| IsOption (o : option N)
| IsBN (n : N)
| IsNeither.

Record EraRewardPoints : Type := mkEraRewardPoints {
  total : N;
  individual : list (AccountId * N);
}.

Record StakingApi : Type := mkStakingApi {
  getFinalizedHead : Settled Hash;
  (** [activeEraOption], with [unwrap().index.toNumber()] under [Some] *)
  activeEra : Settled (option N);
  currentEra : Settled CurrentEra;
  historyDepth_at : Hash -> Settled N;
  erasRewardPoints_at : Hash -> Z -> Settled EraRewardPoints;
  createType_EraIndex : Z -> Settled N;
}.

Record EraAndHash : Type := mkEraAndHash {
  eh_hash : Hash;
  eh_eraArg : Z;
  eh_currentEra : N;
}.

Definition tooLarge_message (era activeEra : Z) : string :=
  "The specified era (" +:+ pretty era +:+ ") is too large. "
  +:+ "Largest era payout info is available for is " +:+ pretty (activeEra - 1)%Z.

Definition depth_message : string :=
  "Must specify a depth less than history_depth".

Definition window_message : string :=
  "Must specify era and depth such that era - (depth - 1) is less "
  +:+ "than or equal to current_era - history_depth.".

Section WithApi.
Variable api : StakingApi.

(** [ErasRewardPointsController.getEraAndHash]; [era] is [None] when
    [undefined]. *)
Definition getEraAndHash (era : option Z) : Task EraAndHash :=
  '(hash, activeEraOption, currentEraMaybeOption) ←
    all3 (request rpc_chain_getFinalizedHead (getFinalizedHead api))
         (request query_staking_activeEra (activeEra api))
         (request query_staking_currentEra (currentEra api));
  match activeEraOption with
  | None =>
      reject (Other (InternalServerError "ActiveEra is None when Some was expected"))
  | Some index =>
      let activeEra := Z.of_N index in
      currentEra ←
        match currentEraMaybeOption with
        | IsOption None =>
            reject (Other (InternalServerError
                             "CurrentEra is None when Some was expected"))
        | IsOption (Some n) => resolve n
        | IsBN n => resolve n
        | IsNeither =>
            reject (Other (InternalServerError
                             "Query for current_era returned a non-processable result."))
        end;
      match era with
      | Some e =>
          if (activeEra - 1 <? e)%Z
          then reject (BadRequest (tooLarge_message e activeEra))
          else resolve (mkEraAndHash hash e currentEra)
      | None => resolve (mkEraAndHash hash (activeEra - 1)%Z currentEra)
      end
  end.

(** [for (const [id] of eraRewardPoints.individual.entries())] *)
Fixpoint pushValidators (erasRewardPoint : Ref) (entries : list (AccountId * N))
    : Task unit :=
  match entries with
  | [] => resolve tt
  | (id, _) :: rest =>
      push erasRewardPoint (mkPoint id);;
      pushValidators erasRewardPoint rest
  end.

(** [for (let e = startEra; e <= era; e += 1)], at most [turns] times. The
    body reads [era], not [e]. *)
Fixpoint eraLoop (hash : Hash) (era : Z) (erasRewardPoint : Ref) (turns : nat)
    (e : Z) (erasRewardPoints : list IErasRewardPoints)
    : Task (list IErasRewardPoints) :=
  match turns with
  | O => resolve erasRewardPoints
  | S turns' =>
      if (e <=? era)%Z then
        eraIndex ← attempt (createType_EraIndex api era);
        eraRewardPoints ← request (query_staking_erasRewardPoints_at hash era)
                            (erasRewardPoints_at api hash era);
        pushValidators erasRewardPoint (individual eraRewardPoints);;
        eraLoop hash era erasRewardPoint turns' (e + 1)%Z
          (erasRewardPoints
             ++ [mkPoints eraIndex (total eraRewardPoints) erasRewardPoint])
      else resolve erasRewardPoints
  end.

(** [const startEra = era - (depth - 1) < 0 ? 0 : era - (depth - 1)] *)
Definition startEra (depth era : Z) : Z :=
  if (era - (depth - 1) <? 0)%Z then 0%Z else (era - (depth - 1))%Z.

(** [ErasRewardPointsService.fetchErasRewardPoints]. The loop runs
    [era - startEra + 1] times when that is positive and never otherwise. *)
Definition fetchErasRewardPoints (hash : Hash) (depth era : Z) (currentEra : N)
    : Task (list IErasRewardPoints) :=
  historyDepth ← request (query_staking_historyDepth_at hash)
                   (historyDepth_at api hash);
  if (Z.of_N historyDepth <? depth)%Z
  then reject (BadRequest depth_message)
  else if (era - (depth - 1) <? Z.of_N currentEra - Z.of_N historyDepth)%Z
  then reject (BadRequest window_message)
  else
    erasRewardPoint ← newArray;
    eraLoop hash era erasRewardPoint
      (Z.to_nat (era - startEra depth era + 1)) (startEra depth era) [].

(** The handler [getErasRewardPoints], with the query parameters as
    [verifyAndCastOr] returns them: [None] for a parameter that is not
    given. *)
Definition getErasRewardPoints (depth era : option Z)
    : Task (list IErasRewardPoints) :=
  r ← getEraAndHash era;
  fetchErasRewardPoints (eh_hash r) (default 1%Z depth) (eh_eraArg r)
    (eh_currentEra r).

End WithApi.

(** What is sent for an entry: its fields, with the array its
    [erasRewardPoint] refers to as it is when the response is written. *)
Definition sent (w : World) (p : IErasRewardPoints)
    : N * N * list IErasRewardPoint :=
  (era p, totalEraRewardPoints p, default [] (arrays w !! erasRewardPoint p)).

(** The validators of a reply, as [pushValidators] pushes them. *)
Definition validatorsOf (r : EraRewardPoints) : list IErasRewardPoint :=
  map (fun kv => mkPoint (fst kv)) (individual r).

(** A node whose reward points are the same at every era. *)
Definition sampleApi (active : N) : StakingApi :=
  {| getFinalizedHead := Fulfilled Sample.hashA;
     activeEra := Fulfilled (Some active);
     currentEra := Fulfilled (IsOption (Some active));
     historyDepth_at := fun _ => Fulfilled 84%N;
     erasRewardPoints_at := fun _ _ =>
       Fulfilled (mkEraRewardPoints 100 [("alice", 60%N); ("bob", 40%N)]);
     createType_EraIndex := fun e => Fulfilled (Z.to_N e) |}.

Definition emptyWorld : World := mkWorld [] [].

End Staking.

(** ** More of the sample chain *)

Module SampleMore.
Import BlocksService.

(** An event of the initialization phase. *)
Definition newSession : Raw.EventRecord :=
  Raw.mkEventRecord (Raw.mkEvent "session" "NewSession" [] []) Raw.Initialization.

(** A wasm package that knows every runtime but spec version 2004. *)
Definition externalsUnknownRuntime : Externals :=
  {| sanitizeDocs := sanitizeDocs Sample.externals;
     isFrameMethod := isFrameMethod Sample.externals;
     isPaysFee := isPaysFee Sample.externals;
     blake2AsU8a := blake2AsU8a Sample.externals;
     engine_extractAuthor := engine_extractAuthor Sample.externals;
     from_params := fun p =>
       match fp_specVersion p with
       | OfNum n => if (n =? 2004)%N then Ok None else Ok (Some 0)
       | OfStr _ => Ok (Some 0)
       end;
     calc_fee := calc_fee Sample.externals |}.

(** An engine that takes the validator whose index is the first byte of the
    payload. *)
Definition externalsAuthoring : Externals :=
  {| sanitizeDocs := sanitizeDocs Sample.externals;
     isFrameMethod := isFrameMethod Sample.externals;
     isPaysFee := isPaysFee Sample.externals;
     blake2AsU8a := blake2AsU8a Sample.externals;
     engine_extractAuthor := fun _ payload vs =>
       match payload with
       | b :: _ => vs !! N.to_nat (Byte.to_N b)
       | [] => None
       end;
     from_params := from_params Sample.externals;
     calc_fee := calc_fee Sample.externals |}.

(** A digest whose [Consensus] item comes before its [PreRuntime] item. *)
Definition digest : list Raw.DigestItem :=
  [Raw.mkDigestItem "Consensus" 4 ("BABE", [Byte.x00]);
   Raw.mkDigestItem "PreRuntime" 6 ("BABE", [Byte.x01]);
   Raw.mkDigestItem "Seal" 5 ("BABE", [Byte.x00])].

Definition authoredBlock : Raw.Block :=
  Raw.mkBlock (Raw.mkHeader Sample.zeroHash 0 [] [] digest) [Sample.timestampSet]
    Sample.registry.

(** A node with [session.validators], on the genesis block. *)
Definition apiAuthored : ApiPromise :=
  let a := Sample.api Sample.zeroHash 0 (Ok []) in
  {| getBlock := fun _ => Ok authoredBlock; getHeader := getHeader a;
     getRuntimeVersion := getRuntimeVersion a; getMetadata := getMetadata a;
     system_events_at := system_events_at a;
     session_validators_at := Some (fun _ => Ok ["alice"; "bob"]);
     nextFeeMultiplier_at := nextFeeMultiplier_at a;
     consts := consts a; runtimeVersion := runtimeVersion a;
     createType_RuntimeDispatchInfo := createType_RuntimeDispatchInfo a |}.

(** The node of the sample chain, with [session.validators]. *)
Definition apiWithValidators (parent : Hash) (n : N)
    (events : Outcome (list Raw.EventRecord)) : ApiPromise :=
  let a := Sample.api parent n events in
  {| getBlock := getBlock a; getHeader := getHeader a;
     getRuntimeVersion := getRuntimeVersion a; getMetadata := getMetadata a;
     system_events_at := system_events_at a;
     session_validators_at := Some (fun _ => Ok ["alice"; "bob"]);
     nextFeeMultiplier_at := nextFeeMultiplier_at a;
     consts := consts a; runtimeVersion := runtimeVersion a;
     createType_RuntimeDispatchInfo := createType_RuntimeDispatchInfo a |}.

(** [utility.batch] of a call, of bytes that would decode to a call, and of
    an array that holds a call. *)
Definition batch : GenericCall :=
  mkCall "utility" "batch"
    (Some [("calls",
            CArray [CCall (mkCall "system" "remark" None);
                    CValue "Bytes" [Byte.x2a];
                    CArray [CCall (mkCall "system" "remark" None)]])]).

(** A call with bytes that would decode to a call under another name. *)
Definition proxied : GenericCall :=
  mkCall "proxy" "proxy" (Some [("payload", CValue "Bytes" [Byte.x2a])]).

End SampleMore.

(** * Properties *)

Import BlocksService.

(** ** The call tree parser *)

(** What holds of the descent whatever the decoder does. *)
Section DecoderFacts.
Variable decode : Decoder.

(** More fuel never changes a result already reached. *)
Lemma parseArgWith_mono (f f' : GenericCall -> option ISanitizedCall) k a r :
  (forall g x, f g = Some x -> f' g = Some x) ->
  parseArgWith decode f k a = Some r -> parseArgWith decode f' k a = Some r.
Proof.
  intros Hff'. destruct a as [l|g|rt b]; simpl.
  - intros H. apply fmap_Some in H as (l' & Hl & ->).
    apply fmap_Some. exists l'. split; [|done].
    apply mapM_Some in Hl. apply mapM_Some.
    eapply Forall2_impl; [exact Hl|].
    intros x y Hxy. destruct x as [|g|]; try done.
    apply fmap_Some in Hxy as (c & Hc & ->).
    apply fmap_Some. eauto.
  - intros H. apply fmap_Some in H as (c & Hc & ->).
    apply fmap_Some. eauto.
  - destruct (_ && _); [|done].
    destruct (decode b) as [call|]; [|done].
    intros H. apply fmap_Some in H as (c & Hc & ->).
    apply fmap_Some. eauto.
Qed.

Lemma parseCallWith_mono (f f' : GenericCall -> option ISanitizedCall) g r :
  (forall g x, f g = Some x -> f' g = Some x) ->
  parseCallWith decode f g = Some r -> parseCallWith decode f' g = Some r.
Proof.
  intros Hff'. unfold parseCallWith.
  destruct (Codec.args g) as [s|]; simpl; [|done].
  intros H. apply bind_Some in H as (newArgs & Hm & Hr).
  apply bind_Some. exists newArgs. split; [|done].
  apply mapM_Some in Hm. apply mapM_Some.
  eapply Forall2_impl; [exact Hm|].
  intros [k a] y Hy. simpl in *.
  apply fmap_Some in Hy as (v & Hv & ->).
  apply fmap_Some. exists v. split; [|done].
  eapply parseArgWith_mono; eauto.
Qed.

Lemma parse_fuel_mono n m g r :
  n <= m -> parse_fuel decode n g = Some r -> parse_fuel decode m g = Some r.
Proof.
  revert m g r. induction n as [|n IH]; intros m g r Hle; [done|].
  destruct m as [|m]; [lia|]. simpl.
  apply parseCallWith_mono. intros g' x. apply IH. lia.
Qed.

(** A run that returns returns the same whatever fuel it was given. *)
Lemma parse_fuel_agree n m g r r' :
  parse_fuel decode n g = Some r -> parse_fuel decode m g = Some r' -> r = r'.
Proof.
  intros Hn Hm. destruct (Nat.le_ge_cases n m) as [Hle|Hle].
  - rewrite (parse_fuel_mono n m g r Hle Hn) in Hm. congruence.
  - rewrite (parse_fuel_mono m n g r' Hle Hm) in Hn. congruence.
Qed.

(** What a run that returns has gone through: one more level of fuel than
    the parse of each argument, in the order of the keys. *)
Lemma parse_fuel_Some n g r :
  parse_fuel decode n g = Some r ->
  exists m,
    n = S m
    /\ sc_method r = mkFrameMethod (Codec.section g) (Codec.method g)
    /\ match Codec.args g with
       | Some callArgs =>
           length (sc_args r) = length callArgs
           /\ forall i k a,
                callArgs !! i = Some (k, a) ->
                exists v,
                  parseArgWith decode (parse_fuel decode m) k a = Some v
                  /\ sc_args r !! i = Some (k, v)
       | None => sc_args r = []
       end.
Proof.
  destruct n as [|m]; [done|]. simpl. unfold parseCallWith. intros H.
  exists m. split; [done|].
  apply bind_Some in H as (newArgs & Hm & [= <-]). simpl. split; [done|].
  destruct (Codec.args g) as [callArgs|]; [|by injection Hm as <-].
  apply mapM_Some in Hm. split; [symmetry; by eapply Forall2_length|].
  intros i k a Hi.
  destruct (Forall2_lookup_l _ _ _ _ _ Hm Hi) as (y & Hy & Hf). simpl in Hf.
  apply fmap_Some in Hf as (v & Hv & ->). eauto.
Qed.

End DecoderFacts.

(** With a registry, the descent ends. *)
Section ParserFacts.
Variable registry : Registry.

Lemma arg_size_in_struct (s : Struct) k a :
  (k, a) ∈ s -> arg_size (rank registry) k a <= struct_size (rank registry) s.
Proof.
  unfold struct_size. induction s as [|[k' a'] s IH]; intros Hin.
  - inversion Hin.
  - apply elem_of_cons in Hin as [[= -> ->]|Hin]; simpl; [lia|].
    specialize (IH Hin). lia.
Qed.

Lemma codec_size_in_array (l : list Codec) a :
  a ∈ l ->
  codec_size (rank registry) a <= list_sum (map (codec_size (rank registry)) l).
Proof.
  induction l as [|x l IH]; intros Hin.
  - inversion Hin.
  - apply elem_of_cons in Hin as [->|Hin]; simpl; [lia|].
    specialize (IH Hin). lia.
Qed.

Lemma codec_size_call (g : GenericCall) :
  codec_size (rank registry) (CCall g) = S (call_size (rank registry) g).
Proof. reflexivity. Qed.

Lemma parseArgWith_enough (f : GenericCall -> option ISanitizedCall) n k a :
  (forall g, call_size (rank registry) g <= n -> is_Some (f g)) ->
  arg_size (rank registry) k a <= S n ->
  is_Some (parseArgWith (createCall registry) f k a).
Proof.
  intros Hf Hsz. destruct a as [l|g|rt b].
  - simpl. apply fmap_is_Some, mapM_is_Some, Forall_forall.
    intros x Hx. simpl.
    pose proof (codec_size_in_array l x Hx) as Hx'.
    destruct x as [|g|]; try done.
    apply fmap_is_Some, Hf. rewrite codec_size_call in Hx'.
    simpl in Hsz. lia.
  - simpl. apply fmap_is_Some, Hf.
    change (arg_size (rank registry) k (CCall g))
      with (S (call_size (rank registry) g)) in Hsz. lia.
  - simpl in *. unfold isOpaqueCall in Hsz. destruct (_ && _); [|done].
    destruct (createCall registry b) as [call|] eqn:Hd; [|done].
    apply fmap_is_Some, Hf.
    pose proof (createCall_ranked registry b call Hd). lia.
Qed.

(** [call_size] is enough fuel: the descent terminates. *)
Lemma parse_fuel_enough n g :
  call_size (rank registry) g <= n ->
  is_Some (parse_fuel (createCall registry) n g).
Proof.
  revert g. induction n as [|n IH]; intros g Hsz.
  - unfold call_size in Hsz. lia.
  - simpl. unfold parseCallWith.
    destruct (Codec.args g) as [s|] eqn:Hargs; simpl; [|done].
    assert (is_Some (mapM (fun kv => pair (fst kv) <$>
                parseArgWith (createCall registry)
                  (parse_fuel (createCall registry) n) (fst kv) (snd kv)) s))
      as [newArgs ->]; [|done].
    apply mapM_is_Some, Forall_forall. intros [k a] Hin. simpl.
    apply fmap_is_Some. eapply (parseArgWith_enough _ n); [exact IH|].
    pose proof (arg_size_in_struct s k a Hin).
    unfold call_size in Hsz. rewrite Hargs in Hsz. lia.
Qed.

Lemma parse_fuel_stable n g :
  call_size (rank registry) g <= n ->
  parse_fuel (createCall registry) n g = Some (parseGenericCall registry g).
Proof.
  intros Hsz. unfold parseGenericCall.
  destruct (parse_fuel_enough (call_size (rank registry) g) g) as [r Hr]; [lia|].
  rewrite Hr. simpl. eapply parse_fuel_mono; eauto.
Qed.

(** Whatever fuel a run that returns was given, it returns
    [parseGenericCall]. *)
Lemma parse_fuel_is_parseGenericCall n g r :
  parse_fuel (createCall registry) n g = Some r -> r = parseGenericCall registry g.
Proof.
  intros H. eapply parse_fuel_agree; [exact H|].
  by apply (parse_fuel_stable (call_size (rank registry) g)).
Qed.

Lemma parseArgWith_closed n k a :
  arg_size (rank registry) k a <= S n ->
  parseArgWith (createCall registry) (parse_fuel (createCall registry) n) k a
  = Some (parseArg registry k a).
Proof.
  intros Hsz. destruct a as [l|g|rt b].
  - simpl. apply fmap_Some. eexists. split; [|reflexivity].
    apply mapM_Some, Forall2_fmap_r, Forall_Forall2_diag, Forall_forall.
    intros x Hx. pose proof (codec_size_in_array l x Hx) as Hx'.
    destruct x as [|g|]; try done.
    rewrite parse_fuel_stable; [done|]. rewrite codec_size_call in Hx'.
    simpl in Hsz. lia.
  - simpl. rewrite parse_fuel_stable; [done|].
    change (arg_size (rank registry) k (CCall g))
      with (S (call_size (rank registry) g)) in Hsz. lia.
  - simpl in *. unfold isOpaqueCall in Hsz. destruct (_ && _); [|done].
    destruct (createCall registry b) as [call|] eqn:Hd; [|done].
    rewrite parse_fuel_stable; [done|].
    pose proof (createCall_ranked registry b call Hd). lia.
Qed.

(** The unfolding equation of [parseGenericCall]. *)
Lemma parseGenericCall_eq (g : GenericCall) :
  parseGenericCall registry g =
  mkSanitizedCall (mkFrameMethod (Codec.section g) (Codec.method g))
    (match Codec.args g with
     | Some callArgs => map (fun kv => (fst kv, parseArg registry (fst kv) (snd kv))) callArgs
     | None => []
     end).
Proof.
  assert (parse_fuel (createCall registry) (call_size (rank registry) g) g
          = Some (mkSanitizedCall (mkFrameMethod (Codec.section g) (Codec.method g))
    (match Codec.args g with
     | Some callArgs => map (fun kv => (fst kv, parseArg registry (fst kv) (snd kv))) callArgs
     | None => []
     end))) as H.
  { unfold call_size. simpl. unfold parseCallWith.
    destruct (Codec.args g) as [s|] eqn:Hargs; simpl; [|done].
    apply bind_Some. eexists. split; [|reflexivity].
    apply mapM_Some, Forall2_fmap_r, Forall_Forall2_diag, Forall_forall.
    intros [k a] Hin. simpl.
    rewrite (parseArgWith_closed (struct_size (rank registry) s)); [done|].
    pose proof (arg_size_in_struct s k a Hin). lia. }
  unfold parseGenericCall. rewrite H. reflexivity.
Qed.

End ParserFacts.

(** ** The trace logic of [M] *)

Lemma emits_ret {A} (P : ApiCall -> Prop) (Q : Outcome A -> Prop) a : Q (Ok a) -> emits P Q (ret a).
Proof. intros HQ t. exists [], (Ok a). rewrite app_nil_r. auto. Qed.

Lemma emits_throw {A} (P : ApiCall -> Prop) (Q : Outcome A -> Prop) e : Q (Throw e) -> emits P Q (throw e).
Proof. intros HQ t. exists [], (Throw e). rewrite app_nil_r. auto. Qed.

Lemma emits_lift {A} (P : ApiCall -> Prop) (Q : Outcome A -> Prop) r : Q r -> emits P Q (lift r).
Proof. intros HQ t. exists [], r. rewrite app_nil_r. auto. Qed.

Lemma emits_await {A} (P : ApiCall -> Prop) (Q : Outcome A -> Prop) c r :
  P c -> Q r -> emits P Q (await c r).
Proof. intros HP HQ t. exists [c], r. auto. Qed.

Lemma emits_prop_of {A} (P : ApiCall -> Prop) (Q : Outcome A -> Prop) name o :
  (forall a, o = Some a -> Q (Ok a)) ->
  (forall e, o = None -> Q (Throw e)) ->
  emits P Q (prop_of name o).
Proof.
  intros Hs Hn. destruct o; simpl; [apply emits_ret|apply emits_throw]; auto.
Qed.

Lemma emits_bind {A B} (P : ApiCall -> Prop) (Q1 : Outcome A -> Prop) (Q : Outcome B -> Prop) m k :
  emits P Q1 m ->
  (forall a, Q1 (Ok a) -> emits P Q (k a)) ->
  (forall e, Q1 (Throw e) -> Q (Throw e)) ->
  emits P Q (m ≫= k).
Proof.
  intros Hm Hk He t. unfold mbind, M_bind, bind.
  destruct (Hm t) as (l & r & -> & Hl & Hr).
  destruct r as [a|e].
  - destruct (Hk a Hr (t ++ l)) as (l' & r' & -> & Hl' & Hr').
    exists (l ++ l'), r'. rewrite app_assoc, Forall_app. auto.
  - exists l, (Throw e). auto.
Qed.

Lemma emits_fmap {A B} (P : ApiCall -> Prop) (Q1 : Outcome A -> Prop) (Q : Outcome B -> Prop) (f : A -> B) m :
  emits P Q1 m ->
  (forall a, Q1 (Ok a) -> Q (Ok (f a))) ->
  (forall e, Q1 (Throw e) -> Q (Throw e)) ->
  emits P Q (f <$> m).
Proof.
  intros Hm Hk He. unfold fmap, M_fmap.
  apply (emits_bind P Q1 Q m (fun a => ret (f a))); auto.
  intros a Ha. apply emits_ret; auto.
Qed.

Lemma emits_all2 {A B} (P : ApiCall -> Prop) (Q1 : Outcome A -> Prop) (Q2 : Outcome B -> Prop)
    (Q : Outcome (A * B) -> Prop) a b :
  emits P Q1 a -> emits P Q2 b ->
  (forall x y, Q1 (Ok x) -> Q2 (Ok y) -> Q (Ok (x, y))) ->
  (forall e r, Q1 (Throw e) -> Q2 r -> Q (Throw e)) ->
  (forall x e, Q1 (Ok x) -> Q2 (Throw e) -> Q (Throw e)) ->
  emits P Q (promise_all2 a b).
Proof.
  intros Ha Hb Hok He1 He2 t. unfold promise_all2.
  destruct (Ha t) as (l & ra & -> & Hl & Hra).
  destruct (Hb (t ++ l)) as (l' & rb & -> & Hl' & Hrb).
  eexists (l ++ l'), _. rewrite app_assoc, Forall_app.
  split; [reflexivity|]. split; [auto|].
  destruct ra, rb; eauto.
Qed.


Lemma emits_try_catch {A} (P : ApiCall -> Prop) (Q1 Q : Outcome A -> Prop) body handler :
  emits P Q1 body ->
  (forall a, Q1 (Ok a) -> Q (Ok a)) ->
  (forall e, Q1 (Throw e) -> emits P Q (handler e)) ->
  emits P Q (try_catch body handler).
Proof.
  intros Hb Hok Hh t. unfold try_catch.
  destruct (Hb t) as (l & r & -> & Hl & Hr).
  destruct r as [a|e].
  - exists l, (Ok a). auto.
  - destruct (Hh e Hr (t ++ l)) as (l' & r' & -> & Hl' & Hr').
    exists (l ++ l'), r'. rewrite app_assoc, Forall_app. auto.
Qed.

Lemma emits_weaken {A} (P P' : ApiCall -> Prop) (Q Q' : Outcome A -> Prop) m :
  emits P Q m -> (forall c, P c -> P' c) -> (forall r, Q r -> Q' r) ->
  emits P' Q' m.
Proof.
  intros Hm HP HQ t. destruct (Hm t) as (l & r & -> & Hl & Hr).
  exists l, r. split; [done|]. split; [|auto].
  eapply Forall_impl; eauto.
Qed.

Lemma emits_run {A} (P : ApiCall -> Prop) (Q : Outcome A -> Prop) m t t' r :
  emits P Q m -> m t = (t', r) -> (exists l, t' = t ++ l /\ Forall P l) /\ Q r.
Proof.
  intros Hm Hrun. destruct (Hm t) as (l & r' & Heq & Hl & Hr).
  rewrite Heq in Hrun. injection Hrun as <- <-. eauto.
Qed.

(** ** Event attribution *)


Section Attribution.
Variable ext : Externals.
Variable blockHash : Hash.
Variable eventDocs : bool.


Lemma scanPaysFee_spec e l :
  exists p, scanPaysFee ext e l = set_paysFee p e
            /\ (signature e = None -> p = paysFee e).
Proof.
  induction l as [|d l IH]; simpl.
  - exists (paysFee e). by destruct e.
  - destruct (signature e) eqn:Hs; simpl.
    + destruct (isPaysFee ext d); [|exact IH]. eexists. split; [reflexivity|done].
    + exact IH.
Qed.

Lemma applyEvent_spec event e :
  exists p,
    applyEvent ext eventDocs event e =
      with_attribution (events e ++ [sanitizedEvent ext eventDocs event])
        (if String.eqb (Raw.ev_method event) Event_success
         then SuccessBool true else success e) p e
    /\ (signature e = None -> p = paysFee e).
Proof.
  unfold applyEvent.
  destruct (String.eqb (Raw.ev_method event) Event_success) eqn:Hs; simpl.
  - destruct (scanPaysFee_spec (set_success (SuccessBool true) e)
                (map Raw.toJSON (Raw.data event))) as (p & -> & Hp).
    exists p. split; [reflexivity|exact Hp].
  - destruct (String.eqb (Raw.ev_method event) Event_failure); simpl.
    + destruct (scanPaysFee_spec e (map Raw.toJSON (Raw.data event)))
        as (p & -> & Hp).
      exists p. split; [reflexivity|exact Hp].
    + exists (paysFee e). split; [reflexivity|done].
Qed.

Lemma fold_applyEvent_spec (rs : list Raw.EventRecord) e :
  exists p,
    fold_left (fun e r => applyEvent ext eventDocs (Raw.event r) e) rs e =
      with_attribution
        (events e ++ map (fun r => sanitizedEvent ext eventDocs (Raw.event r)) rs)
        (if existsb (hasMethod Event_success) rs
         then SuccessBool true else success e) p e
    /\ (signature e = None -> p = paysFee e).
Proof.
  revert e. induction rs as [|r rs IH]; intros e; simpl.
  - exists (paysFee e). rewrite app_nil_r. by destruct e.
  - destruct (applyEvent_spec (Raw.event r) e) as (p1 & -> & Hp1).
    unfold hasMethod at 1.
    destruct (String.eqb (Raw.ev_method (Raw.event r)) Event_success); simpl.
    + destruct (IH (with_attribution
                      (events e ++ [sanitizedEvent ext eventDocs (Raw.event r)])
                      (SuccessBool true) p1 e)) as (p & -> & Hp).
      exists p. simpl. rewrite <- app_assoc. simpl. split.
      * unfold with_attribution; simpl. by destruct (existsb _ _).
      * intros Hs. rewrite Hp; auto.
    + destruct (IH (with_attribution
                      (events e ++ [sanitizedEvent ext eventDocs (Raw.event r)])
                      (success e) p1 e)) as (p & -> & Hp).
      exists p. simpl. rewrite <- app_assoc. simpl. split; [reflexivity|].
      intros Hs. rewrite Hp; auto.
Qed.

Lemma attributeEvent_Ok record acc acc' :
  attributeEvent ext blockHash eventDocs record acc = Ok acc' ->
  length (at_extrinsics acc') = length (at_extrinsics acc)
  /\ forall idx,
       at_extrinsics acc' !! idx =
         (fun e => if appliesTo idx record
                   then applyEvent ext eventDocs (Raw.event record) e else e)
         <$> at_extrinsics acc !! idx.
Proof.
  unfold attributeEvent, appliesTo.
  destruct (Raw.phase record) as [i| |].
  - destruct (at_extrinsics acc !! N.to_nat i) as [x|] eqn:Hx; [|done].
    intros [= <-]. simpl. split; [by rewrite length_insert|].
    intros idx. case_bool_decide as Hi.
    + subst idx. rewrite list_lookup_insert_eq, Hx; [done|].
      by eapply lookup_lt_Some.
    + rewrite list_lookup_insert_ne by done. by destruct (_ !! idx).
  - intros [= <-]. simpl. split; [done|]. intros idx. by destruct (_ !! idx).
  - intros [= <-]. simpl. split; [done|]. intros idx. by destruct (_ !! idx).
Qed.

Lemma attributeEvents_Ok records acc acc' :
  attributeEvents ext blockHash eventDocs records acc = Ok acc' ->
  length (at_extrinsics acc') = length (at_extrinsics acc)
  /\ forall idx,
       at_extrinsics acc' !! idx = applyAll ext eventDocs idx records <$> at_extrinsics acc !! idx.
Proof.
  revert acc. induction records as [|r rs IH]; intros acc; simpl.
  - intros [= <-]. split; [done|]. intros idx. unfold applyAll. simpl.
    by destruct (_ !! idx).
  - destruct (attributeEvent ext blockHash eventDocs r acc) as [acc1|e] eqn:H1;
      [|done].
    intros H2. apply attributeEvent_Ok in H1 as [Hlen1 Hat1].
    apply IH in H2 as [Hlen2 Hat2]. split; [congruence|].
    intros idx. rewrite Hat2, Hat1. unfold applyAll. simpl.
    destruct (at_extrinsics acc !! idx); simpl; [|done].
    by destruct (appliesTo idx r).
Qed.

(** Attribution stops exactly at an event whose index is out of range. *)
Lemma attributeEvents_Throw records acc err :
  attributeEvents ext blockHash eventDocs records acc = Throw err ->
  exists r i,
    r ∈ records /\ Raw.phase r = Raw.ApplyExtrinsic i
    /\ length (at_extrinsics acc) <= N.to_nat i
    /\ err = missingExtrinsic i blockHash.
Proof.
  revert acc. induction records as [|r rs IH]; intros acc; simpl; [done|].
  destruct (attributeEvent ext blockHash eventDocs r acc) as [acc1|e] eqn:H1.
  - intros H2. apply attributeEvent_Ok in H1 as [Hlen1 _].
    apply IH in H2 as (r' & i & Hin & Hph & Hle & ->).
    exists r', i. rewrite elem_of_cons. split; [auto|]. split; [done|].
    split; [lia|done].
  - intros [= <-]. unfold attributeEvent in H1.
    destruct (Raw.phase r) as [i| |] eqn:Hph; try done.
    destruct (at_extrinsics acc !! N.to_nat i) eqn:Hx; [done|].
    injection H1 as <-. exists r, i. rewrite elem_of_cons.
    split; [auto|]. split; [done|]. split; [|done].
    by apply lookup_ge_None.
Qed.

Lemma attributeEvents_in_range records acc acc' :
  attributeEvents ext blockHash eventDocs records acc = Ok acc' ->
  forall r i, r ∈ records -> Raw.phase r = Raw.ApplyExtrinsic i ->
              N.to_nat i < length (at_extrinsics acc).
Proof.
  revert acc. induction records as [|r rs IH]; intros acc; simpl.
  - intros _ r i Hin. inversion Hin.
  - destruct (attributeEvent ext blockHash eventDocs r acc) as [acc1|e] eqn:H1;
      [|done].
    intros H2 r' i Hin Hph. apply elem_of_cons in Hin as [->|Hin].
    + unfold attributeEvent in H1. rewrite Hph in H1.
      destruct (at_extrinsics acc !! N.to_nat i) eqn:Hx; [|done].
      by eapply lookup_lt_Some.
    + apply attributeEvent_Ok in H1 as [Hlen1 _]. rewrite <- Hlen1. eauto.
Qed.

End Attribution.

(** ** The fee loop *)


Section FeeLoop.
Variable ext : Externals.
Variable api : ApiPromise.

Lemma run_calc_fee_emits (P : ApiCall -> Prop) calcFee w len :
  (forall handle, calcFee = WasmCalcFee handle -> P (CalcFee_calc_fee handle w len)) ->
  emits P (fun r => r = snd (run_calc_fee ext calcFee w len [])
                    /\ (calcFee = DummyCalcFee -> r = Ok None))
    (run_calc_fee ext calcFee w len).
Proof.
  intros HP t. destruct calcFee as [|handle]; simpl.
  - exists [], (Ok None). rewrite app_nil_r. auto.
  - unfold fmap, M_fmap, bind, await, ret. simpl.
    destruct (calc_fee ext handle w len) as [s|e].
    + exists [CalcFee_calc_fee handle w len], (Ok (Some s)). split; [done|].
      split; [auto|]. split; [done|]. discriminate.
    + exists [CalcFee_calc_fee handle w len], (Throw e). split; [done|].
      split; [auto|]. split; [done|]. discriminate.
Qed.

Lemma feeInfo_emits (P : ApiCall -> Prop) calcFee raw e :
  (forall handle w len, calcFee = WasmCalcFee handle ->
                        P (CalcFee_calc_fee handle w len)) ->
  emits P (fun r => r = feeInfo_outcome ext api calcFee raw e)
    (feeInfo ext api calcFee raw e).
Proof.
  intros HP t. unfold feeInfo_outcome, feeInfo.
  destruct (List.find (isCompleted ext) (events e)) as [ev|]; simpl.
  2:{ exists [], (Ok (InfoError "Unable to find success or failure event for extrinsic")).
      rewrite app_nil_r. auto. }
  destruct (last (se_data ev)) as [weightInfo|]; simpl.
  2:{ eexists [], (Throw _). rewrite app_nil_r. unfold mbind, M_bind, bind, throw.
      simpl. auto. }
  unfold mbind, M_bind, bind at 1 3. unfold ret at 1 3.
  destruct (Raw.weight weightInfo) as [w|]; simpl.
  2:{ eexists [], (Ok _). rewrite app_nil_r. auto. }
  destruct (run_calc_fee_emits P calcFee (Z.of_N w) (Raw.encodedLength raw)
              (fun h Hh => HP h _ _ Hh) t) as (l & r & Hrun & Hl & Hr & _).
  unfold bind. rewrite Hrun.
  destruct (run_calc_fee ext calcFee (Z.of_N w) (Raw.encodedLength raw) [])
    as [l0 r0] eqn:Hrun0. simpl in Hr. subst r0.
  destruct r as [fee|err].
  - unfold fmap, M_fmap, bind, lift, ret.
    destruct (createType_RuntimeDispatchInfo api w (Raw.class weightInfo) fee);
      exists l; eexists; (split; [reflexivity|]); split; done.
  - exists l, (Throw err). auto.
Qed.

(** A thrown fee computation throws from any trace, with the same error. *)
Lemma feeInfo_Throw calcFee raw e t t' err :
  feeInfo ext api calcFee raw e t = (t', Throw err) ->
  feeInfo_outcome ext api calcFee raw e = Throw err.
Proof.
  intros H.
  destruct (emits_run (fun _ => True) _ _ _ _ _
              (feeInfo_emits (fun _ => True) calcFee raw e (fun _ _ _ _ => I)) H)
    as [_ ->]. done.
Qed.

Lemma feeStep_emits (P : ApiCall -> Prop) fee block idx exts e raw :
  exts !! idx = Some e ->
  Raw.extrinsics block !! idx = Some raw ->
  (forall handle w len, r_calcFee fee = Some (WasmCalcFee handle) ->
                        paysFee e = Some true ->
                        P (CalcFee_calc_fee handle w len)) ->
  emits P (fun r => r = Ok (<[idx := annotate ext api fee raw e]> exts))
    (feeStep ext api fee block idx exts).
Proof.
  intros He Hraw HP. unfold feeStep, annotate. rewrite He, Hraw. simpl.
  intros t. unfold mbind, M_bind, bind at 1. unfold ret at 1.
  case_bool_decide as Hpays; simpl.
  2:{ exists [], (Ok exts). rewrite app_nil_r, list_insert_id; auto. }
  unfold bind at 1. unfold ret at 1.
  destruct (Raw.isSigned raw); simpl.
  2:{ exists [], (Ok exts). rewrite app_nil_r, list_insert_id; auto. }
  destruct (r_calcFee fee) as [calcFee|] eqn:Hc.
  2:{ eexists [], (Ok _). rewrite app_nil_r. auto. }
  destruct (feeInfo_emits P calcFee raw e) with (t := t)
    as (l & r & Hrun & Hl & ->).
  { intros handle w len ->. eauto. }
  unfold bind, try_catch, ret. rewrite Hrun.
  destruct (feeInfo_outcome ext api calcFee raw e).
  - exists l. eexists. eauto.
  - exists l. eexists. eauto.
Qed.

Lemma annotate_set_info fee raw e :
  exists i, annotate ext api fee raw e = set_info i e.
Proof.
  unfold annotate. destruct (_ && _); [eauto|].
  exists (info e). by destruct e.
Qed.

Lemma annotate_paysFee fee raw e : paysFee (annotate ext api fee raw e) = paysFee e.
Proof. destruct (annotate_set_info fee raw e) as [i ->]. done. Qed.

Lemma feeLoop_emits (P : ApiCall -> Prop) fee block turns idx exts :
  idx + turns = length (Raw.extrinsics block) ->
  length exts = length (Raw.extrinsics block) ->
  (forall handle w len, r_calcFee fee = Some (WasmCalcFee handle) ->
                        (exists e, e ∈ exts /\ paysFee e = Some true) ->
                        P (CalcFee_calc_fee handle w len)) ->
  emits P (fun r => r = Ok (take idx exts ++
                            zip_with (annotate ext api fee)
                              (drop idx (Raw.extrinsics block)) (drop idx exts)))
    (feeLoop ext api fee block turns idx exts).
Proof.
  revert idx exts. induction turns as [|turns IH]; intros idx exts Hidx Hlen HP.
  - simpl. apply emits_ret.
    rewrite !drop_ge by lia. rewrite take_ge by lia. by rewrite app_nil_r.
  - simpl.
    destruct (lookup_lt_is_Some_2 exts idx) as [e He]; [lia|].
    destruct (lookup_lt_is_Some_2 (Raw.extrinsics block) idx) as [raw Hraw]; [lia|].
    eapply emits_bind.
    + apply (feeStep_emits P fee block idx exts e raw He Hraw).
      intros handle w len Hc Hp. apply HP; [done|].
      exists e. split; [|done]. by eapply list_elem_of_lookup_2.
    + intros exts' [= ->].
      eapply emits_weaken; [apply (IH (S idx))| |].
      * lia.
      * by rewrite length_insert.
      * intros handle w len Hc (e' & Hin & Hp). apply HP; [done|].
        apply list_elem_of_lookup in Hin as [j Hj].
        destruct (decide (idx = j)) as [->|Hne].
        -- rewrite list_lookup_insert_eq in Hj by (by eapply lookup_lt_Some).
           injection Hj as <-. rewrite annotate_paysFee in Hp.
           exists e. split; [|done]. by eapply list_elem_of_lookup_2.
        -- rewrite list_lookup_insert_ne in Hj by done.
           exists e'. split; [|done]. by eapply list_elem_of_lookup_2.
      * auto.
      * intros r ->. f_equal.
        rewrite (drop_S _ _ _ Hraw), (drop_S _ _ _ He). simpl.
        rewrite drop_insert_lt by lia.
        rewrite (take_S_r (<[idx:=_]> exts) idx (annotate ext api fee raw e)).
        2:{ rewrite list_lookup_insert_eq; [done|]. by eapply lookup_lt_Some. }
        rewrite take_insert_ge by lia. by rewrite <- app_assoc.
    + intros err Herr. done.
Qed.

Lemma feeLoop_idle fee block turns idx exts :
  idx + turns = length (Raw.extrinsics block) ->
  length exts = length (Raw.extrinsics block) ->
  Forall (fun e => paysFee e <> Some true) exts ->
  emits (fun _ => False) (fun r => r = Ok exts)
    (feeLoop ext api fee block turns idx exts).
Proof.
  intros Hidx Hlen Hall.
  eapply emits_weaken.
  - apply (feeLoop_emits (fun _ => False) fee block turns idx exts Hidx Hlen).
    intros handle w len _ (e & Hin & Hp).
    rewrite Forall_forall in Hall. by apply (Hall e Hin).
  - auto.
  - intros r ->. f_equal.
    rewrite <- (take_drop idx exts) at 3. f_equal.
    apply list_eq. intros j. rewrite lookup_zip_with.
    destruct (drop idx (Raw.extrinsics block) !! j) as [raw|] eqn:Hr; simpl.
    + destruct (drop idx exts !! j) as [e|] eqn:He; simpl; [|done].
      unfold annotate. case_bool_decide as Hp; [|done].
      exfalso. rewrite Forall_forall in Hall. apply (Hall e); [|done].
      rewrite lookup_drop in He. by eapply list_elem_of_lookup_2.
    + apply lookup_ge_None in Hr. symmetry. apply lookup_ge_None.
      rewrite length_drop. rewrite length_drop in Hr. lia.
Qed.

End FeeLoop.

(** ** createCalcFee *)


Lemma silent_prop_bind {A B : Type} name (o : option A) (k : A -> M B) :
  (forall a, silent (k a)) -> silent (prop_of name o ≫= k).
Proof.
  intros Hk t. destruct o as [a|]; simpl; [|done].
  unfold mbind, M_bind, bind, ret. apply Hk.
Qed.

Lemma silent_ret {A : Type} (a : A) : silent (ret a).
Proof. done. Qed.

Section CalcFee.
Variable ext : Externals.
Variable api : ApiPromise.

Lemma extrinsicBaseWeightExists_silent : silent (extrinsicBaseWeightExists api).
Proof.
  unfold extrinsicBaseWeightExists. apply silent_prop_bind. intros sys.
  destruct (extrinsicBaseWeight sys); [apply silent_ret|].
  repeat (apply silent_prop_bind; intros ?). apply silent_ret.
Qed.

Lemma decorated_baseWeight_silent c : silent (decorated_baseWeight c).
Proof.
  unfold decorated_baseWeight. destruct (_ ≫= _); [apply silent_ret|].
  apply silent_prop_bind. intros ?. apply silent_ret.
Qed.

Lemma live_baseWeight_silent : silent (live_baseWeight api).
Proof.
  unfold live_baseWeight. destruct (_ ≫= _); [apply silent_ret|].
  repeat (apply silent_prop_bind; intros ?). apply silent_ret.
Qed.

Lemma bind_run {A B : Type} (m : M A) (k : A -> M B) t :
  (m ≫= k) t = match m t with
               | (t', Ok a) => k a t'
               | (t', Throw e) => (t', Throw e)
               end.
Proof. reflexivity. Qed.

Lemma bind_silent {A B : Type} (m : M A) (k : A -> M B) t :
  silent m ->
  (m ≫= k) t = match snd (m []) with
               | Ok a => k a t
               | Throw e => (t, Throw e)
               end.
Proof. intros Hm. rewrite bind_run, Hm. by destruct (snd (m [])). Qed.


Lemma createCalcFee_supported parentHash block t t' r :
  createCalcFee ext api parentHash block t = (t', Ok r) ->
  r_calcFee r <> Some DummyCalcFee ->
  exists perByte pph v (mult : Z) bw coeffs h,
    perByte_const api = Some perByte
    /\ (if (1 <? Raw.number (Raw.header block))%N
        then exists hdr, getHeader api parentHash = Ok hdr
                         /\ pph = Raw.parentHash hdr
        else pph = parentHash)
    /\ getRuntimeVersion api pph = Ok v
    /\ let p := mkFeeParams coeffs (Z.of_N bw) (pretty mult)
                  (if (Raw.number (Raw.header block) <? historical_height)%N
                   then historical_perByte else pretty perByte)
                  (OfStr (specName v)) (OfNum (specVersion v)) in
       from_params ext p = Ok h
       /\ r = mkCalcFeeResult (WasmCalcFee <$> h)
                (OfStr (specName v)) (OfNum (specVersion v))
       /\ t' = t ++ (if (1 <? Raw.number (Raw.header block))%N
                     then [rpc_chain_getHeader parentHash] else [])
                 ++ [rpc_state_getRuntimeVersion pph;
                     query_transactionPayment_nextFeeMultiplier_at parentHash]
                 ++ (if versionDiffers api v then [rpc_state_getMetadata pph] else [])
                 ++ [CalcFee_from_params p].
Proof.
  intros H Hnd. unfold createCalcFee in H.
  rewrite (bind_silent _ _ _ extrinsicBaseWeightExists_silent) in H.
  destruct (snd (extrinsicBaseWeightExists api [])) as [bwe|]; [|done].
  destruct (perByte_const api) as [perByte|] eqn:Hpb.
  2:{ rewrite bind_run in H. unfold await, ret in H.
      destruct (getRuntimeVersion api parentHash); simplify_eq; done. }
  destruct bwe as [bwe|].
  2:{ rewrite bind_run in H. unfold await, ret in H.
      destruct (getRuntimeVersion api parentHash); simplify_eq; done. }
  destruct (nextFeeMultiplier_at api) as [mult_at|].
  2:{ rewrite bind_run in H. unfold await, ret in H.
      destruct (getRuntimeVersion api parentHash); simplify_eq; done. }
  destruct (transactionPayment (consts api)) as [tp|]; [|done].
  simpl in H. rewrite bind_run in H. unfold ret at 1 in H.
  destruct (weightToFee tp) as [w2f|]; [|done].
  simpl in H. rewrite bind_run in H. unfold ret at 1 in H.
  rewrite bind_run in H.
  destruct ((if (1 <? Raw.number (Raw.header block))%N
             then Raw.parentHash <$>
                    await (rpc_chain_getHeader parentHash) (getHeader api parentHash)
             else ret parentHash) t) as [t1 o] eqn:Hp.
  destruct o as [pph|]; [|done].
  assert (t1 = t ++ (if (1 <? Raw.number (Raw.header block))%N
                     then [rpc_chain_getHeader parentHash] else [])
          /\ (if (1 <? Raw.number (Raw.header block))%N
              then exists hdr, getHeader api parentHash = Ok hdr
                               /\ pph = Raw.parentHash hdr
              else pph = parentHash)) as [-> Hpph].
  { destruct (1 <? Raw.number (Raw.header block))%N.
    - unfold fmap, M_fmap, bind, await, ret in Hp.
      destruct (getHeader api parentHash) as [hdr|]; simplify_eq. eauto.
    - unfold ret in Hp. simplify_eq. by rewrite app_nil_r. }
  rewrite bind_run in H. unfold promise_all2, await in H.
  destruct (getRuntimeVersion api pph) as [v|] eqn:Hv; [|done].
  destruct (mult_at parentHash) as [mult|]; [|done].
  rewrite bind_run in H.
  fold (versionDiffers api v) in H.
  destruct (versionDiffers api v) eqn:Hd.
  - rewrite bind_run in H. unfold await in H.
    destruct (getMetadata api pph) as [metadata|]; [|done].
    rewrite decorated_baseWeight_silent in H.
    destruct (snd (decorated_baseWeight (decorated_consts metadata) []))
      as [[bw|]|]; try done.
    rewrite bind_run in H. unfold await, ret in H.
    destruct (from_params ext _) as [h|] eqn:Hfp; [|done].
    injection H as <- <-.
    eexists perByte, pph, v, mult, bw, _, h. rewrite Hd.
    repeat split; try done. by rewrite <- !app_assoc.
  - rewrite live_baseWeight_silent in H.
    destruct (snd (live_baseWeight api [])) as [[bw|]|]; try done.
    rewrite bind_run in H. unfold await, ret in H.
    destruct (from_params ext _) as [h|] eqn:Hfp; [|done].
    injection H as <- <-.
    eexists perByte, pph, v, mult, bw, _, h. rewrite Hd.
    repeat split; try done. by rewrite <- !app_assoc.
Qed.
End CalcFee.



Lemma silent_emits {A} (P : ApiCall -> Prop) (m : M A) :
  silent m -> emits P (fun r => r = snd (m [])) m.
Proof.
  intros Hm t. exists [], (snd (m [])). rewrite app_nil_r, Hm at 1. auto.
Qed.

Lemma silent_emits_any {A} (P : ApiCall -> Prop) (m : M A) :
  silent m -> emits P (fun _ => True) m.
Proof.
  intros Hm. apply (emits_weaken P P _ _ m (silent_emits P m Hm)); done.
Qed.

Ltac emits_any :=
  repeat first
    [ apply emits_ret; exact I
    | apply emits_throw; exact I
    | apply emits_await; [reflexivity || assumption | exact I]
    | (apply silent_emits_any;
        first [apply extrinsicBaseWeightExists_silent
              | apply decorated_baseWeight_silent
              | apply live_baseWeight_silent])
    | apply emits_prop_of; intros; exact I
    | (eapply (emits_fmap _ (fun _ => True)); [| intros; exact I | intros; exact I])
    | (eapply (emits_all2 _ (fun _ => True) (fun _ => True));
        [| | intros; exact I | intros; exact I | intros; exact I])
    | (eapply (emits_bind _ (fun _ => True)); [| intros ? _ | intros; exact I])
    | match goal with
      | |- emits _ _ (match ?x with _ => _ end) => destruct x
      | |- emits _ _ (if ?x then _ else _) => destruct x
      | |- emits _ _ (let '(_, _) := ?x in _) => destruct x
      end ].

Section Fetch.
Variable ext : Externals.
Variable api : ApiPromise.

Lemma createCalcFee_emits parentHash block :
  emits (fun c => isCalcFeeCall c = false) (fun _ => True)
    (createCalcFee ext api parentHash block).
Proof.
  unfold createCalcFee.
  eapply (emits_bind _ (fun _ => True)); [emits_any| |done].
  intros bwe _.
  destruct (perByte_const api), bwe, (nextFeeMultiplier_at api); emits_any.
Qed.

Lemma createCalcFee_unsupported parentHash block t t' r :
  perByte_const api = None \/ nextFeeMultiplier_at api = None
  \/ snd (extrinsicBaseWeightExists api []) = Ok None ->
  createCalcFee ext api parentHash block t = (t', Ok r) ->
  exists v,
    getRuntimeVersion api parentHash = Ok v
    /\ r = mkCalcFeeResult (Some DummyCalcFee) (OfNum (specVersion v))
             (OfStr (specName v))
    /\ t' = t ++ [rpc_state_getRuntimeVersion parentHash].
Proof.
  intros Hmiss H. unfold createCalcFee in H.
  rewrite (bind_silent _ _ _ (extrinsicBaseWeightExists_silent api)) in H.
  destruct (snd (extrinsicBaseWeightExists api [])) as [bwe|]; [|done].
  assert (match perByte_const api, bwe, nextFeeMultiplier_at api with
          | Some _, Some _, Some _ => False
          | _, _, _ => True
          end) as Hcase.
  { destruct Hmiss as [->|[->|[= ->]]]; [done| |];
      destruct (perByte_const api); try done; by destruct bwe. }
  destruct (perByte_const api), bwe, (nextFeeMultiplier_at api); try done;
    rewrite bind_run in H; unfold await, ret in H;
    destruct (getRuntimeVersion api parentHash) as [v|]; simplify_eq; eauto.
Qed.

Lemma fetchBlock_fetch_emits hash :
  emits (fun c => isFeeCall c = false)
    (fun r => forall block events sv,
                r = Ok (block, events, sv) ->
                getBlock api hash = Ok block /\ events = fetched_events api hash)
    (fetchBlock_fetch api hash).
Proof.
  intros t. unfold fetchBlock_fetch, fetched_events, fetchEvents.
  unfold mbind, M_bind, bind, promise_all2, try_catch, fmap, M_fmap, bind, await, ret.
  destruct (session_validators_at api) as [validators_at|].
  - destruct (getBlock api hash) as [block|], (system_events_at api hash) as [rs|],
      (validators_at hash) as [sv|];
      (eexists [_; _; _], _; rewrite <- !app_assoc; split; [reflexivity|];
       split; [repeat constructor|]; intros ??? [= <- <- <-] || intros ??? [=]; done).
  - destruct (getBlock api hash) as [block|], (system_events_at api hash) as [rs|];
      (eexists [_; _], _; rewrite <- !app_assoc; split; [reflexivity|];
       split; [repeat constructor|]; intros ??? [= <- <- <-] || intros ??? [=]; done).
Qed.

End Fetch.

(** ** fetchBlock *)

Section Assembly.
Variable ext : Externals.
Variable api : ApiPromise.

Lemma extractExtrinsics_length block events xd :
  length (extractExtrinsics ext block events xd) = length (Raw.extrinsics block).
Proof. unfold extractExtrinsics. apply length_map. Qed.

Lemma extractExtrinsics_lookup block evs xd idx raw :
  Raw.extrinsics block !! idx = Some raw ->
  exists e,
    extractExtrinsics ext block evs xd !! idx = Some e
    /\ signature e = (if Raw.isSigned raw
                      then Some (Raw.signature raw, Raw.signer raw) else None)
    /\ info e = InfoEmpty /\ events e = []
    /\ success e = match evs with
                   | inr message => SuccessText message
                   | inl _ => SuccessBool false
                   end
    /\ paysFee e = (if Raw.isSigned raw then None else Some false).
Proof.
  unfold extractExtrinsics. generalize (Raw.extrinsics block). intros raws.
  revert idx. induction raws as [|x raws IH]; intros [|idx] Hraw; try done.
  - injection Hraw as ->. eexists. split; [reflexivity|]. simpl. auto.
  - apply (IH idx Hraw).
Qed.

Lemma sanitizeEvents_lookup evs exts hash ed attributed :
  sanitizeEvents ext evs exts hash ed = Ok attributed ->
  length (at_extrinsics attributed) = length exts
  /\ forall idx,
       at_extrinsics attributed !! idx =
         (fun e => match evs with
                   | inl records => applyAll ext ed idx records e
                   | inr _ => e
                   end) <$> exts !! idx.
Proof.
  unfold sanitizeEvents. destruct evs as [records|message].
  - intros H. by apply attributeEvents_Ok in H.
  - intros [= <-]. simpl. split; [done|]. intros idx. by destruct (_ !! idx).
Qed.

Lemma feeLoop_Ok fee block exts t t' exts' :
  length exts = length (Raw.extrinsics block) ->
  feeLoop ext api fee block (length (Raw.extrinsics block)) 0 exts t = (t', Ok exts') ->
  exts' = zip_with (annotate ext api fee) (Raw.extrinsics block) exts.
Proof.
  intros Hlen H.
  pose proof (feeLoop_emits ext api (fun _ => True) fee block
                (length (Raw.extrinsics block)) 0 exts eq_refl Hlen
                (fun _ _ _ _ _ => I)) as Hem.
  destruct (emits_run _ _ _ _ _ _ Hem H) as [_ [= ->]].
  done.
Qed.

Lemma fetchBlock_Ok hash ed xd t t' b :
  fetchBlock ext api hash ed xd t = (t', Ok b) ->
  exists block attributed t0,
    getBlock api hash = Ok block
    /\ sanitizeEvents ext (fetched_events api hash)
         (extractExtrinsics ext block (fetched_events api hash) xd) hash ed
       = Ok attributed
    /\ (exists l, t0 = t ++ l /\ Forall (fun c => isFeeCall c = false) l)
    /\ b_parentHash b = Raw.parentHash (Raw.header block)
    /\ if isGenesisParent (Raw.parentHash (Raw.header block))
       then t' = t0 /\ b_extrinsics b = at_extrinsics attributed
       else exists fee t1,
              createCalcFee ext api (Raw.parentHash (Raw.header block)) block t0
              = (t1, Ok fee)
              /\ feeLoop ext api fee block (length (Raw.extrinsics block)) 0
                   (at_extrinsics attributed) t1 = (t', Ok (b_extrinsics b)).
Proof.
  intros H. unfold fetchBlock in H. rewrite bind_run in H.
  destruct (fetchBlock_fetch api hash t) as [t0 o] eqn:Hf.
  destruct (emits_run _ _ _ _ _ _ (fetchBlock_fetch_emits api hash) Hf)
    as [Hl Hq].
  destruct o as [[[block evs] sv]|]; [|done].
  destruct (Hq block evs sv eq_refl) as [Hb ->].
  exists block. unfold fetchBlock_assemble in H. rewrite bind_run in H.
  unfold lift in H.
  destruct (sanitizeEvents ext _ _ hash ed) as [attributed|]; [|done].
  exists attributed, t0. split; [done|]. split; [done|]. split; [done|].
  destruct (isGenesisParent _).
  - unfold ret in H. by simplify_eq.
  - rewrite bind_run in H.
    destruct (createCalcFee ext api _ block t0) as [t1 [fee|]] eqn:Hc; [|done].
    rewrite bind_run in H.
    destruct (feeLoop ext api fee block _ 0 _ t1) as [t2 [exts|]] eqn:Hloop; [|done].
    unfold ret in H. simplify_eq. simpl. eauto.
Qed.

End Assembly.

(** ** The properties of the specification *)

(** C8. In the call tree parser, an argument named [call] whose raw type is
    [Bytes] is decoded as a call by the block's registry and the parser
    recurses into the decoded call; when the decoding throws, the argument is
    passed through as it is. This holds of every parse that returns,
    whatever the decoder does and however deep the parse went. With a
    registry, whose chains of opaque calls are finite, the parse of the whole
    call does return, and what it returns is [parseGenericCall]. *)
Theorem opaque_call_decoded_or_passed_through (registry : Registry)
    (genericCall : GenericCall) (callArgs : list (string * Codec)) (i : nat)
    (u8a : list Byte.byte) :
  Codec.args genericCall = Some callArgs ->
  callArgs !! i = Some ("call", CValue "Bytes" u8a) ->
  (forall (decode : Decoder) fuel r,
     parse_fuel decode fuel genericCall = Some r ->
     match decode u8a with
     | Some call =>
         exists r', parse_fuel decode (pred fuel) call = Some r'
                    /\ sc_args r !! i = Some ("call", SCall r')
     | None => sc_args r !! i = Some ("call", SCodec (CValue "Bytes" u8a))
     end)
  /\ (forall fuel,
        call_size (rank registry) genericCall <= fuel ->
        parse_fuel (createCall registry) fuel genericCall
        = Some (parseGenericCall registry genericCall))
  /\ sc_args (parseGenericCall registry genericCall) !! i =
       Some ("call",
             match createCall registry u8a with
             | Some call => SCall (parseGenericCall registry call)
             | None => SCodec (CValue "Bytes" u8a)
             end).
Proof.
  intros Hargs Hi. split; [|split].
  - intros decode fuel r Hr.
    apply parse_fuel_Some in Hr as (m & -> & _ & Hr). rewrite Hargs in Hr.
    destruct Hr as [_ Hr]. destruct (Hr i _ _ Hi) as (v & Hv & Hlook).
    simpl in Hv. destruct (decode u8a) as [call|].
    + apply fmap_Some in Hv as (r' & Hr' & ->). eauto.
    + by injection Hv as <-.
  - intros fuel Hfuel. by apply parse_fuel_stable.
  - rewrite parseGenericCall_eq, Hargs. simpl.
    change (map ?f callArgs) with (f <$> callArgs).
    rewrite list_lookup_fmap, Hi. simpl.
    by destruct (createCall registry u8a).
Qed.

Lemma opaque_call_decoded_or_passed_through_witness :
  sc_args (parseGenericCall Sample.registry
             (Sample.asMulti [Byte.x04; Byte.x00; Byte.x07; Byte.x09])) !! 1 =
    Some ("call",
          SCall (mkSanitizedCall (mkFrameMethod "balances" "transfer")
                   [("dest", SCodec (CValue "AccountId" [Byte.x07]));
                    ("value", SCodec (CValue "Compact<Balance>" [Byte.x09]))]))
  /\ sc_args (parseGenericCall Sample.registry (Sample.asMulti [])) !! 1 =
       Some ("call",
             SCall (mkSanitizedCall (mkFrameMethod "system" "fillBlock")
                      [("ratio",
                        SCodec (CValue "Perbill"
                                  [Byte.x00; Byte.x00; Byte.x00; Byte.x00]))]))
  /\ sc_args (parseGenericCall Sample.registry (Sample.asMulti [Byte.xff])) !! 1 =
       Some ("call", SCodec (CValue "Bytes" [Byte.xff])).
Proof.
  split; [|split].
  - exact (proj2 (proj2 (opaque_call_decoded_or_passed_through Sample.registry
                           (Sample.asMulti [Byte.x04; Byte.x00; Byte.x07; Byte.x09])
                           _ 1 [Byte.x04; Byte.x00; Byte.x07; Byte.x09]
                           eq_refl eq_refl))).
  - exact (proj2 (proj2 (opaque_call_decoded_or_passed_through Sample.registry
                           (Sample.asMulti []) _ 1 [] eq_refl eq_refl))).
  - exact (proj2 (proj2 (opaque_call_decoded_or_passed_through Sample.registry
                           (Sample.asMulti [Byte.xff]) _ 1 [Byte.xff]
                           eq_refl eq_refl))).
Defined.

Section AssembledBlock.
Variable ext : Externals.
Variable api : ApiPromise.

Lemma annotate_info fee raw e :
  exists i, annotate ext api fee raw e = set_info i e
            /\ (paysFee e <> Some true -> i = info e).
Proof.
  unfold annotate. case_bool_decide as Hp; simpl.
  - destruct (Raw.isSigned raw).
    + eexists. split; [reflexivity|]. intros Hn. by destruct Hn.
    + exists (info e). by destruct e.
  - exists (info e). by destruct e.
Qed.

(** The fields of an extrinsic of the assembled block that do not depend on
    the fee loop, from the raw extrinsic and the fetched events. *)
Lemma fetchBlock_extrinsic hash ed xd t t' b :
  fetchBlock ext api hash ed xd t = (t', Ok b) ->
  exists block,
    getBlock api hash = Ok block
    /\ length (b_extrinsics b) = length (Raw.extrinsics block)
    /\ forall idx raw,
         Raw.extrinsics block !! idx = Some raw ->
         exists e0 e1 i,
           extractExtrinsics ext block (fetched_events api hash) xd !! idx = Some e0
           /\ e1 = match fetched_events api hash with
                   | inl records => applyAll ext ed idx records e0
                   | inr _ => e0
                   end
           /\ b_extrinsics b !! idx = Some (set_info i e1)
           /\ (isGenesisParent (Raw.parentHash (Raw.header block)) = true ->
               i = info e1)
           /\ (paysFee e1 <> Some true -> i = info e1).
Proof.
  intros H. apply fetchBlock_Ok in H
    as (block & attributed & t0 & Hb & Hsan & _ & _ & Hrest).
  exists block. split; [done|].
  apply sanitizeEvents_lookup in Hsan as [Hlen Hat].
  rewrite extractExtrinsics_length in Hlen.
  assert (b_extrinsics b = at_extrinsics attributed
          \/ exists fee, b_extrinsics b =
                           zip_with (annotate ext api fee) (Raw.extrinsics block)
                             (at_extrinsics attributed)) as Hexts.
  { destruct (isGenesisParent _); [left; tauto|].
    destruct Hrest as (fee & t1 & _ & Hloop). right. exists fee.
    by eapply feeLoop_Ok. }
  split.
  { destruct Hexts as [->|[fee ->]]; [done|]. rewrite length_zip_with. lia. }
  intros idx raw Hraw.
  destruct (extractExtrinsics_lookup ext block (fetched_events api hash) xd idx raw Hraw)
    as (e0 & He0 & _).
  specialize (Hat idx). rewrite He0 in Hat. simpl in Hat.
  set (e1 := match fetched_events api hash with
             | inl records => applyAll ext ed idx records e0
             | inr _ => e0
             end) in *.
  destruct (isGenesisParent _) eqn:Hg.
  - destruct Hrest as [_ ->]. exists e0, e1, (info e1).
    split; [done|]. split; [done|]. rewrite Hat.
    split; [by destruct e1|]. done.
  - destruct Hrest as (fee & t1 & _ & Hloop).
    apply feeLoop_Ok in Hloop; [|done]. rewrite Hloop.
    rewrite lookup_zip_with, Hraw, Hat. simpl.
    destruct (annotate_info fee raw e1) as (i & -> & Hi).
    exists e0, e1, i. done.
Qed.


Lemma applyAll_spec ed idx records e0 :
  exists p,
    applyAll ext ed idx records e0 =
      with_attribution
        (events e0 ++ map (fun r => sanitizedEvent ext ed (Raw.event r))
                        (List.filter (appliesTo idx) records))
        (if existsb (hasMethod Event_success) (List.filter (appliesTo idx) records)
         then SuccessBool true else success e0) p e0
    /\ (signature e0 = None -> p = paysFee e0).
Proof. apply fold_applyEvent_spec. Qed.

Lemma existsb_applied name idx records :
  existsb (hasMethod name) (List.filter (appliesTo idx) records) = true <->
  exists r i, r ∈ records /\ Raw.phase r = Raw.ApplyExtrinsic i
              /\ N.to_nat i = idx /\ Raw.ev_method (Raw.event r) = name.
Proof.
  rewrite existsb_exists. split.
  - intros (r & Hin & Hm). apply filter_In in Hin as [Hin Ha].
    unfold appliesTo in Ha. destruct (Raw.phase r) as [i| |] eqn:Hph; try done.
    apply bool_decide_eq_true in Ha. apply String.eqb_eq in Hm.
    exists r, i. by rewrite list_elem_of_In.
  - intros (r & i & Hin & Hph & Hi & Hm). exists r. split.
    + apply filter_In. rewrite <- list_elem_of_In. split; [done|].
      unfold appliesTo. rewrite Hph. by apply bool_decide_eq_true.
    + by apply String.eqb_eq.
Qed.

(** C1, as amended. When the events were fetched, an extrinsic of the
    assembled block carries the events of phase [ApplyExtrinsic] at its
    index, its [success] is [true] exactly when one of them is
    [ExtrinsicSuccess], and [false] otherwise, whether an [ExtrinsicFailed]
    event was attributed to it or not. *)
Theorem success_iff_success_event hash ed xd t t' b records :
  system_events_at api hash = Ok records ->
  fetchBlock ext api hash ed xd t = (t', Ok b) ->
  forall idx e,
    b_extrinsics b !! idx = Some e ->
    events e = map (fun r => sanitizedEvent ext ed (Raw.event r))
                 (List.filter (appliesTo idx) records)
    /\ (success e = SuccessBool true <->
        exists r i, r ∈ records /\ Raw.phase r = Raw.ApplyExtrinsic i
                    /\ N.to_nat i = idx
                    /\ Raw.ev_method (Raw.event r) = Event_success)
    /\ (success e <> SuccessBool true -> success e = SuccessBool false).
Proof.
  intros Hev H idx e He.
  apply fetchBlock_extrinsic in H as (block & _ & Hlen & Hall).
  destruct (lookup_lt_is_Some_2 (Raw.extrinsics block) idx) as [raw Hraw].
  { rewrite <- Hlen. by eapply lookup_lt_Some. }
  destruct (Hall idx raw Hraw) as (e0 & e1 & i & He0 & He1 & Hb & _).
  unfold fetched_events in He0, He1. rewrite Hev in He0, He1.
  destruct (extractExtrinsics_lookup ext block (inl records) xd idx raw Hraw)
    as (e0' & He0' & _ & _ & Hevs & Hsucc & _).
  rewrite He0 in He0'. injection He0' as <-.
  destruct (applyAll_spec ed idx records e0) as (p & Happ & _).
  rewrite Hb in He. injection He as <-. rewrite He1, Happ. simpl.
  rewrite Hevs, Hsucc. simpl. split; [done|].
  rewrite <- existsb_applied.
  destruct (existsb _ _); (split; [|done]); split; try done.
Qed.

(** C5. An unsigned extrinsic of an assembled block has [paysFee = false],
    whatever events were attributed to it. *)
Theorem unsigned_never_pays_fee hash ed xd t t' b :
  fetchBlock ext api hash ed xd t = (t', Ok b) ->
  exists block,
    getBlock api hash = Ok block
    /\ forall idx raw,
         Raw.extrinsics block !! idx = Some raw ->
         Raw.isSigned raw = false ->
         exists e, b_extrinsics b !! idx = Some e
                   /\ signature e = None /\ paysFee e = Some false.
Proof.
  intros H.
  apply fetchBlock_extrinsic in H as (block & Hb & Hlen & Hall).
  exists block. split; [done|]. intros idx raw Hraw Hunsigned.
  destruct (Hall idx raw Hraw) as (e0 & e1 & i & He0 & He1 & Hlook & _).
  destruct (extractExtrinsics_lookup ext block (fetched_events api hash) xd idx raw Hraw)
    as (e0' & He0' & Hsig & _ & _ & _ & Hpays).
  rewrite He0 in He0'. injection He0' as <-.
  rewrite Hunsigned in Hsig, Hpays.
  exists (set_info i e1). split; [done|]. simpl.
  destruct (fetched_events api hash) as [records|message]; subst e1; [|done].
  destruct (applyAll_spec ed idx records e0) as (p & -> & Hp). simpl.
  rewrite Hp by done. done.
Qed.


(** C6. Attribution throws exactly when some event is in phase
    [ApplyExtrinsic(i)] with [i] not below the number of extrinsics; the
    error is [Missing extrinsic i in block <hash>]; an event whose index is
    in range never throws; and with such an event in the fetched stream no
    block is assembled. *)
Theorem out_of_range_event_is_fatal hash ed records exts :
  ((exists r i, r ∈ records /\ Raw.phase r = Raw.ApplyExtrinsic i
                /\ length exts <= N.to_nat i)
   <-> exists err, sanitizeEvents ext (inl records) exts hash ed = Throw err)
  /\ (forall err,
        sanitizeEvents ext (inl records) exts hash ed = Throw err ->
        exists i, length exts <= N.to_nat i
                  /\ err = Error ("Missing extrinsic " +:+ pretty i
                                  +:+ " in block " +:+ u8aToHex hash))
  /\ (forall record acc i,
        Raw.phase record = Raw.ApplyExtrinsic i ->
        N.to_nat i < length (at_extrinsics acc) ->
        exists acc', attributeEvent ext hash ed record acc = Ok acc')
  /\ (forall t xd block,
        getBlock api hash = Ok block ->
        system_events_at api hash = Ok records ->
        (exists r i, r ∈ records /\ Raw.phase r = Raw.ApplyExtrinsic i
                     /\ length (Raw.extrinsics block) <= N.to_nat i) ->
        exists t' err, fetchBlock ext api hash ed xd t = (t', Throw err)).
Proof.
  repeat split.
  - intros (r & i & Hin & Hph & Hle). simpl.
    destruct (attributeEvents ext hash ed records (mkAttributed exts [] []))
      as [acc|err] eqn:Hrun; [|eauto].
    pose proof (attributeEvents_in_range ext hash ed records _ _ Hrun r i Hin Hph)
      as Hlt. simpl in Hlt. lia.
  - intros [err Hrun]. simpl in Hrun.
    apply attributeEvents_Throw in Hrun as (r & i & Hin & Hph & Hle & _). eauto.
  - intros err Hrun. simpl in Hrun.
    apply attributeEvents_Throw in Hrun as (r & i & Hin & Hph & Hle & ->). eauto.
  - intros record acc i Hph Hlt. unfold attributeEvent. rewrite Hph.
    destruct (lookup_lt_is_Some_2 (at_extrinsics acc) (N.to_nat i) Hlt) as [x ->].
    eauto.
  - intros t xd block Hb Hev (r & i & Hin & Hph & Hle).
    destruct (fetchBlock ext api hash ed xd t) as [t' [b|err]] eqn:Hrun; [|eauto].
    exfalso. apply fetchBlock_Ok in Hrun
      as (block' & attributed & t0 & Hb' & Hsan & _).
    rewrite Hb in Hb'. injection Hb' as <-.
    unfold fetched_events in Hsan. rewrite Hev in Hsan. simpl in Hsan.
    pose proof (attributeEvents_in_range ext hash ed records _ _ Hsan r i Hin Hph)
      as Hlt. simpl in Hlt. rewrite extractExtrinsics_length in Hlt. lia.
Qed.

Lemma fetchBlock_genesis_emits hash ed xd block :
  getBlock api hash = Ok block ->
  isGenesisParent (Raw.parentHash (Raw.header block)) = true ->
  emits (fun c => isFeeCall c = false) (fun _ => True)
    (fetchBlock ext api hash ed xd).
Proof.
  intros Hb Hg. unfold fetchBlock.
  eapply emits_bind; [apply fetchBlock_fetch_emits| |done].
  intros [[block' evs] sv] Hq. destruct (Hq _ _ _ eq_refl) as [Hb' _].
  rewrite Hb in Hb'. injection Hb' as <-.
  unfold fetchBlock_assemble.
  eapply (emits_bind _ (fun _ => True)); [by apply emits_lift| |done].
  intros attributed _. rewrite Hg. by apply emits_ret.
Qed.

Lemma fetchBlock_fetch_Ok hash block t :
  getBlock api hash = Ok block ->
  (forall validators_at,
     session_validators_at api = Some validators_at ->
     exists sv, validators_at hash = Ok sv) ->
  exists t0 sv,
    fetchBlock_fetch api hash t = (t0, Ok (block, fetched_events api hash, sv)).
Proof.
  intros Hb Hsv. unfold fetchBlock_fetch, fetched_events, fetchEvents.
  unfold mbind, M_bind, bind, promise_all2, try_catch, fmap, M_fmap, bind, await, ret.
  rewrite Hb. destruct (session_validators_at api) as [validators_at|].
  - destruct (Hsv validators_at eq_refl) as [sv ->].
    destruct (system_events_at api hash); eauto.
  - destruct (system_events_at api hash); eauto.
Qed.

(** C4. For a block whose parent hash is all zero, the assembly makes no call
    of the fee calculator, whether it ends well or not; what it returns is
    the record as event attribution left it, with every [info] empty; and it
    does return as soon as the fetches and the attribution went through,
    whatever the fee calculator would have done. *)
Theorem genesis_block_has_no_fee_info hash ed xd block t t' out :
  getBlock api hash = Ok block ->
  isGenesisParent (Raw.parentHash (Raw.header block)) = true ->
  fetchBlock ext api hash ed xd t = (t', out) ->
  (exists calls, t' = t ++ calls /\ Forall (fun c => isFeeCall c = false) calls)
  /\ (forall b,
        out = Ok b ->
        (forall e, e ∈ b_extrinsics b -> info e = InfoEmpty)
        /\ exists attributed,
             sanitizeEvents ext (fetched_events api hash)
               (extractExtrinsics ext block (fetched_events api hash) xd) hash ed
             = Ok attributed
             /\ b_extrinsics b = at_extrinsics attributed
             /\ b_onInitialize b = at_onInitialize attributed
             /\ b_onFinalize b = at_onFinalize attributed)
  /\ (forall attributed,
        sanitizeEvents ext (fetched_events api hash)
          (extractExtrinsics ext block (fetched_events api hash) xd) hash ed
        = Ok attributed ->
        (forall validators_at,
           session_validators_at api = Some validators_at ->
           exists sv, validators_at hash = Ok sv) ->
        exists b, out = Ok b).
Proof.
  intros Hb Hg Hrun. split; [|split].
  - by destruct (emits_run _ _ _ _ _ _
                   (fetchBlock_genesis_emits hash ed xd block Hb Hg) Hrun).
  - intros b ->. split.
    + intros e He. apply list_elem_of_lookup in He as [idx He].
      apply fetchBlock_extrinsic in Hrun as (block' & Hb' & Hlen & Hall).
      rewrite Hb in Hb'. injection Hb' as <-.
      destruct (lookup_lt_is_Some_2 (Raw.extrinsics block) idx) as [raw Hraw].
      { rewrite <- Hlen. by eapply lookup_lt_Some. }
      destruct (Hall idx raw Hraw) as (e0 & e1 & i & He0 & He1 & Hlook & Hi & _).
      rewrite Hlook in He. injection He as <-. simpl. rewrite (Hi Hg).
      destruct (extractExtrinsics_lookup ext block (fetched_events api hash)
                  xd idx raw Hraw) as (e0' & He0' & _ & Hinfo & _).
      rewrite He0 in He0'. injection He0' as <-.
      destruct (fetched_events api hash) as [records|message]; subst e1; [|done].
      by destruct (applyAll_spec ed idx records e0) as (p & -> & _).
    + unfold fetchBlock in Hrun. rewrite bind_run in Hrun.
      destruct (fetchBlock_fetch api hash t) as [t0 o] eqn:Hf.
      destruct (emits_run _ _ _ _ _ _ (fetchBlock_fetch_emits api hash) Hf)
        as [_ Hq].
      destruct o as [[[block' evs] sv]|]; [|done].
      destruct (Hq _ _ _ eq_refl) as [Hb' ->].
      rewrite Hb in Hb'. injection Hb' as <-.
      unfold fetchBlock_assemble in Hrun. rewrite bind_run in Hrun.
      unfold lift in Hrun.
      destruct (sanitizeEvents ext _ _ hash ed) as [attributed|]; [|done].
      rewrite Hg in Hrun. unfold ret in Hrun. injection Hrun as <- <-.
      by exists attributed.
  - intros attributed Hsan Hsv.
    destruct (fetchBlock_fetch_Ok hash block t Hb Hsv) as (t0 & sv & Hf).
    unfold fetchBlock in Hrun. rewrite bind_run, Hf in Hrun.
    unfold fetchBlock_assemble in Hrun. rewrite bind_run in Hrun.
    unfold lift in Hrun. rewrite Hsan, Hg in Hrun. unfold ret in Hrun.
    injection Hrun as <- <-. eauto.
Qed.

(** C10. When the events cannot be fetched, every extrinsic of the assembled
    block keeps the [paysFee] it was given at extraction ([null] if signed,
    [false] if not), an empty [info], no events, and the message as its
    [success]; [calc_fee] is never called. *)
Theorem degraded_events_skip_fee_computation hash ed xd t t' b err :
  system_events_at api hash = Throw err ->
  fetchBlock ext api hash ed xd t = (t', Ok b) ->
  exists block,
    getBlock api hash = Ok block
    /\ length (b_extrinsics b) = length (Raw.extrinsics block)
    /\ (forall idx raw,
          Raw.extrinsics block !! idx = Some raw ->
          exists e, b_extrinsics b !! idx = Some e
                    /\ info e = InfoEmpty
                    /\ paysFee e = (if Raw.isSigned raw then None else Some false)
                    /\ success e = SuccessText fetchEvents_message
                    /\ events e = [])
    /\ exists calls, t' = t ++ calls
                     /\ Forall (fun c => isCalcFeeCall c = false) calls.
Proof.
  intros Hev Hrun.
  assert (fetched_events api hash = inr fetchEvents_message) as Hfe.
  { unfold fetched_events. by rewrite Hev. }
  pose proof Hrun as Hrun'.
  apply fetchBlock_extrinsic in Hrun' as (block & Hb & Hlen & Hall).
  exists block. split; [done|]. split; [done|].
  assert (forall idx raw, Raw.extrinsics block !! idx = Some raw ->
            exists e0, extractExtrinsics ext block (inr fetchEvents_message) xd !! idx
                       = Some e0
                       /\ info e0 = InfoEmpty
                       /\ paysFee e0 = (if Raw.isSigned raw then None else Some false)
                       /\ success e0 = SuccessText fetchEvents_message
                       /\ events e0 = []) as Hextract.
  { intros idx raw Hraw.
    destruct (extractExtrinsics_lookup ext block (inr fetchEvents_message) xd idx raw Hraw)
      as (e0 & He0 & _ & Hinfo & Hevs & Hsucc & Hpays). eauto 10. }
  split.
  - intros idx raw Hraw.
    destruct (Hall idx raw Hraw) as (e0 & e1 & i & He0 & He1 & Hlook & _ & Hi).
    rewrite Hfe in He0, He1. subst e1.
    destruct (Hextract idx raw Hraw) as (e0' & He0' & Hinfo & Hpays & Hsucc & Hevs).
    rewrite He0 in He0'. injection He0' as <-.
    exists (set_info i e0). split; [done|]. simpl.
    rewrite Hi; [done|]. rewrite Hpays. by destruct (Raw.isSigned raw).
  - apply fetchBlock_Ok in Hrun
      as (block' & attributed & t0 & Hb' & Hsan & (l0 & -> & Hl0) & _ & Hrest).
    rewrite Hb in Hb'. injection Hb' as <-.
    assert (Forall (fun c => isCalcFeeCall c = false) l0) as Hl0'.
    { eapply Forall_impl; [exact Hl0|]. by intros []. }
    destruct (isGenesisParent _).
    { destruct Hrest as [-> _]. eauto. }
    destruct Hrest as (fee & t1 & Hc & Hloop).
    destruct (emits_run _ _ _ _ _ _ (createCalcFee_emits ext api _ block) Hc)
      as [(l1 & -> & Hl1) _].
    rewrite Hfe in Hsan. simpl in Hsan. injection Hsan as <-. simpl in Hloop.
    assert (Forall (fun e => paysFee e <> Some true)
              (extractExtrinsics ext block (inr fetchEvents_message) xd)) as Hidle.
    { apply Forall_lookup. intros idx e He.
      destruct (lookup_lt_is_Some_2 (Raw.extrinsics block) idx) as [raw Hraw].
      { rewrite <- (extractExtrinsics_length ext block (inr fetchEvents_message) xd).
        by eapply lookup_lt_Some. }
      destruct (Hextract idx raw Hraw) as (e0 & He0 & _ & Hpays & _).
      rewrite He in He0. injection He0 as <-. rewrite Hpays.
      by destruct (Raw.isSigned raw). }
    pose proof (feeLoop_idle ext api fee block (length (Raw.extrinsics block)) 0
                  _ eq_refl (extractExtrinsics_length ext block _ xd) Hidle) as Hem.
    destruct (emits_run _ _ _ _ _ _ Hem Hloop) as [(l2 & -> & Hl2) _].
    exists (l0 ++ l1 ++ l2). rewrite !app_assoc. split; [done|].
    rewrite !Forall_app. repeat split; try done.
    eapply Forall_impl; [exact Hl2|]. done.
Qed.

End AssembledBlock.

Section FeeCalculator.
Variable ext : Externals.
Variable api : ApiPromise.

(** C3. On the supported path of [createCalcFee] (the calculator returned is
    not the dummy), the runtime version is asked at one hash only: the parent
    of the parent when the height is above 1, the parent otherwise. The
    [specName] and [specVersion] returned, and given to
    [CalcFee.from_params], are those of that answer. *)
Theorem version_resolved_at_grandparent parentHash block t t' r :
  createCalcFee ext api parentHash block t = (t', Ok r) ->
  r_calcFee r <> Some DummyCalcFee ->
  exists pph v calls,
    ((1 < Raw.number (Raw.header block))%N ->
     exists hdr, getHeader api parentHash = Ok hdr /\ pph = Raw.parentHash hdr)
    /\ ((Raw.number (Raw.header block) <= 1)%N -> pph = parentHash)
    /\ getRuntimeVersion api pph = Ok v
    /\ r_specName r = OfStr (specName v)
    /\ r_specVersion r = OfNum (specVersion v)
    /\ t' = t ++ calls
    /\ rpc_state_getRuntimeVersion pph ∈ calls
    /\ (forall h, rpc_state_getRuntimeVersion h ∈ calls -> h = pph)
    /\ (forall p, CalcFee_from_params p ∈ calls ->
                  fp_specName p = OfStr (specName v)
                  /\ fp_specVersion p = OfNum (specVersion v)).
Proof.
  intros H Hnd.
  destruct (createCalcFee_supported ext api parentHash block t t' r H Hnd)
    as (perByte & pph & v & mult & bw & coeffs & h & _ & Hpph & Hv & _ & -> & ->).
  eexists pph, v, _.
  split. { intros Hlt. apply N.ltb_lt in Hlt. by rewrite Hlt in Hpph. }
  split. { intros Hle. apply N.ltb_ge in Hle. by rewrite Hle in Hpph. }
  do 4 (split; [done|]).
  split. { rewrite !elem_of_app, !elem_of_cons. auto. }
  split.
  - intros h'. clear Hpph.
    destruct (1 <? _)%N, (versionDiffers api v);
      rewrite !elem_of_app, ?elem_of_cons, ?elem_of_nil; intuition (simplify_eq; done).
  - intros p. clear Hpph.
    destruct (1 <? _)%N, (versionDiffers api v);
      rewrite !elem_of_app, ?elem_of_cons, ?elem_of_nil; intuition (simplify_eq; done).
Qed.

(** C9. On the supported path of [createCalcFee], the per-byte fee given to
    [CalcFee.from_params] is "1000000000" for a block below height 515500,
    and the decimal string of [transactionPayment.transactionByteFee] from
    that height on. *)
Theorem historical_per_byte_fee parentHash block t t' r :
  createCalcFee ext api parentHash block t = (t', Ok r) ->
  r_calcFee r <> Some DummyCalcFee ->
  exists perByte p calls h,
    perByte_const api = Some perByte
    /\ t' = t ++ calls
    /\ CalcFee_from_params p ∈ calls
    /\ (forall p', CalcFee_from_params p' ∈ calls -> p' = p)
    /\ from_params ext p = Ok h
    /\ r_calcFee r = WasmCalcFee <$> h
    /\ ((Raw.number (Raw.header block) < 515500)%N ->
        fp_perByteFee p = "1000000000")
    /\ ((515500 <= Raw.number (Raw.header block))%N ->
        fp_perByteFee p = pretty perByte).
Proof.
  intros H Hnd.
  destruct (createCalcFee_supported ext api parentHash block t t' r H Hnd)
    as (perByte & pph & v & mult & bw & coeffs & h & Hpb & _ & _ & Hfp & -> & ->).
  eexists perByte, _, _, h.
  do 2 (split; [done|]).
  split. { rewrite !elem_of_app, !elem_of_cons. auto 10. }
  split.
  { intros p'. destruct (1 <? _)%N, (versionDiffers api v);
      rewrite !elem_of_app, ?elem_of_cons, ?elem_of_nil; intuition (simplify_eq; done). }
  do 2 (split; [done|]).
  unfold historical_height, historical_perByte. simpl. split.
  - intros Hlt. apply N.ltb_lt in Hlt. by rewrite Hlt.
  - intros Hle. apply N.ltb_ge in Hle. by rewrite Hle.
Qed.


Lemma feeInfo_outcome_dummy raw e i :
  feeInfo_outcome ext api DummyCalcFee raw e = Ok i ->
  i = InfoError "Unable to find success or failure event for extrinsic"
  \/ i = InfoError "Success or failure event for extrinsic does not specify weight"
  \/ exists w c rdi,
       createType_RuntimeDispatchInfo api w c None = Ok rdi
       /\ i = InfoDispatch rdi.
Proof.
  unfold feeInfo_outcome, feeInfo.
  destruct (List.find (isCompleted ext) (events e)) as [ev|]; simpl.
  2:{ intros [= <-]. auto. }
  destruct (last (se_data ev)) as [weightInfo|]; simpl; [|done].
  unfold mbind, M_bind, bind at 1. unfold ret at 1.
  destruct (Raw.weight weightInfo) as [w|]; simpl.
  2:{ intros [= <-]. auto. }
  unfold bind, ret, fmap, M_fmap, bind, lift, ret.
  destruct (createType_RuntimeDispatchInfo api w (Raw.class weightInfo) None)
    as [rdi|] eqn:Hc; simpl; [|done].
  intros [= <-]. right. right. eauto.
Qed.

Lemma unsupported_message_not_other sn sv s :
  s = "Unable to find success or failure event for extrinsic"
  \/ s = "Success or failure event for extrinsic does not specify weight"
  \/ s = "Unable to fetch fee info" ->
  s <> unsupported_message sn sv.
Proof. unfold unsupported_message. intros [-> | [-> | ->]]; simpl; discriminate. Qed.

(** Where the base weight is there, the lookup at the head of
    [createCalcFee] finds it. *)
Lemma extrinsicBaseWeightExists_lacking :
  baseWeightOf (consts api) = None ->
  (exists e, snd (extrinsicBaseWeightExists api []) = Throw e)
  \/ snd (extrinsicBaseWeightExists api []) = Ok None.
Proof.
  unfold baseWeightOf, extrinsicBaseWeightExists.
  unfold mbind, M_bind, bind, prop_of, ret, throw.
  destruct (system (consts api)) as [sys|]; simpl; [|eauto].
  destruct (extrinsicBaseWeight sys) as [w|]; simpl; [done|].
  destruct (blockWeights sys) as [bw|]; simpl; [|eauto].
  destruct (perClass bw) as [pc|]; simpl; [|eauto].
  destruct (normal pc) as [nm|]; simpl; [|eauto].
  intros ->. by right.
Qed.

(** When one of the three materials of the specification is lacking, a
    [createCalcFee] that returns has taken the branch of the dummy
    calculator. *)
Lemma createCalcFee_lacking parentHash block t t' r :
  (tp ← transactionPayment (consts api); weightToFee tp) = None
  \/ baseWeightOf (consts api) = None
  \/ nextFeeMultiplier_at api = None ->
  createCalcFee ext api parentHash block t = (t', Ok r) ->
  exists v,
    getRuntimeVersion api parentHash = Ok v
    /\ r = mkCalcFeeResult (Some DummyCalcFee) (OfNum (specVersion v))
             (OfStr (specName v))
    /\ t' = t ++ [rpc_state_getRuntimeVersion parentHash].
Proof.
  intros Hlack H.
  destruct (perByte_const api) as [perByte|] eqn:Hpb.
  2:{ eapply createCalcFee_unsupported; [|exact H]. by left. }
  destruct (nextFeeMultiplier_at api) as [mult_at|] eqn:Hm.
  2:{ eapply createCalcFee_unsupported; [|exact H]. by right; left. }
  destruct (snd (extrinsicBaseWeightExists api [])) as [[bw|]|e] eqn:Hbwe.
  2:{ eapply createCalcFee_unsupported; [|exact H]. by right; right. }
  2:{ unfold createCalcFee in H.
      rewrite (bind_silent _ _ _ (extrinsicBaseWeightExists_silent api)) in H.
      by rewrite Hbwe in H. }
  exfalso. destruct Hlack as [Hw | [Hbw | Hmult]]; [| |done].
  - unfold createCalcFee in H.
    rewrite (bind_silent _ _ _ (extrinsicBaseWeightExists_silent api)) in H.
    rewrite Hbwe, Hpb, Hm in H.
    destruct (transactionPayment (consts api)) as [tp|]; [|done].
    simpl in H, Hw. rewrite bind_run in H. unfold ret at 1 in H.
    by rewrite Hw in H.
  - destruct (extrinsicBaseWeightExists_lacking Hbw) as [[e He]|He];
      rewrite Hbwe in He; done.
Qed.

(** C2, as amended. When the runtime lacks the weight-to-fee constant, the
    base extrinsic weight constant or the fee multiplier query, and
    [fetchBlock] returns a block that is not the genesis block (it may
    instead reject, where reading an absent constant throws), then
    [createCalcFee] has handed out the dummy calculator: the wasm calculator
    is never called, no "Fee calculation not supported" error is recorded,
    and a signed extrinsic with [paysFee = true] gets either one of the three
    errors of the ordinary path or a [RuntimeDispatchInfo] created with a
    [null] partial fee. *)
Theorem missing_fee_materials_use_dummy_calculator hash ed xd t t' b :
  (tp ← transactionPayment (consts api); weightToFee tp) = None
  \/ baseWeightOf (consts api) = None
  \/ nextFeeMultiplier_at api = None ->
  fetchBlock ext api hash ed xd t = (t', Ok b) ->
  isGenesisParent (b_parentHash b) = false ->
  (exists calls, t' = t ++ calls /\ Forall (fun c => isWasmCall c = false) calls)
  /\ exists block,
       getBlock api hash = Ok block
       /\ forall idx raw e,
            Raw.extrinsics block !! idx = Some raw ->
            b_extrinsics b !! idx = Some e ->
            Raw.isSigned raw = true ->
            paysFee e = Some true ->
            (forall sn sv, info e <> InfoError (unsupported_message sn sv))
            /\ (info e = InfoError "Unable to find success or failure event for extrinsic"
                \/ info e = InfoError "Success or failure event for extrinsic does not specify weight"
                \/ info e = InfoError "Unable to fetch fee info"
                \/ exists w c rdi,
                     createType_RuntimeDispatchInfo api w c None = Ok rdi
                     /\ info e = InfoDispatch rdi).
Proof.
  intros Hmiss Hrun Hng.
  apply fetchBlock_Ok in Hrun
    as (block & attributed & t0 & Hb & Hsan & (l0 & -> & Hl0) & Hpar & Hrest).
  rewrite Hpar in Hng. rewrite Hng in Hrest.
  destruct Hrest as (fee & t1 & Hc & Hloop).
  apply (createCalcFee_lacking _ block _ _ _ Hmiss) in Hc
    as (v & _ & -> & ->).
  apply sanitizeEvents_lookup in Hsan as [Hlen _].
  rewrite extractExtrinsics_length in Hlen.
  split.
  - pose proof (feeLoop_emits ext api (fun c => isWasmCall c = false)
                  (mkCalcFeeResult (Some DummyCalcFee) (OfNum (specVersion v))
                     (OfStr (specName v)))
                  block (length (Raw.extrinsics block)) 0 _ eq_refl Hlen) as Hem.
    destruct (emits_run _ _ _ _ _ _ (Hem ltac:(done)) Hloop)
      as [(l2 & -> & Hl2) _].
    exists (l0 ++ [rpc_state_getRuntimeVersion (Raw.parentHash (Raw.header block))]
            ++ l2).
    rewrite !app_assoc. split; [done|]. rewrite !Forall_app.
    split; [split|done].
    + eapply Forall_impl; [exact Hl0|]. by intros [].
    + by repeat constructor.
  - exists block. split; [done|]. intros idx raw e Hraw He Hsigned Hpays.
    apply feeLoop_Ok in Hloop; [|done]. rewrite Hloop in He.
    rewrite lookup_zip_with, Hraw in He. simpl in He.
    destruct (at_extrinsics attributed !! idx) as [e1|]; [|done].
    injection He as <-.
    rewrite annotate_paysFee in Hpays.
    assert (info (annotate ext api
                    (mkCalcFeeResult (Some DummyCalcFee) (OfNum (specVersion v))
                       (OfStr (specName v))) raw e1)
            = match feeInfo_outcome ext api DummyCalcFee raw e1 with
              | Ok i => i
              | Throw _ => InfoError "Unable to fetch fee info"
              end) as ->.
    { unfold annotate. rewrite Hsigned, bool_decide_true by done. done. }
    assert (forall i, (i = InfoError "Unable to find success or failure event for extrinsic"
                \/ i = InfoError "Success or failure event for extrinsic does not specify weight"
                \/ i = InfoError "Unable to fetch fee info"
                \/ exists w c rdi,
                     createType_RuntimeDispatchInfo api w c None = Ok rdi
                     /\ i = InfoDispatch rdi) ->
              forall sn sv, i <> InfoError (unsupported_message sn sv)) as Hne.
    { intros i [-> | [-> | [-> | (w & c & rdi & _ & ->)]]] sn sv; try done;
        intros [= Heq]; revert Heq; apply unsupported_message_not_other; auto. }
    assert (match feeInfo_outcome ext api DummyCalcFee raw e1 with
            | Ok i => i
            | Throw _ => InfoError "Unable to fetch fee info"
            end = InfoError "Unable to find success or failure event for extrinsic"
            \/ match feeInfo_outcome ext api DummyCalcFee raw e1 with
               | Ok i => i
               | Throw _ => InfoError "Unable to fetch fee info"
               end = InfoError "Success or failure event for extrinsic does not specify weight"
            \/ match feeInfo_outcome ext api DummyCalcFee raw e1 with
               | Ok i => i
               | Throw _ => InfoError "Unable to fetch fee info"
               end = InfoError "Unable to fetch fee info"
            \/ exists w c rdi,
                 createType_RuntimeDispatchInfo api w c None = Ok rdi
                 /\ match feeInfo_outcome ext api DummyCalcFee raw e1 with
                    | Ok i => i
                    | Throw _ => InfoError "Unable to fetch fee info"
                    end = InfoDispatch rdi) as Hcases.
    { destruct (feeInfo_outcome ext api DummyCalcFee raw e1) as [i|] eqn:Ho; [|auto].
      destruct (feeInfo_outcome_dummy raw e1 i Ho) as [-> | [-> | H]]; auto. }
    split; [by apply Hne|exact Hcases].
Qed.

(** C7. Given a calculator, the fee loop always ends with a result, of the
    same length, in which only [info] fields differ. A fee computation that
    throws leaves [{ error: 'Unable to fetch fee info' }] on its own
    extrinsic. What the loop leaves at an index depends on the extrinsic at
    that index alone. The block is then assembled and returned. *)
Theorem fee_errors_stay_on_their_extrinsic fee block exts t :
  length exts = length (Raw.extrinsics block) ->
  exists t' exts',
    feeLoop ext api fee block (length (Raw.extrinsics block)) 0 exts t
    = (t', Ok exts')
    /\ length exts' = length exts
    /\ (forall idx e, exts !! idx = Some e ->
                      exists i, exts' !! idx = Some (set_info i e))
    /\ (forall idx e raw calcFee t0 t1 err,
          exts !! idx = Some e ->
          Raw.extrinsics block !! idx = Some raw ->
          paysFee e = Some true ->
          Raw.isSigned raw = true ->
          r_calcFee fee = Some calcFee ->
          feeInfo ext api calcFee raw e t0 = (t1, Throw err) ->
          exts' !! idx = Some (set_info (InfoError "Unable to fetch fee info") e))
    /\ (forall exts2 t2 idx,
          length exts2 = length (Raw.extrinsics block) ->
          exts2 !! idx = exts !! idx ->
          exists t2' exts2',
            feeLoop ext api fee block (length (Raw.extrinsics block)) 0 exts2 t2
            = (t2', Ok exts2')
            /\ exts2' !! idx = exts' !! idx)
    /\ (forall hash ed xd evs sv attributed t0,
          sanitizeEvents ext evs (extractExtrinsics ext block evs xd) hash ed
          = Ok attributed ->
          at_extrinsics attributed = exts ->
          isGenesisParent (Raw.parentHash (Raw.header block)) = false ->
          createCalcFee ext api (Raw.parentHash (Raw.header block)) block t0
          = (t, Ok fee) ->
          exists b, fetchBlock_assemble ext api hash ed xd block evs sv t0
                    = (t', Ok b)
                    /\ b_extrinsics b = exts').
Proof.
  intros Hlen.
  assert (forall exts2 t2, length exts2 = length (Raw.extrinsics block) ->
            exists t2',
              feeLoop ext api fee block (length (Raw.extrinsics block)) 0 exts2 t2
              = (t2', Ok (zip_with (annotate ext api fee) (Raw.extrinsics block) exts2)))
    as Hloop.
  { intros exts2 t2 Hlen2.
    destruct (feeLoop_emits ext api (fun _ => True) fee block
                (length (Raw.extrinsics block)) 0 exts2 eq_refl Hlen2
                (fun _ _ _ _ _ => I) t2) as (l & r & Hrun & _ & ->).
    by exists (t2 ++ l). }
  destruct (Hloop exts t Hlen) as [t' Hrun].
  exists t', (zip_with (annotate ext api fee) (Raw.extrinsics block) exts).
  split; [done|]. split; [rewrite length_zip_with; lia|].
  split; [|split; [|split]].
  - intros idx e He.
    destruct (lookup_lt_is_Some_2 (Raw.extrinsics block) idx) as [raw Hraw].
    { rewrite <- Hlen. by eapply lookup_lt_Some. }
    rewrite lookup_zip_with, Hraw, He. simpl.
    destruct (annotate_set_info ext api fee raw e) as [i ->]. eauto.
  - intros idx e raw calcFee t0 t1 err He Hraw Hpays Hsigned Hc Hthrow.
    rewrite lookup_zip_with, Hraw, He. simpl. f_equal.
    unfold annotate. rewrite Hsigned, bool_decide_true, Hc by done. simpl.
    by rewrite (feeInfo_Throw ext api calcFee raw e t0 t1 err Hthrow).
  - intros exts2 t2 idx Hlen2 Hsame.
    destruct (Hloop exts2 t2 Hlen2) as [t2' Hrun2].
    eexists t2', _. split; [exact Hrun2|]. by rewrite !lookup_zip_with, Hsame.
  - intros hash ed xd evs sv attributed t0 Hsan Hat Hng Hc.
    eexists. unfold fetchBlock_assemble. rewrite bind_run. unfold lift.
    rewrite Hsan, Hng, bind_run, Hc, bind_run, Hat, Hrun. unfold ret.
    split; reflexivity.
Qed.

End FeeCalculator.

(** ** The properties on the sample chain *)

(** C1 fails as stated: with the events fetched, [timestamp.set] of the
    sample block has [success = false] though no [ExtrinsicFailed] event is
    in its phase. *)
Lemma success_false_without_failed_event :
  exists t' b e,
    fetchBlock Sample.externals
      (Sample.api Sample.hashParent 10 (Ok [Sample.successEvent 1]))
      Sample.hashA false false [] = (t', Ok b)
    /\ b_extrinsics b !! 0 = Some e
    /\ ~ (success e = SuccessBool false <->
          exists r i, r ∈ [Sample.successEvent 1]
                      /\ Raw.phase r = Raw.ApplyExtrinsic i /\ N.to_nat i = 0
                      /\ Raw.ev_method (Raw.event r) = Event_failure).
Proof.
  eexists _, _, _. split; [vm_compute; reflexivity|]. split; [reflexivity|].
  intros [H _]. destruct (H eq_refl) as (r & i & Hin & _ & _ & Hm).
  apply list_elem_of_singleton in Hin. subst r. discriminate Hm.
Qed.

Lemma success_iff_success_event_witness :
  exists t' b e,
    fetchBlock Sample.externals
      (Sample.api Sample.hashParent 10
         (Ok [Sample.failedEvent 0; Sample.successEvent 1]))
      Sample.hashA false false [] = (t', Ok b)
    /\ b_extrinsics b !! 1 = Some e
    /\ (success e = SuccessBool true <->
        exists r i, r ∈ [Sample.failedEvent 0; Sample.successEvent 1]
                    /\ Raw.phase r = Raw.ApplyExtrinsic i /\ N.to_nat i = 1
                    /\ Raw.ev_method (Raw.event r) = Event_success).
Proof.
  eexists _, _, _. split; [vm_compute; reflexivity|]. split; [reflexivity|].
  exact (proj1 (proj2
           (success_iff_success_event Sample.externals
              (Sample.api Sample.hashParent 10
                 (Ok [Sample.failedEvent 0; Sample.successEvent 1]))
              Sample.hashA false false [] _ _ _ eq_refl eq_refl 1 _ eq_refl))).
Defined.

(** C2 fails as stated: without [nextFeeMultiplier], the signed, paying
    [balances.transfer] of the sample block gets a [RuntimeDispatchInfo], not
    the "Fee calculation not supported" error. *)
Lemma missing_multiplier_records_no_unsupported_error :
  nextFeeMultiplier_at
    (Sample.apiNoMultiplier Sample.hashParent 10 (Ok [Sample.successEvent 1]))
  = None
  /\ exists t' b e,
       fetchBlock Sample.externals
         (Sample.apiNoMultiplier Sample.hashParent 10 (Ok [Sample.successEvent 1]))
         Sample.hashA false false [] = (t', Ok b)
       /\ isGenesisParent (b_parentHash b) = false
       /\ b_extrinsics b !! 1 = Some e
       /\ signature e = Some ("0xsig", "alice")
       /\ paysFee e = Some true
       /\ ~ (exists sn sv, info e = InfoError (unsupported_message sn sv)).
Proof.
  split; [reflexivity|].
  eexists _, _, _. split; [vm_compute; reflexivity|].
  do 4 (split; [reflexivity|]). intros (sn & sv & H). discriminate H.
Qed.

Lemma missing_fee_materials_use_dummy_calculator_witness :
  exists t' b e,
    fetchBlock Sample.externals
      (Sample.apiNoMultiplier Sample.hashParent 10 (Ok [Sample.successEvent 1]))
      Sample.hashA false false [] = (t', Ok b)
    /\ b_extrinsics b !! 1 = Some e
    /\ (exists calls, t' = [] ++ calls
                      /\ Forall (fun c => isWasmCall c = false) calls)
    /\ forall sn sv, info e <> InfoError (unsupported_message sn sv).
Proof.
  eexists _, _, _. split; [vm_compute; reflexivity|]. split; [reflexivity|].
  destruct (missing_fee_materials_use_dummy_calculator Sample.externals
              (Sample.apiNoMultiplier Sample.hashParent 10
                 (Ok [Sample.successEvent 1]))
              Sample.hashA false false [] _ _
              (or_intror (or_intror eq_refl)) eq_refl eq_refl)
    as (Hcalls & block & Hb & H).
  split; [exact Hcalls|]. injection Hb as <-.
  exact (proj1 (H 1 Sample.balancesTransfer _ eq_refl eq_refl eq_refl eq_refl)).
Defined.

Lemma version_resolved_at_grandparent_witness :
  exists t' r,
    createCalcFee Sample.externals (Sample.api Sample.hashParent 10 (Ok []))
      Sample.hashParent (Sample.block Sample.hashParent 10) [] = (t', Ok r)
    /\ r_calcFee r <> Some DummyCalcFee
    /\ r_specVersion r = OfNum 2004
    /\ exists pph v calls,
         getRuntimeVersion (Sample.api Sample.hashParent 10 (Ok [])) pph = Ok v
         /\ r_specVersion r = OfNum (specVersion v)
         /\ t' = [] ++ calls
         /\ rpc_state_getRuntimeVersion pph ∈ calls.
Proof.
  eexists _, _. split; [vm_compute; reflexivity|]. split; [discriminate|].
  split; [reflexivity|].
  destruct (version_resolved_at_grandparent Sample.externals
              (Sample.api Sample.hashParent 10 (Ok []))
              Sample.hashParent (Sample.block Sample.hashParent 10) [] _ _
              eq_refl ltac:(discriminate))
    as (pph & v & calls & _ & _ & Hv & _ & Hver & Ht & Hin & _).
  exists pph, v, calls. auto.
Defined.

Lemma historical_per_byte_fee_witness :
  exists t' r,
    createCalcFee Sample.externals (Sample.api Sample.hashParent 600000 (Ok []))
      Sample.hashParent (Sample.block Sample.hashParent 600000) [] = (t', Ok r)
    /\ r_calcFee r <> Some DummyCalcFee
    /\ exists perByte p calls h,
         perByte_const (Sample.api Sample.hashParent 600000 (Ok [])) = Some perByte
         /\ t' = [] ++ calls
         /\ CalcFee_from_params p ∈ calls
         /\ from_params Sample.externals p = Ok h
         /\ fp_perByteFee p = pretty perByte.
Proof.
  eexists _, _. split; [vm_compute; reflexivity|]. split; [discriminate|].
  destruct (historical_per_byte_fee Sample.externals
              (Sample.api Sample.hashParent 600000 (Ok []))
              Sample.hashParent (Sample.block Sample.hashParent 600000) [] _ _
              eq_refl ltac:(discriminate))
    as (perByte & p & calls & h & Hpb & Ht & Hin & _ & Hfp & _ & _ & Hge).
  exists perByte, p, calls, h. repeat split; try assumption.
  apply Hge. discriminate.
Defined.

Lemma genesis_block_has_no_fee_info_witness :
  exists t' out,
    fetchBlock Sample.externals
      (Sample.apiBare Sample.zeroHash 0 (Ok [Sample.successEvent 1]))
      Sample.hashA false false [] = (t', out)
    /\ (exists calls, t' = [] ++ calls
                      /\ Forall (fun c => isFeeCall c = false) calls)
    /\ (exists b, out = Ok b)
    /\ (forall b, out = Ok b -> forall e, e ∈ b_extrinsics b -> info e = InfoEmpty)
    /\ exists err,
         snd (createCalcFee Sample.externals
                (Sample.apiBare Sample.zeroHash 0 (Ok [Sample.successEvent 1]))
                Sample.zeroHash (Sample.block Sample.zeroHash 0) [])
         = Throw err.
Proof.
  eexists _, _. split; [vm_compute; reflexivity|].
  destruct (genesis_block_has_no_fee_info Sample.externals
              (Sample.apiBare Sample.zeroHash 0 (Ok [Sample.successEvent 1]))
              Sample.hashA false false (Sample.block Sample.zeroHash 0) [] _ _
              eq_refl eq_refl eq_refl) as (Hcalls & H & _).
  split; [exact Hcalls|]. split; [eexists; reflexivity|].
  split; [|eexists; reflexivity].
  intros b Hb. exact (proj1 (H b Hb)).
Defined.

Lemma unsigned_never_pays_fee_witness :
  exists t' b,
    fetchBlock Sample.externals
      (Sample.api Sample.hashParent 10
         (Ok [Sample.successEvent 0; Sample.successEvent 1]))
      Sample.hashA false false [] = (t', Ok b)
    /\ exists e, b_extrinsics b !! 0 = Some e
                 /\ signature e = None /\ paysFee e = Some false.
Proof.
  eexists _, _. split; [vm_compute; reflexivity|].
  destruct (unsigned_never_pays_fee Sample.externals
              (Sample.api Sample.hashParent 10
                 (Ok [Sample.successEvent 0; Sample.successEvent 1]))
              Sample.hashA false false [] _ _ eq_refl) as (block & Hb & H).
  injection Hb as <-.
  exact (H 0 Sample.timestampSet eq_refl eq_refl).
Defined.

Lemma out_of_range_event_is_fatal_witness :
  (exists err,
     sanitizeEvents Sample.externals (inl [Sample.successEvent 2])
       (extractExtrinsics Sample.externals (Sample.block Sample.hashParent 10)
          (inl [Sample.successEvent 2]) false)
       Sample.hashA false = Throw err)
  /\ exists t' err,
       fetchBlock Sample.externals
         (Sample.api Sample.hashParent 10 (Ok [Sample.successEvent 2]))
         Sample.hashA false false [] = (t', Throw err).
Proof.
  destruct (out_of_range_event_is_fatal Sample.externals
              (Sample.api Sample.hashParent 10 (Ok [Sample.successEvent 2]))
              Sample.hashA false [Sample.successEvent 2]
              (extractExtrinsics Sample.externals (Sample.block Sample.hashParent 10)
                 (inl [Sample.successEvent 2]) false))
    as ([Hthrow _] & _ & _ & Hfetch).
  assert (exists r i, r ∈ [Sample.successEvent 2]
                      /\ Raw.phase r = Raw.ApplyExtrinsic i
                      /\ 2 <= N.to_nat i) as Hbad.
  { exists (Sample.successEvent 2), 2%N.
    split; [apply list_elem_of_here|]. split; [reflexivity|]. simpl. lia. }
  split; [exact (Hthrow Hbad)|].
  exact (Hfetch [] false (Sample.block Sample.hashParent 10) eq_refl eq_refl Hbad).
Defined.

Lemma degraded_events_skip_fee_computation_witness :
  exists t' b,
    fetchBlock Sample.externals
      (Sample.api Sample.hashParent 10 (Throw (Rejected "State already discarded")))
      Sample.hashA false false [] = (t', Ok b)
    /\ (exists e, b_extrinsics b !! 1 = Some e
                  /\ info e = InfoEmpty /\ paysFee e = None
                  /\ success e = SuccessText fetchEvents_message
                  /\ events e = [])
    /\ exists calls, t' = [] ++ calls
                     /\ Forall (fun c => isCalcFeeCall c = false) calls.
Proof.
  eexists _, _. split; [vm_compute; reflexivity|].
  destruct (degraded_events_skip_fee_computation Sample.externals
              (Sample.api Sample.hashParent 10
                 (Throw (Rejected "State already discarded")))
              Sample.hashA false false [] _ _ _ eq_refl eq_refl)
    as (block & Hb & _ & H & Hcalls).
  split; [|exact Hcalls]. injection Hb as <-.
  exact (H 1 Sample.balancesTransfer eq_refl).
Defined.

Lemma fee_errors_stay_on_their_extrinsic_witness :
  length Sample.attributed10
  = length (Raw.extrinsics (Sample.block Sample.hashParent 10))
  /\ exists t' exts' e,
       feeLoop Sample.externalsThrowing
         (Sample.api Sample.hashParent 10 (Ok [Sample.successEvent 1]))
         Sample.wasmFee (Sample.block Sample.hashParent 10)
         (length (Raw.extrinsics (Sample.block Sample.hashParent 10))) 0
         Sample.attributed10 [] = (t', Ok exts')
       /\ Sample.attributed10 !! 1 = Some e
       /\ exts' !! 1 = Some (set_info (InfoError "Unable to fetch fee info") e).
Proof.
  split; [reflexivity|].
  destruct (fee_errors_stay_on_their_extrinsic Sample.externalsThrowing
              (Sample.api Sample.hashParent 10 (Ok [Sample.successEvent 1]))
              Sample.wasmFee (Sample.block Sample.hashParent 10)
              Sample.attributed10 [] eq_refl)
    as (t' & exts' & Hrun & _ & _ & Hcatch & _).
  exists t', exts'. eexists. split; [exact Hrun|]. split; [reflexivity|].
  eapply (Hcatch 1 _ Sample.balancesTransfer (WasmCalcFee 0) []);
    try reflexivity.
  vm_compute. reflexivity.
Defined.

(** ** More on the assembled block *)

Section AssembledMore.
Variable ext : Externals.
Variable api : ApiPromise.

Lemma extractExtrinsics_lookup_eq block evs xd idx raw :
  Raw.extrinsics block !! idx = Some raw ->
  extractExtrinsics ext block evs xd !! idx =
    Some {| method := mkFrameMethod (Codec.section (Raw.method raw))
                        (Codec.method (Raw.method raw));
            signature := if Raw.isSigned raw
                         then Some (Raw.signature raw, Raw.signer raw) else None;
            nonce := if Raw.isSigned raw then Some (Raw.nonce raw) else None;
            args := sc_args (parseGenericCall (Raw.registry block) (Raw.method raw));
            tip := if Raw.isSigned raw then Some (Raw.tip raw) else None;
            hash := u8aToHex (blake2AsU8a ext (Raw.toU8a raw));
            info := InfoEmpty;
            events := [];
            success := match evs with
                       | inr message => SuccessText message
                       | inl _ => SuccessBool false
                       end;
            paysFee := if Raw.isSigned raw then None else Some false;
            docs := if xd then Some (sanitizeDocs ext (Raw.documentation raw))
                    else None |}.
Proof.
  unfold extractExtrinsics. generalize (Raw.extrinsics block). intros raws.
  revert idx. induction raws as [|x raws IH]; intros [|idx] Hraw; try done.
  - by injection Hraw as ->.
  - apply (IH idx Hraw).
Qed.

(** Everything [fetchBlock] returns, in terms of the raw block. *)
Lemma fetchBlock_Ok_fields hash ed xd t t' b :
  fetchBlock ext api hash ed xd t = (t', Ok b) ->
  exists block attributed,
    getBlock api hash = Ok block
    /\ sanitizeEvents ext (fetched_events api hash)
         (extractExtrinsics ext block (fetched_events api hash) xd) hash ed
       = Ok attributed
    /\ b_number b = Raw.number (Raw.header block)
    /\ b_hash b = hash
    /\ b_parentHash b = Raw.parentHash (Raw.header block)
    /\ b_stateRoot b = Raw.stateRoot (Raw.header block)
    /\ b_extrinsicsRoot b = Raw.extrinsicsRoot (Raw.header block)
    /\ b_logs b = Raw.digest (Raw.header block)
    /\ b_onInitialize b = at_onInitialize attributed
    /\ b_onFinalize b = at_onFinalize attributed
    /\ (b_authorId b = None
        \/ exists validators_at sv,
             session_validators_at api = Some validators_at
             /\ validators_at hash = Ok sv
             /\ b_authorId b = extractAuthor ext sv (Raw.digest (Raw.header block)))
    /\ (b_extrinsics b = at_extrinsics attributed
        \/ exists fee, b_extrinsics b =
                         zip_with (annotate ext api fee) (Raw.extrinsics block)
                           (at_extrinsics attributed)).
Proof.
  intros H. unfold fetchBlock in H. rewrite bind_run in H.
  destruct (fetchBlock_fetch api hash t) as [t0 o] eqn:Hf.
  destruct (emits_run _ _ _ _ _ _ (fetchBlock_fetch_emits api hash) Hf)
    as [_ Hq].
  destruct o as [[[block evs] sv]|]; [|done].
  destruct (Hq block evs sv eq_refl) as [Hb ->].
  assert (sv = None
          \/ exists validators_at l,
               session_validators_at api = Some validators_at
               /\ validators_at hash = Ok l /\ sv = Some l) as Hsv.
  { clear H Hq. unfold fetchBlock_fetch, fetchEvents in Hf.
    unfold mbind, M_bind, bind, promise_all2, try_catch, fmap, M_fmap, bind,
      await, ret in Hf.
    destruct (session_validators_at api) as [validators_at|].
    - right. exists validators_at.
      destruct (getBlock api hash), (system_events_at api hash),
        (validators_at hash) as [l|]; simplify_eq; eauto.
    - left. destruct (getBlock api hash), (system_events_at api hash);
        by simplify_eq. }
  exists block. unfold fetchBlock_assemble in H. rewrite bind_run in H.
  unfold lift in H.
  destruct (sanitizeEvents ext _ _ hash ed) as [attributed|] eqn:Hsan; [|done].
  exists attributed. split; [done|]. split; [done|].
  pose proof Hsan as Hlen. apply sanitizeEvents_lookup in Hlen as [Hlen _].
  rewrite extractExtrinsics_length in Hlen.
  assert (forall exts, (mkIBlock (Raw.number (Raw.header block)) hash
            (Raw.parentHash (Raw.header block)) (Raw.stateRoot (Raw.header block))
            (Raw.extrinsicsRoot (Raw.header block))
            (sv ≫= fun l => extractAuthor ext l (Raw.digest (Raw.header block)))
            (Raw.digest (Raw.header block)) (at_onInitialize attributed) exts
            (at_onFinalize attributed)) = b ->
          b_extrinsics b = exts ->
          (b_extrinsics b = at_extrinsics attributed
           \/ exists fee, b_extrinsics b =
                            zip_with (annotate ext api fee) (Raw.extrinsics block)
                              (at_extrinsics attributed)) ->
          b_number b = Raw.number (Raw.header block)
    /\ b_hash b = hash
    /\ b_parentHash b = Raw.parentHash (Raw.header block)
    /\ b_stateRoot b = Raw.stateRoot (Raw.header block)
    /\ b_extrinsicsRoot b = Raw.extrinsicsRoot (Raw.header block)
    /\ b_logs b = Raw.digest (Raw.header block)
    /\ b_onInitialize b = at_onInitialize attributed
    /\ b_onFinalize b = at_onFinalize attributed
    /\ (b_authorId b = None
        \/ exists validators_at sv,
             session_validators_at api = Some validators_at
             /\ validators_at hash = Ok sv
             /\ b_authorId b = extractAuthor ext sv (Raw.digest (Raw.header block)))
    /\ (b_extrinsics b = at_extrinsics attributed
        \/ exists fee, b_extrinsics b =
                         zip_with (annotate ext api fee) (Raw.extrinsics block)
                           (at_extrinsics attributed))) as Hfields.
  { intros exts <- _ Hexts. simpl in *. do 8 (split; [done|]). split; [|done].
    destruct Hsv as [->|(validators_at & l & Hv & Hl & ->)]; [by left|].
    right. eauto. }
  destruct (isGenesisParent _).
  - unfold ret in H. injection H as _ H. apply (Hfields _ H); [by subst b|].
    left. by subst b.
  - rewrite bind_run in H.
    destruct (createCalcFee ext api _ block t0) as [t1 [fee|]] eqn:Hc; [|done].
    rewrite bind_run in H.
    destruct (feeLoop ext api fee block _ 0 _ t1) as [t2 [exts|]] eqn:Hloop; [|done].
    unfold ret in H. injection H as _ H. apply (Hfields _ H); [by subst b|].
    right. exists fee. subst b. simpl. by eapply feeLoop_Ok.
Qed.

Lemma annotate_fields fee raw e :
  exists i, annotate ext api fee raw e = set_info i e.
Proof. apply annotate_set_info. Qed.

(** The extrinsic of the assembled block at [idx]: the extracted one, with
    the events of its phase applied and some [info]. *)
Lemma assembled_lookup hash ed xd t t' b :
  fetchBlock ext api hash ed xd t = (t', Ok b) ->
  exists block,
    getBlock api hash = Ok block
    /\ length (b_extrinsics b) = length (Raw.extrinsics block)
    /\ forall idx raw e,
         Raw.extrinsics block !! idx = Some raw ->
         b_extrinsics b !! idx = Some e ->
         exists e0 i,
           extractExtrinsics ext block (fetched_events api hash) xd !! idx = Some e0
           /\ e = set_info i
                    match fetched_events api hash with
                    | inl records => applyAll ext ed idx records e0
                    | inr _ => e0
                    end.
Proof.
  intros H. apply fetchBlock_extrinsic in H as (block & Hb & Hlen & Hall).
  exists block. split; [done|]. split; [done|].
  intros idx raw e Hraw He.
  destruct (Hall idx raw Hraw) as (e0 & e1 & i & He0 & -> & Hlook & _).
  rewrite Hlook in He. injection He as <-. eauto.
Qed.

(** X1. An assembled block has one extrinsic per raw extrinsic, in order; and
    of each, the method labels, signature, nonce, parsed arguments, tip, hash
    and docs are those extracted from the raw extrinsic: neither event
    attribution nor the fee loop touches them. Signature, nonce and tip are
    there exactly for a signed extrinsic. *)
Theorem assembled_extrinsics_mirror_raw blockHash ed xd t t' b :
  fetchBlock ext api blockHash ed xd t = (t', Ok b) ->
  exists block,
    getBlock api blockHash = Ok block
    /\ length (b_extrinsics b) = length (Raw.extrinsics block)
    /\ forall idx raw e,
         Raw.extrinsics block !! idx = Some raw ->
         b_extrinsics b !! idx = Some e ->
         method e = mkFrameMethod (Codec.section (Raw.method raw))
                      (Codec.method (Raw.method raw))
         /\ signature e = (if Raw.isSigned raw
                           then Some (Raw.signature raw, Raw.signer raw) else None)
         /\ nonce e = (if Raw.isSigned raw then Some (Raw.nonce raw) else None)
         /\ tip e = (if Raw.isSigned raw then Some (Raw.tip raw) else None)
         /\ args e = sc_args (parseGenericCall (Raw.registry block) (Raw.method raw))
         /\ hash e = u8aToHex (blake2AsU8a ext (Raw.toU8a raw))
         /\ docs e = (if xd then Some (sanitizeDocs ext (Raw.documentation raw))
                      else None).
Proof.
  intros H. apply assembled_lookup in H as (block & Hb & Hlen & Hall).
  exists block. split; [done|]. split; [done|].
  intros idx raw e Hraw He.
  destruct (Hall idx raw e Hraw He) as (e0 & i & He0 & ->).
  rewrite (extractExtrinsics_lookup_eq block _ xd idx raw Hraw) in He0.
  injection He0 as <-.
  destruct (fetched_events api blockHash) as [records|message]; [|done].
  match goal with
  | |- context [applyAll ext ed idx records ?x] =>
      destruct (applyAll_spec ext ed idx records x) as (p & -> & _)
  end.
  done.
Qed.

End AssembledMore.

Section Buckets.
Variable ext : Externals.
Variable api : ApiPromise.

Lemma list_sum_insert {A : Type} (f : A -> nat) (l : list A) i x y :
  l !! i = Some x ->
  list_sum (map f (<[i := y]> l)) + f x = list_sum (map f l) + f y.
Proof.
  revert i. induction l as [|a l IH]; intros [|i] Hi; try done; simpl in *.
  - injection Hi as ->. lia.
  - specialize (IH i Hi). lia.
Qed.

Lemma applyEvent_events ed event e :
  length (events (applyEvent ext ed event e)) = S (length (events e)).
Proof.
  destruct (applyEvent_spec ext ed event e) as (p & -> & _). simpl.
  rewrite length_app. simpl. lia.
Qed.

Lemma attributeEvent_buckets blockHash ed record acc acc' :
  attributeEvent ext blockHash ed record acc = Ok acc' ->
  at_onInitialize acc' =
    at_onInitialize acc
    ++ (if inInitialization record
        then [sanitizedEvent ext ed (Raw.event record)] else [])
  /\ at_onFinalize acc' =
       at_onFinalize acc
       ++ (if inFinalization record
           then [sanitizedEvent ext ed (Raw.event record)] else [])
  /\ eventCount (at_onInitialize acc') (at_onFinalize acc') (at_extrinsics acc')
     = S (eventCount (at_onInitialize acc) (at_onFinalize acc) (at_extrinsics acc)).
Proof.
  unfold attributeEvent, inInitialization, inFinalization, eventCount.
  destruct (Raw.phase record) as [i| |].
  - destruct (at_extrinsics acc !! N.to_nat i) as [x|] eqn:Hx; [|done].
    intros [= <-]. simpl. rewrite !app_nil_r. do 2 (split; [done|]).
    pose proof (list_sum_insert (fun e => length (events e)) _ _ _
                  (applyEvent ext ed (Raw.event record) x) Hx) as Hsum.
    cbv beta in Hsum. rewrite applyEvent_events in Hsum. lia.
  - intros [= <-]. simpl. rewrite app_nil_r, length_app. simpl.
    do 2 (split; [done|]). lia.
  - intros [= <-]. simpl. rewrite app_nil_r, length_app. simpl.
    do 2 (split; [done|]). lia.
Qed.

Lemma attributeEvents_buckets blockHash ed records acc acc' :
  attributeEvents ext blockHash ed records acc = Ok acc' ->
  at_onInitialize acc' =
    at_onInitialize acc
    ++ map (fun r => sanitizedEvent ext ed (Raw.event r))
         (List.filter inInitialization records)
  /\ at_onFinalize acc' =
       at_onFinalize acc
       ++ map (fun r => sanitizedEvent ext ed (Raw.event r))
            (List.filter inFinalization records)
  /\ eventCount (at_onInitialize acc') (at_onFinalize acc') (at_extrinsics acc')
     = eventCount (at_onInitialize acc) (at_onFinalize acc) (at_extrinsics acc)
       + length records.
Proof.
  revert acc. induction records as [|r rs IH]; intros acc; simpl.
  - intros [= <-]. rewrite !app_nil_r. repeat split; lia.
  - destruct (attributeEvent ext blockHash ed r acc) as [acc1|] eqn:H1; [|done].
    intros H2. apply attributeEvent_buckets in H1 as (Hi1 & Hf1 & Hc1).
    apply IH in H2 as (Hi2 & Hf2 & Hc2).
    split; [|split].
    + rewrite Hi2, Hi1, <- app_assoc. by destruct (inInitialization r).
    + rewrite Hf2, Hf1, <- app_assoc. by destruct (inFinalization r).
    + rewrite Hc2, Hc1. lia.
Qed.

Lemma zip_with_annotate_events fee raws exts :
  length exts = length raws ->
  map (fun e => length (events e)) (zip_with (annotate ext api fee) raws exts)
  = map (fun e => length (events e)) exts.
Proof.
  revert raws. induction exts as [|e exts IH]; intros [|raw raws] Hlen;
    try done; simpl in *.
  f_equal; [|apply IH; lia].
  by destruct (annotate_set_info ext api fee raw e) as [i ->].
Qed.

(** X2. When the events were fetched, the assembled block files every one of
    them exactly once: [onInitialize] holds the events of phase
    Initialization and [onFinalize] those of phase Finalization, in stream
    order, the others are on their extrinsics, and the three places together
    hold as many events as were fetched. *)
Theorem every_event_is_filed_once blockHash ed xd t t' b records :
  system_events_at api blockHash = Ok records ->
  fetchBlock ext api blockHash ed xd t = (t', Ok b) ->
  b_onInitialize b = map (fun r => sanitizedEvent ext ed (Raw.event r))
                       (List.filter inInitialization records)
  /\ b_onFinalize b = map (fun r => sanitizedEvent ext ed (Raw.event r))
                        (List.filter inFinalization records)
  /\ eventCount (b_onInitialize b) (b_onFinalize b) (b_extrinsics b)
     = length records.
Proof.
  intros Hev H.
  apply fetchBlock_Ok_fields in H
    as (block & attributed & Hb & Hsan & _ & _ & _ & _ & _ & _ & Hi & Hf & _ & Hx).
  pose proof Hsan as Hlen. apply sanitizeEvents_lookup in Hlen as [Hlen _].
  rewrite extractExtrinsics_length in Hlen.
  unfold fetched_events in Hsan. rewrite Hev in Hsan. simpl in Hsan.
  apply attributeEvents_buckets in Hsan as (Hi' & Hf' & Hc). simpl in *.
  rewrite Hi, Hf, Hi', Hf'. do 2 (split; [done|]).
  assert (list_sum (map (fun e => length (events e))
                      (extractExtrinsics ext block (inl records) xd)) = 0) as H0.
  { unfold extractExtrinsics. generalize (Raw.extrinsics block).
    intros raws. induction raws; simpl; [done|]. done. }
  unfold eventCount in *. rewrite H0 in Hc. simpl in Hc.
  rewrite <- Hi', <- Hf', <- Hc.
  destruct Hx as [->|[fee ->]]; [done|].
  by rewrite zip_with_annotate_events.
Qed.

End Buckets.

Section PaysFee.
Variable ext : Externals.
Variable api : ApiPromise.

Lemma scanPaysFee_signed e l :
  is_Some (signature e) ->
  scanPaysFee ext e l = match List.find (isPaysFee ext) l with
                    | Some d => set_paysFee (Some (paysFee_value d)) e
                    | None => e
                    end.
Proof.
  intros Hs. induction l as [|d l IH]; simpl; [done|].
  rewrite bool_decide_true by done. simpl. by destruct (isPaysFee ext d).
Qed.

Lemma applyEvent_paysFee_signed ed r e :
  is_Some (signature e) ->
  paysFee (applyEvent ext ed (Raw.event r) e)
  = match declaredPaysFee ext r with Some p => Some p | None => paysFee e end.
Proof.
  intros Hs. unfold applyEvent, declaredPaysFee, isSentinel, hasMethod. simpl.
  destruct (String.eqb (Raw.ev_method (Raw.event r)) Event_success); simpl.
  - rewrite scanPaysFee_signed by done.
    by destruct (List.find (isPaysFee ext) _).
  - destruct (String.eqb (Raw.ev_method (Raw.event r)) Event_failure); simpl;
      [|done].
    rewrite scanPaysFee_signed by done.
    by destruct (List.find (isPaysFee ext) _).
Qed.

Lemma applyEvent_signature ed event e :
  signature (applyEvent ext ed event e) = signature e.
Proof. by destruct (applyEvent_spec ext ed event e) as (p & -> & _). Qed.

Lemma fold_paysFee_signed ed rs e :
  is_Some (signature e) ->
  paysFee (fold_left (fun e r => applyEvent ext ed (Raw.event r) e) rs e)
  = fold_left (fun acc r => match declaredPaysFee ext r with
                            | Some p => Some p
                            | None => acc
                            end) rs (paysFee e).
Proof.
  revert e. induction rs as [|r rs IH]; intros e Hs; simpl; [done|].
  rewrite IH by (by rewrite applyEvent_signature).
  by rewrite applyEvent_paysFee_signed.
Qed.

Lemma last_declared_None rs init :
  fold_left (fun acc r => match declaredPaysFee ext r with
                          | Some p => Some p
                          | None => acc
                          end) rs init = None
  <-> init = None /\ forall r, r ∈ rs -> declaredPaysFee ext r = None.
Proof.
  revert init. induction rs as [|r rs IH]; intros init; simpl.
  - split; [|tauto]. intros ->. split; [done|]. intros r Hr. inversion Hr.
  - rewrite IH. split.
    + intros [Hd Hall]. destruct (declaredPaysFee ext r) eqn:Hr; [done|].
      split; [done|]. intros r' Hin. apply elem_of_cons in Hin as [->|Hin]; auto.
    + intros [-> Hall]. rewrite (Hall r) by apply list_elem_of_here.
      split; [done|]. intros r' Hin. apply Hall. by apply list_elem_of_further.
Qed.

Lemma last_declared_Some l1 r l2 p init :
  declaredPaysFee ext r = Some p ->
  (forall r', r' ∈ l2 -> declaredPaysFee ext r' = None) ->
  fold_left (fun acc r => match declaredPaysFee ext r with
                          | Some p => Some p
                          | None => acc
                          end) (l1 ++ r :: l2) init = Some p.
Proof.
  intros Hr Hl2. rewrite fold_left_app. simpl. rewrite Hr.
  clear Hr. induction l2 as [|r' l2 IH]; simpl; [done|].
  rewrite (Hl2 r') by apply list_elem_of_here.
  apply IH. intros r'' Hin. apply Hl2. by apply list_elem_of_further.
Qed.

(** The assembled extrinsic at an index, by the stages that made it. *)
Lemma assembled_stages blockHash ed xd t t' b :
  fetchBlock ext api blockHash ed xd t = (t', Ok b) ->
  exists block,
    getBlock api blockHash = Ok block
    /\ b_parentHash b = Raw.parentHash (Raw.header block)
    /\ forall idx raw e,
         Raw.extrinsics block !! idx = Some raw ->
         b_extrinsics b !! idx = Some e ->
         exists e0 e1,
           extractExtrinsics ext block (fetched_events api blockHash) xd !! idx
           = Some e0
           /\ e1 = match fetched_events api blockHash with
                   | inl records => applyAll ext ed idx records e0
                   | inr _ => e0
                   end
           /\ if isGenesisParent (Raw.parentHash (Raw.header block))
              then e = e1
              else exists fee t0 t1,
                     createCalcFee ext api (Raw.parentHash (Raw.header block))
                       block t0 = (t1, Ok fee)
                     /\ e = annotate ext api fee raw e1.
Proof.
  intros H. apply fetchBlock_Ok in H
    as (block & attributed & t0 & Hb & Hsan & _ & Hpar & Hrest).
  exists block. split; [done|]. split; [done|].
  intros idx raw e Hraw He.
  apply sanitizeEvents_lookup in Hsan as [Hlen Hat].
  rewrite extractExtrinsics_length in Hlen.
  destruct (extractExtrinsics_lookup ext block (fetched_events api blockHash)
              xd idx raw Hraw) as (e0 & He0 & _).
  specialize (Hat idx). rewrite He0 in Hat. simpl in Hat.
  eexists e0, _. split; [done|]. split; [reflexivity|].
  destruct (isGenesisParent _).
  - destruct Hrest as [_ Hx]. rewrite Hx, Hat in He. by injection He as <-.
  - destruct Hrest as (fee & t1 & Hc & Hloop).
    apply feeLoop_Ok in Hloop; [|done]. rewrite Hloop in He.
    rewrite lookup_zip_with, Hraw, Hat in He. simpl in He.
    injection He as <-. eauto.
Qed.

(** X3. In an assembled block, the [paysFee] of a signed extrinsic is
    decided by the last [ExtrinsicSuccess] or [ExtrinsicFailed] event of its
    phase that has a data field the helper [isPaysFee] accepts, whatever
    earlier events said: it is [paysFee === true || paysFee === 'Yes'] of the
    first such field of that event. It is [null] exactly when the helper
    accepts no data field of any such event of its phase. Nothing is asked
    of the helper: an event whose fields it rejects decides nothing. *)
Theorem paysFee_follows_last_sentinel_event blockHash ed xd t t' b records :
  system_events_at api blockHash = Ok records ->
  fetchBlock ext api blockHash ed xd t = (t', Ok b) ->
  exists block,
    getBlock api blockHash = Ok block
    /\ forall idx raw e,
         Raw.extrinsics block !! idx = Some raw ->
         b_extrinsics b !! idx = Some e ->
         Raw.isSigned raw = true ->
         (paysFee e = None <->
          forall r, r ∈ List.filter (appliesTo idx) records ->
                    declaredPaysFee ext r = None)
         /\ forall l1 r l2 p,
              List.filter (appliesTo idx) records = l1 ++ r :: l2 ->
              declaredPaysFee ext r = Some p ->
              (forall r', r' ∈ l2 -> declaredPaysFee ext r' = None) ->
              paysFee e = Some p.
Proof.
  intros Hev H. apply assembled_stages in H as (block & Hb & _ & Hall).
  exists block. split; [done|]. intros idx raw e Hraw He Hsigned.
  destruct (Hall idx raw e Hraw He) as (e0 & e1 & He0 & He1 & Hcase).
  unfold fetched_events in He0, He1. rewrite Hev in He0, He1.
  destruct (extractExtrinsics_lookup ext block (inl records) xd idx raw Hraw)
    as (e0' & He0' & Hsig & _ & _ & _ & Hpays).
  rewrite He0 in He0'. injection He0' as <-. rewrite Hsigned in Hsig, Hpays.
  assert (paysFee e = paysFee e1) as ->.
  { destruct (isGenesisParent _); [by subst|].
    destruct Hcase as (fee & t0 & t1 & _ & ->). apply annotate_paysFee. }
  subst e1. unfold applyAll. rewrite fold_paysFee_signed by (by rewrite Hsig).
  rewrite Hpays. split.
  - rewrite last_declared_None. tauto.
  - intros l1 r l2 p -> Hr Hl2. by apply last_declared_Some.
Qed.


Lemma applyAll_info ed idx records e0 :
  info (applyAll ext ed idx records e0) = info e0.
Proof. by destruct (applyAll_spec ext ed idx records e0) as (p & -> & _). Qed.

(** X4. In an assembled block an [info] other than the empty object is only
    ever found on a signed extrinsic whose [paysFee] is [true], in a block
    that is not the genesis block and whose events were fetched. *)
Theorem fee_info_only_on_signed_paying blockHash ed xd t t' b :
  fetchBlock ext api blockHash ed xd t = (t', Ok b) ->
  exists block,
    getBlock api blockHash = Ok block
    /\ forall idx raw e,
         Raw.extrinsics block !! idx = Some raw ->
         b_extrinsics b !! idx = Some e ->
         info e <> InfoEmpty ->
         Raw.isSigned raw = true
         /\ paysFee e = Some true
         /\ isGenesisParent (b_parentHash b) = false
         /\ exists records, system_events_at api blockHash = Ok records.
Proof.
  intros H. apply assembled_stages in H as (block & Hb & Hpar & Hall).
  exists block. split; [done|]. intros idx raw e Hraw He Hinfo.
  destruct (Hall idx raw e Hraw He) as (e0 & e1 & He0 & He1 & Hcase).
  destruct (extractExtrinsics_lookup ext block (fetched_events api blockHash)
              xd idx raw Hraw) as (e0' & He0' & _ & Hi0 & _ & _ & Hpays).
  rewrite He0 in He0'. injection He0' as <-.
  assert (info e1 = InfoEmpty) as Hi1.
  { subst e1. destruct (fetched_events api blockHash); [|done].
    by rewrite applyAll_info. }
  rewrite Hpar. destruct (isGenesisParent _); [by subst e|].
  destruct Hcase as (fee & t0 & t1 & _ & ->). rewrite annotate_paysFee.
  unfold annotate in Hinfo. case_bool_decide as Hp; simpl in Hinfo; [|done].
  destruct (Raw.isSigned raw) eqn:Hsigned; [|done].
  do 3 (split; [done|]).
  unfold fetched_events in He1.
  destruct (system_events_at api blockHash) as [records|]; [eauto|].
  subst e1. by rewrite Hpays in Hp.
Qed.

(** X5. When [isFrameMethod] accepts every [{ pallet, method }] object, no
    extrinsic of an assembled block carries the error "Unable to find
    success or failure event for extrinsic": an extrinsic that reaches the
    fee computation got its [paysFee] from such an event, which is among its
    events. *)
Theorem completed_event_is_always_found blockHash ed xd t t' b :
  (forall m, isFrameMethod ext m = true) ->
  fetchBlock ext api blockHash ed xd t = (t', Ok b) ->
  forall e, e ∈ b_extrinsics b ->
            info e <> InfoError "Unable to find success or failure event for extrinsic".
Proof.
  intros Hfm H e Hin. apply list_elem_of_lookup in Hin as [idx He].
  pose proof H as H'. apply fetchBlock_extrinsic in H' as (block' & Hb' & Hlen & _).
  apply assembled_stages in H as (block & Hb & _ & Hall).
  rewrite Hb in Hb'. injection Hb' as <-.
  destruct (lookup_lt_is_Some_2 (Raw.extrinsics block) idx) as [raw Hraw].
  { rewrite <- Hlen. by eapply lookup_lt_Some. }
  destruct (Hall idx raw e Hraw He) as (e0 & e1 & He0 & He1 & Hcase).
  destruct (extractExtrinsics_lookup ext block (fetched_events api blockHash)
              xd idx raw Hraw) as (e0' & He0' & Hsig & Hi0 & Hev0 & _ & Hpays).
  rewrite He0 in He0'. injection He0' as <-.
  assert (info e1 = InfoEmpty) as Hi1.
  { subst e1. destruct (fetched_events api blockHash); [|done].
    by rewrite applyAll_info. }
  destruct (isGenesisParent _); [subst e; by rewrite Hi1|].
  destruct Hcase as (fee & t0 & t1 & _ & ->).
  unfold annotate. case_bool_decide as Hp; simpl; [|by rewrite Hi1].
  destruct (Raw.isSigned raw) eqn:Hsigned; [|by rewrite Hi1]. simpl.
  destruct (r_calcFee fee) as [calcFee|].
  2:{ by intros [=]. }
  destruct (fetched_events api blockHash) as [records|];
    [|subst e1; by rewrite Hpays in Hp].
  assert (exists ev, List.find (isCompleted ext) (events e1) = Some ev) as [ev Hfind].
  { destruct (List.find (isCompleted ext) (events e1)) as [ev|] eqn:Hfind; [eauto|].
    exfalso.
    assert (exists r, r ∈ List.filter (appliesTo idx) records
                      /\ declaredPaysFee ext r <> None) as (r & Hr & Hdecl).
    { destruct (decide (Forall (fun r => declaredPaysFee ext r = None)
                          (List.filter (appliesTo idx) records))) as [Hall'|Hex].
      - exfalso. rewrite Forall_forall in Hall'.
        assert (paysFee e1 = None) as Hnone; [|by rewrite Hnone in Hp].
        subst e1. unfold applyAll.
        rewrite fold_paysFee_signed by (by rewrite Hsig). rewrite Hpays.
        by apply last_declared_None.
      - apply not_Forall_Exists in Hex; [|intros r; apply _].
        apply Exists_exists in Hex as (r & Hr & Hd). eauto. }
    assert (isSentinel r = true) as Hsent.
    { unfold declaredPaysFee in Hdecl. by destruct (isSentinel r). }
    assert (In (sanitizedEvent ext ed (Raw.event r)) (events e1)) as Hin.
    { subst e1. destruct (applyAll_spec ext ed idx records e0) as (p & -> & _).
      simpl. rewrite Hev0. simpl.
      apply (in_map (fun r => sanitizedEvent ext ed (Raw.event r))).
      by apply list_elem_of_In. }
    pose proof (find_none _ _ Hfind _ Hin) as Hf.
    unfold isCompleted in Hf. rewrite Hfm in Hf. simpl in Hf.
    unfold isSentinel, hasMethod in Hsent. congruence. }
  unfold feeInfo_outcome, feeInfo. rewrite Hfind.
  destruct (last (se_data ev)) as [weightInfo|]; simpl; [|done].
  unfold mbind, M_bind, bind at 1. unfold ret at 1.
  destruct (Raw.weight weightInfo) as [w|]; simpl; [|done].
  unfold bind. destruct (run_calc_fee ext calcFee _ _ []) as [l [fee'|]]; [|done].
  unfold fmap, M_fmap, bind, lift, ret.
  by destruct (createType_RuntimeDispatchInfo api w (Raw.class weightInfo) fee').
Qed.

End PaysFee.

Section CalcFeeMore.
Variable ext : Externals.
Variable api : ApiPromise.

Lemma decorated_baseWeight_value c bw :
  snd (decorated_baseWeight c []) = Ok (Some bw) -> baseWeightOf c = Some bw.
Proof.
  unfold decorated_baseWeight, baseWeightOf.
  destruct (system c) as [sys|]; simpl; [|intros [=]].
  destruct (extrinsicBaseWeight sys) as [w|]; simpl; [by intros [= ->]|].
  destruct (blockWeights sys) as [b|]; simpl; [|intros [=]].
  unfold mbind at 1, M_bind, bind, ret. simpl. intros [= Hx]. exact Hx.
Qed.

Lemma live_baseWeight_value bw :
  snd (live_baseWeight api []) = Ok (Some bw) -> baseWeightOf (consts api) = Some bw.
Proof.
  unfold live_baseWeight, baseWeightOf.
  destruct (system (consts api)) as [sys|]; simpl; [|intros [=]].
  destruct (extrinsicBaseWeight sys) as [w|]; simpl; [by intros [= ->]|].
  unfold mbind at 1, M_bind, bind at 1, ret at 1.
  destruct (blockWeights sys) as [b|]; simpl; [|intros [=]].
  unfold mbind at 1, M_bind, bind, ret. simpl. intros [= Hx]. exact Hx.
Qed.

(** The supported path of [createCalcFee], with where each parameter of the
    calculator comes from. *)
Lemma createCalcFee_supported_full parentHash block t t' r :
  createCalcFee ext api parentHash block t = (t', Ok r) ->
  r_calcFee r <> Some DummyCalcFee ->
  exists perByte tp w2f mult_at pph v mult bw h,
    perByte_const api = Some perByte
    /\ transactionPayment (consts api) = Some tp
    /\ weightToFee tp = Some w2f
    /\ nextFeeMultiplier_at api = Some mult_at
    /\ mult_at parentHash = Ok mult
    /\ (if (1 <? Raw.number (Raw.header block))%N
        then exists hdr, getHeader api parentHash = Ok hdr
                         /\ pph = Raw.parentHash hdr
        else pph = parentHash)
    /\ getRuntimeVersion api pph = Ok v
    /\ (if versionDiffers api v
        then exists metadata,
               getMetadata api pph = Ok metadata
               /\ baseWeightOf (decorated_consts metadata) = Some bw
        else baseWeightOf (consts api) = Some bw)
    /\ let p := mkFeeParams (coefficientsOf w2f) (Z.of_N bw) (pretty mult)
                  (if (Raw.number (Raw.header block) <? historical_height)%N
                   then historical_perByte else pretty perByte)
                  (OfStr (specName v)) (OfNum (specVersion v)) in
       from_params ext p = Ok h
       /\ r = mkCalcFeeResult (WasmCalcFee <$> h)
                (OfStr (specName v)) (OfNum (specVersion v))
       /\ t' = t ++ (if (1 <? Raw.number (Raw.header block))%N
                     then [rpc_chain_getHeader parentHash] else [])
                 ++ [rpc_state_getRuntimeVersion pph;
                     query_transactionPayment_nextFeeMultiplier_at parentHash]
                 ++ (if versionDiffers api v
                     then [rpc_state_getMetadata pph] else [])
                 ++ [CalcFee_from_params p].
Proof.
  intros H Hnd. unfold createCalcFee in H.
  rewrite (bind_silent _ _ _ (extrinsicBaseWeightExists_silent api)) in H.
  destruct (snd (extrinsicBaseWeightExists api [])) as [bwe|]; [|done].
  destruct (perByte_const api) as [perByte|] eqn:Hpb.
  2:{ rewrite bind_run in H. unfold await, ret in H.
      destruct (getRuntimeVersion api parentHash); simplify_eq; done. }
  destruct bwe as [bwe|].
  2:{ rewrite bind_run in H. unfold await, ret in H.
      destruct (getRuntimeVersion api parentHash); simplify_eq; done. }
  destruct (nextFeeMultiplier_at api) as [mult_at|].
  2:{ rewrite bind_run in H. unfold await, ret in H.
      destruct (getRuntimeVersion api parentHash); simplify_eq; done. }
  destruct (transactionPayment (consts api)) as [tp|]; [|done].
  simpl in H. rewrite bind_run in H. unfold ret at 1 in H.
  destruct (weightToFee tp) as [w2f|] eqn:Hw2f; [|done].
  simpl in H. rewrite bind_run in H. unfold ret at 1 in H.
  rewrite bind_run in H.
  destruct ((if (1 <? Raw.number (Raw.header block))%N
             then Raw.parentHash <$>
                    await (rpc_chain_getHeader parentHash) (getHeader api parentHash)
             else ret parentHash) t) as [t1 o] eqn:Hp.
  destruct o as [pph|]; [|done].
  assert (t1 = t ++ (if (1 <? Raw.number (Raw.header block))%N
                     then [rpc_chain_getHeader parentHash] else [])
          /\ (if (1 <? Raw.number (Raw.header block))%N
              then exists hdr, getHeader api parentHash = Ok hdr
                               /\ pph = Raw.parentHash hdr
              else pph = parentHash)) as [-> Hpph].
  { destruct (1 <? Raw.number (Raw.header block))%N.
    - unfold fmap, M_fmap, bind, await, ret in Hp.
      destruct (getHeader api parentHash) as [hdr|]; simplify_eq. eauto.
    - unfold ret in Hp. simplify_eq. by rewrite app_nil_r. }
  rewrite bind_run in H. unfold promise_all2, await in H.
  destruct (getRuntimeVersion api pph) as [v|] eqn:Hv; [|done].
  destruct (mult_at parentHash) as [mult|] eqn:Hmult; [|done].
  rewrite bind_run in H.
  fold (versionDiffers api v) in H. fold (coefficientsOf w2f) in H.
  destruct (versionDiffers api v) eqn:Hd.
  - rewrite bind_run in H. unfold await in H.
    destruct (getMetadata api pph) as [metadata|] eqn:Hmeta; [|done].
    rewrite decorated_baseWeight_silent in H.
    destruct (snd (decorated_baseWeight (decorated_consts metadata) []))
      as [[bw|]|] eqn:Hbw; try done.
    rewrite bind_run in H. unfold await, ret in H.
    destruct (from_params ext _) as [h|] eqn:Hfp; [|done].
    injection H as <- <-.
    eexists perByte, tp, w2f, mult_at, pph, v, mult, bw, h. rewrite Hd.
    do 7 (split; [done|]).
    split. { exists metadata. split; [done|]. by apply decorated_baseWeight_value. }
    simpl. split; [exact Hfp|]. split; [done|]. by rewrite <- !app_assoc.
  - rewrite live_baseWeight_silent in H.
    destruct (snd (live_baseWeight api [])) as [[bw|]|] eqn:Hbw; try done.
    rewrite bind_run in H. unfold await, ret in H.
    destruct (from_params ext _) as [h|] eqn:Hfp; [|done].
    injection H as <- <-.
    eexists perByte, tp, w2f, mult_at, pph, v, mult, bw, h. rewrite Hd.
    do 7 (split; [done|]).
    split. { by apply live_baseWeight_value. }
    simpl. split; [exact Hfp|]. split; [done|]. by rewrite <- !app_assoc.
Qed.

(** X6. Where the parameters of the fee calculator come from on the
    supported path: the coefficients are the [weightToFee] constant of the
    connected runtime; the multiplier is [nextFeeMultiplier] asked at the
    parent hash and at no other hash, also when the version is resolved at
    the grandparent (above height 1; at height 1 or below the version is
    resolved at the parent hash too); the base weight is read from the
    metadata fetched at the hash the version was resolved at when that
    version differs from the connected runtime's, and from the connected
    runtime's constants otherwise, in which case no metadata is fetched. *)
Theorem fee_parameters_provenance parentHash block t t' r :
  createCalcFee ext api parentHash block t = (t', Ok r) ->
  r_calcFee r <> Some DummyCalcFee ->
  exists p tp w2f mult_at mult pph v calls,
    t' = t ++ calls
    /\ CalcFee_from_params p ∈ calls
    /\ transactionPayment (consts api) = Some tp
    /\ weightToFee tp = Some w2f
    /\ fp_coefficients p = coefficientsOf w2f
    /\ nextFeeMultiplier_at api = Some mult_at
    /\ mult_at parentHash = Ok mult
    /\ fp_multiplier p = pretty mult
    /\ (forall h, query_transactionPayment_nextFeeMultiplier_at h ∈ calls ->
                  h = parentHash)
    /\ (if (1 <? Raw.number (Raw.header block))%N
        then exists hdr, getHeader api parentHash = Ok hdr
                         /\ pph = Raw.parentHash hdr
        else pph = parentHash)
    /\ getRuntimeVersion api pph = Ok v
    /\ rpc_state_getRuntimeVersion pph ∈ calls
    /\ (versionDiffers api v = true ->
        exists metadata bw,
          getMetadata api pph = Ok metadata
          /\ baseWeightOf (decorated_consts metadata) = Some bw
          /\ fp_extrinsicBaseWeight p = Z.of_N bw
          /\ rpc_state_getMetadata pph ∈ calls)
    /\ (versionDiffers api v = false ->
        exists bw,
          baseWeightOf (consts api) = Some bw
          /\ fp_extrinsicBaseWeight p = Z.of_N bw
          /\ forall h, rpc_state_getMetadata h ∉ calls).
Proof.
  intros H Hnd.
  destruct (createCalcFee_supported_full parentHash block t t' r H Hnd)
    as (perByte & tp & w2f & mult_at & pph & v & mult & bw & h
        & _ & Htp & Hw & Hm & Hmult & Hpph & Hv & Hbw & _ & _ & ->).
  eexists _, tp, w2f, mult_at, mult, pph, v, _.
  split; [reflexivity|].
  split. { rewrite !elem_of_app, !elem_of_cons. auto 10. }
  do 6 (split; [done|]).
  split.
  { intros h'. destruct (1 <? _)%N, (versionDiffers api v);
      rewrite !elem_of_app, ?elem_of_cons, ?elem_of_nil;
      intuition (simplify_eq; done). }
  split; [done|]. split; [done|].
  split. { rewrite !elem_of_app, !elem_of_cons. auto 10. }
  split.
  - intros Hd. rewrite Hd in Hbw |- *. destruct Hbw as (metadata & Hmeta & Hbw).
    exists metadata, bw. do 3 (split; [done|]).
    rewrite !elem_of_app, !elem_of_cons. auto 10.
  - intros Hd. rewrite Hd in Hbw |- *. exists bw. do 2 (split; [done|]).
    intros h'. destruct (1 <? _)%N;
      rewrite !elem_of_app, ?elem_of_cons, ?elem_of_nil;
      intuition (simplify_eq; done).
Qed.


(** X7. With the per-byte fee constant, the base weight or the multiplier
    query missing, [createCalcFee] does one of two things, whatever the
    height of the block. If the lookup of the base weight throws (no
    [system] constants, or neither [extrinsicBaseWeight] nor
    [blockWeights], or a [blockWeights] without [perClass] or [normal]), it
    throws that error and makes no call. Otherwise it makes one call, the
    runtime version at the parent hash: if that fails so does
    [createCalcFee]; if not, it returns the dummy calculator, with the number
    of the version under [specName] and its name under [specVersion]. *)
Theorem missing_materials_ask_version_at_parent parentHash block t :
  perByte_const api = None \/ nextFeeMultiplier_at api = None
  \/ baseWeightOf (consts api) = None ->
  createCalcFee ext api parentHash block t =
    match snd (extrinsicBaseWeightExists api []) with
    | Throw e => (t, Throw e)
    | Ok _ =>
        (t ++ [rpc_state_getRuntimeVersion parentHash],
         match getRuntimeVersion api parentHash with
         | Ok v => Ok (mkCalcFeeResult (Some DummyCalcFee)
                         (OfNum (specVersion v)) (OfStr (specName v)))
         | Throw e => Throw e
         end)
    end.
Proof.
  intros Hmiss. unfold createCalcFee.
  rewrite (bind_silent _ _ _ (extrinsicBaseWeightExists_silent api)).
  destruct (snd (extrinsicBaseWeightExists api [])) as [bwe|e] eqn:Hbwe; [|done].
  assert (match perByte_const api, bwe, nextFeeMultiplier_at api with
          | Some _, Some _, Some _ => False
          | _, _, _ => True
          end) as Hcase.
  { destruct Hmiss as [-> | [-> | Hbw]]; [done| |].
    - destruct (perByte_const api); try done; by destruct bwe.
    - destruct (extrinsicBaseWeightExists_lacking api Hbw) as [[e He]|He];
        rewrite Hbwe in He; [done|]. injection He as ->.
      by destruct (perByte_const api). }
  destruct (perByte_const api), bwe, (nextFeeMultiplier_at api); try done;
    rewrite bind_run; unfold await, ret;
    by destruct (getRuntimeVersion api parentHash).
Qed.

Lemma createCalcFee_throws_fetchBlock blockHash ed xd t t' out block :
  (forall t0, exists t1 err,
     createCalcFee ext api (Raw.parentHash (Raw.header block)) block t0
     = (t1, Throw err)) ->
  getBlock api blockHash = Ok block ->
  isGenesisParent (Raw.parentHash (Raw.header block)) = false ->
  fetchBlock ext api blockHash ed xd t = (t', out) ->
  exists err, out = Throw err.
Proof.
  intros Hthrow Hb Hng Hrun. destruct out as [b|err]; [|eauto]. exfalso.
  apply fetchBlock_Ok in Hrun as (block' & attributed & t0 & Hb' & _ & _ & _ & Hrest).
  rewrite Hb in Hb'. injection Hb' as <-. rewrite Hng in Hrest.
  destruct Hrest as (fee & t1 & Hc & _).
  destruct (Hthrow t0) as (t1' & err & Hc'). congruence.
Qed.

(** X8. [createCalcFee] throws a [TypeError] before making any call when the
    constants of the connected runtime have no [system] section, or have one
    with neither [extrinsicBaseWeight] nor [blockWeights], or have the
    per-byte fee, the base weight and the multiplier query but no
    [weightToFee]. On such a node no block but the genesis block is ever
    assembled. *)
Theorem createCalcFee_throws_on_absent_constants parentHash block t :
  system (consts api) = None
  \/ (exists sys, system (consts api) = Some sys
                  /\ extrinsicBaseWeight sys = None /\ blockWeights sys = None)
  \/ (exists perByte mult_at bw tp,
        perByte_const api = Some perByte
        /\ nextFeeMultiplier_at api = Some mult_at
        /\ snd (extrinsicBaseWeightExists api []) = Ok (Some bw)
        /\ transactionPayment (consts api) = Some tp
        /\ weightToFee tp = None) ->
  (exists msg,
     createCalcFee ext api parentHash block t = (t, Throw (TypeError msg)))
  /\ forall blockHash ed xd t0 t' out,
       getBlock api blockHash = Ok block ->
       Raw.parentHash (Raw.header block) = parentHash ->
       isGenesisParent parentHash = false ->
       fetchBlock ext api blockHash ed xd t0 = (t', out) ->
       exists err, out = Throw err.
Proof.
  intros Hcase.
  assert (forall parentHash t, exists msg,
            createCalcFee ext api parentHash block t = (t, Throw (TypeError msg)))
    as Hthrow.
  { clear parentHash t. intros parentHash t. unfold createCalcFee.
    rewrite (bind_silent _ _ _ (extrinsicBaseWeightExists_silent api)).
    destruct Hcase as [Hsys | [(sys & Hsys & Hebw & Hbw)
                              | (perByte & mult_at & bw & tp & Hpb & Hm & Hbwe & Htp & Hw)]].
    - unfold extrinsicBaseWeightExists. rewrite Hsys. simpl. eauto.
    - unfold extrinsicBaseWeightExists. rewrite Hsys. simpl.
      unfold mbind, M_bind, bind at 1. unfold ret at 1. rewrite Hebw, Hbw.
      simpl. eauto.
    - rewrite Hbwe, Hpb, Hm, Htp. simpl. rewrite bind_run. unfold ret at 1.
      rewrite Hw. simpl. eauto. }
  split; [apply Hthrow|].
  intros blockHash ed xd t0 t' out Hb Hpar Hng Hrun. subst parentHash.
  eapply createCalcFee_throws_fetchBlock; [|exact Hb|exact Hng|exact Hrun].
  intros t1. destruct (Hthrow (Raw.parentHash (Raw.header block)) t1) as [msg Hm].
  eauto.
Qed.

End CalcFeeMore.

Section FeeLoopMore.
Variable ext : Externals.
Variable api : ApiPromise.

(** The calls of the [try] body: at most one, to [calc_fee] of the
    calculator at hand. *)
Lemma feeInfo_calls calcFee raw e t :
  exists l,
    feeInfo ext api calcFee raw e t = (t ++ l, feeInfo_outcome ext api calcFee raw e)
    /\ length l <= 1
    /\ Forall (fun c => exists handle w len,
                          c = CalcFee_calc_fee handle w len
                          /\ calcFee = WasmCalcFee handle) l.
Proof.
  unfold feeInfo_outcome, feeInfo.
  destruct (List.find (isCompleted ext) (events e)) as [ev|]; simpl.
  2:{ exists []. rewrite app_nil_r. simpl. auto. }
  destruct (last (se_data ev)) as [weightInfo|]; simpl.
  2:{ exists []. rewrite app_nil_r. simpl. auto. }
  unfold mbind, M_bind, bind at 1 3. unfold ret at 1 3.
  destruct (Raw.weight weightInfo) as [w|]; simpl.
  2:{ exists []. rewrite app_nil_r. simpl. auto. }
  destruct calcFee as [|handle]; simpl.
  - exists []. rewrite app_nil_r. unfold bind, ret, fmap, M_fmap, bind, lift, ret.
    simpl. split; [|auto].
    by destruct (createType_RuntimeDispatchInfo api w (Raw.class weightInfo) None).
  - exists [CalcFee_calc_fee handle (Z.of_N w) (Raw.encodedLength raw)].
    unfold bind, ret, fmap, M_fmap, bind, await, lift, ret. simpl.
    split; [|split; [lia|]].
    + destruct (calc_fee ext handle (Z.of_N w) (Raw.encodedLength raw)) as [f|];
        [|done].
      by destruct (createType_RuntimeDispatchInfo api w (Raw.class weightInfo)
                     (Some f)).
    + repeat constructor. eauto.
Qed.

Lemma feeStep_calls fee block idx exts e raw t :
  exts !! idx = Some e ->
  Raw.extrinsics block !! idx = Some raw ->
  exists l,
    feeStep ext api fee block idx exts t
    = (t ++ l, Ok (<[idx := annotate ext api fee raw e]> exts))
    /\ length l <= (if bool_decide (paysFee e = Some true) then 1 else 0)
    /\ Forall (fun c => exists handle w len,
                          c = CalcFee_calc_fee handle w len
                          /\ r_calcFee fee = Some (WasmCalcFee handle)) l.
Proof.
  intros He Hraw. unfold feeStep, annotate. rewrite He, Hraw. simpl.
  unfold mbind, M_bind, bind at 1. unfold ret at 1.
  case_bool_decide as Hpays; simpl.
  2:{ exists []. rewrite app_nil_r, list_insert_id by done. auto. }
  unfold bind at 1. unfold ret at 1.
  destruct (Raw.isSigned raw); simpl.
  2:{ exists []. rewrite app_nil_r, list_insert_id by done. simpl. auto. }
  destruct (r_calcFee fee) as [calcFee|] eqn:Hc.
  2:{ exists []. rewrite app_nil_r. simpl. auto. }
  destruct (feeInfo_calls calcFee raw e t) as (l & Hrun & Hlen & Hl).
  exists l. unfold bind, try_catch, ret. rewrite Hrun.
  split; [|split; [done|]].
  - by destruct (feeInfo_outcome ext api calcFee raw e).
  - eapply Forall_impl; [exact Hl|].
    intros c (handle & w & len & -> & ->). eauto.
Qed.

Lemma feeLoop_calls fee block turns idx exts t :
  idx + turns = length (Raw.extrinsics block) ->
  length exts = length (Raw.extrinsics block) ->
  exists l exts',
    feeLoop ext api fee block turns idx exts t = (t ++ l, Ok exts')
    /\ length l <= length (List.filter
                             (fun e => bool_decide (paysFee e = Some true))
                             (drop idx exts))
    /\ Forall (fun c => exists handle w len,
                          c = CalcFee_calc_fee handle w len
                          /\ r_calcFee fee = Some (WasmCalcFee handle)) l.
Proof.
  revert idx exts t. induction turns as [|turns IH]; intros idx exts t Hidx Hlen.
  - exists [], exts. simpl. unfold ret. rewrite app_nil_r.
    split; [done|]. split; [lia|done].
  - simpl.
    destruct (lookup_lt_is_Some_2 exts idx) as [e He]; [lia|].
    destruct (lookup_lt_is_Some_2 (Raw.extrinsics block) idx) as [raw Hraw]; [lia|].
    destruct (feeStep_calls fee block idx exts e raw t He Hraw)
      as (l1 & Hstep & Hlen1 & Hl1).
    rewrite bind_run, Hstep.
    destruct (IH (S idx) (<[idx := annotate ext api fee raw e]> exts) (t ++ l1))
      as (l2 & exts' & Hrun & Hlen2 & Hl2); [lia|by rewrite length_insert|].
    exists (l1 ++ l2), exts'. rewrite app_assoc. split; [done|].
    split; [|by apply Forall_app].
    rewrite length_app. rewrite drop_insert_lt in Hlen2 by lia.
    rewrite (drop_S _ _ _ He). simpl.
    destruct (bool_decide (paysFee e = Some true)); simpl; lia.
Qed.

(** X9. The fee loop calls nothing but [calc_fee] of the calculator it was
    given, at most once for each extrinsic whose [paysFee] is [true]; with
    the dummy calculator or none it makes no call at all. *)
Theorem fee_loop_calls_calc_fee_at_most_once_each fee block exts t :
  length exts = length (Raw.extrinsics block) ->
  exists calls exts',
    feeLoop ext api fee block (length (Raw.extrinsics block)) 0 exts t
    = (t ++ calls, Ok exts')
    /\ length calls <= length (List.filter
                                 (fun e => bool_decide (paysFee e = Some true)) exts)
    /\ Forall (fun c => exists handle w len,
                          c = CalcFee_calc_fee handle w len
                          /\ r_calcFee fee = Some (WasmCalcFee handle)) calls
    /\ ((r_calcFee fee = None \/ r_calcFee fee = Some DummyCalcFee) -> calls = []).
Proof.
  intros Hlen.
  destruct (feeLoop_calls fee block (length (Raw.extrinsics block)) 0 exts t
              eq_refl Hlen) as (l & exts' & Hrun & Hcount & Hl).
  exists l, exts'. rewrite drop_0 in Hcount. do 3 (split; [done|]).
  intros Hnone. destruct l as [|c l]; [done|]. exfalso.
  apply Forall_cons in Hl as [(handle & w & len & _ & Hc) _].
  destruct Hnone as [Hn|Hn]; by rewrite Hn in Hc.
Qed.

(** X10. With a calculator at hand, what the fee loop leaves on a signed
    extrinsic whose [paysFee] is [true]: the weight is read from the last
    data field of the first [ExtrinsicSuccess]/[ExtrinsicFailed] event among
    its events and the length is the encoded length of the raw extrinsic.
    An event without data, a [calc_fee] or a [createType] that throws give
    "Unable to fetch fee info"; a last data field without weight gives
    "... does not specify weight"; otherwise [info] is the
    [RuntimeDispatchInfo] created from the weight, the class and the fee. *)
Theorem fee_comes_from_first_completed_event fee block exts t handle idx e raw ev :
  length exts = length (Raw.extrinsics block) ->
  r_calcFee fee = Some (WasmCalcFee handle) ->
  exts !! idx = Some e ->
  Raw.extrinsics block !! idx = Some raw ->
  paysFee e = Some true ->
  Raw.isSigned raw = true ->
  List.find (isCompleted ext) (events e) = Some ev ->
  exists t' exts' i,
    feeLoop ext api fee block (length (Raw.extrinsics block)) 0 exts t
    = (t', Ok exts')
    /\ exts' !! idx = Some (set_info i e)
    /\ i = match last (se_data ev) with
           | None => InfoError "Unable to fetch fee info"
           | Some weightInfo =>
               match Raw.weight weightInfo with
               | None =>
                   InfoError
                     "Success or failure event for extrinsic does not specify weight"
               | Some w =>
                   match calc_fee ext handle (Z.of_N w) (Raw.encodedLength raw) with
                   | Throw _ => InfoError "Unable to fetch fee info"
                   | Ok f =>
                       match createType_RuntimeDispatchInfo api w
                               (Raw.class weightInfo) (Some f) with
                       | Ok rdi => InfoDispatch rdi
                       | Throw _ => InfoError "Unable to fetch fee info"
                       end
                   end
               end
           end.
Proof.
  intros Hlen Hc He Hraw Hpays Hsigned Hfind.
  destruct (feeLoop_emits ext api (fun _ => True) fee block
              (length (Raw.extrinsics block)) 0 exts eq_refl Hlen
              (fun _ _ _ _ _ => I) t) as (l & r & Hrun & _ & ->).
  eexists (t ++ l), _, _. split; [exact Hrun|].
  rewrite take_0, !drop_0. simpl. rewrite lookup_zip_with, Hraw, He. simpl.
  unfold annotate. rewrite Hsigned, bool_decide_true, Hc by done. simpl.
  split; [reflexivity|].
  unfold feeInfo_outcome, feeInfo. rewrite Hfind.
  destruct (last (se_data ev)) as [weightInfo|]; simpl; [|done].
  unfold mbind, M_bind, bind at 1. unfold ret at 1.
  destruct (Raw.weight weightInfo) as [w|]; simpl; [|done].
  unfold bind, ret, fmap, M_fmap, bind, await, lift, ret. simpl.
  destruct (calc_fee ext handle (Z.of_N w) (Raw.encodedLength raw)) as [f|];
    [|done].
  by destruct (createType_RuntimeDispatchInfo api w (Raw.class weightInfo) (Some f)).
Qed.

End FeeLoopMore.

Section Unsupported.
Variable ext : Externals.
Variable api : ApiPromise.

Lemma createCalcFee_with_materials parentHash block t t' r perByte mult_at bw :
  perByte_const api = Some perByte ->
  nextFeeMultiplier_at api = Some mult_at ->
  snd (extrinsicBaseWeightExists api []) = Ok (Some bw) ->
  createCalcFee ext api parentHash block t = (t', Ok r) ->
  r_calcFee r <> Some DummyCalcFee.
Proof.
  intros Hpb Hm Hbwe H. unfold createCalcFee in H.
  rewrite (bind_silent _ _ _ (extrinsicBaseWeightExists_silent api)) in H.
  rewrite Hbwe, Hpb, Hm in H.
  destruct (transactionPayment (consts api)) as [tp|]; [|done].
  simpl in H. rewrite bind_run in H. unfold ret at 1 in H.
  destruct (weightToFee tp) as [w2f|]; [|done].
  simpl in H. rewrite bind_run in H. unfold ret at 1 in H.
  rewrite bind_run in H.
  destruct ((if (1 <? Raw.number (Raw.header block))%N
             then Raw.parentHash <$>
                    await (rpc_chain_getHeader parentHash) (getHeader api parentHash)
             else ret parentHash) t) as [t1 [pph|]]; [|done].
  rewrite bind_run in H. unfold promise_all2, await in H.
  destruct (getRuntimeVersion api pph) as [v|]; [|done].
  destruct (mult_at parentHash) as [mult|]; [|done].
  rewrite bind_run in H.
  destruct (_ || _).
  - rewrite bind_run in H. unfold await in H.
    destruct (getMetadata api pph) as [metadata|]; [|done].
    rewrite decorated_baseWeight_silent in H.
    destruct (snd (decorated_baseWeight (decorated_consts metadata) []))
      as [[w|]|]; try done.
    rewrite bind_run in H. unfold await, ret in H.
    destruct (from_params ext _) as [h|]; [|done].
    injection H as <- <-. by destruct h.
  - rewrite live_baseWeight_silent in H.
    destruct (snd (live_baseWeight api [])) as [[w|]|]; try done.
    rewrite bind_run in H. unfold await, ret in H.
    destruct (from_params ext _) as [h|]; [|done].
    injection H as <- <-. by destruct h.
Qed.

(** A [createCalcFee] that returns has either handed out the dummy
    calculator after its single call, or taken the supported path. *)
Lemma createCalcFee_Ok_cases parentHash block t t' r :
  createCalcFee ext api parentHash block t = (t', Ok r) ->
  (r_calcFee r = Some DummyCalcFee
   /\ t' = t ++ [rpc_state_getRuntimeVersion parentHash])
  \/ r_calcFee r <> Some DummyCalcFee.
Proof.
  intros H.
  destruct (perByte_const api) as [perByte|] eqn:Hpb.
  2:{ left. eapply createCalcFee_unsupported in H as (v & _ & -> & ->);
        [done|by left]. }
  destruct (nextFeeMultiplier_at api) as [mult_at|] eqn:Hm.
  2:{ left. eapply createCalcFee_unsupported in H as (v & _ & -> & ->);
        [done|by right; left]. }
  destruct (snd (extrinsicBaseWeightExists api [])) as [[bw|]|e] eqn:Hbwe.
  - right. by eapply createCalcFee_with_materials.
  - left. eapply createCalcFee_unsupported in H as (v & _ & -> & ->);
      [done|by right; right].
  - unfold createCalcFee in H.
    rewrite (bind_silent _ _ _ (extrinsicBaseWeightExists_silent api)) in H.
    by rewrite Hbwe in H.
Qed.

(** X11. When, in the assembly of a block that is not the genesis block,
    [CalcFee.from_params] is asked and returns nothing (the wasm package does
    not know the runtime it is asked about), every signed extrinsic of the
    block whose [paysFee] is [true] carries the error "Fee calculation not
    supported for <name>#<version>", with the name and version of the
    runtime version asked at the grandparent hash (at the parent hash at
    height 1 or below), and [calc_fee] is never called. Nothing is asked of
    what [from_params] does with other parameters. *)
Theorem unsupported_runtime_is_reported blockHash ed xd t calls b p :
  fetchBlock ext api blockHash ed xd t = (t ++ calls, Ok b) ->
  isGenesisParent (b_parentHash b) = false ->
  CalcFee_from_params p ∈ calls ->
  from_params ext p = Ok None ->
  exists block pph v,
    getBlock api blockHash = Ok block
    /\ (if (1 <? Raw.number (Raw.header block))%N
        then exists hdr,
               getHeader api (Raw.parentHash (Raw.header block)) = Ok hdr
               /\ pph = Raw.parentHash hdr
        else pph = Raw.parentHash (Raw.header block))
    /\ getRuntimeVersion api pph = Ok v
    /\ fp_specName p = OfStr (specName v)
    /\ fp_specVersion p = OfNum (specVersion v)
    /\ (forall idx raw e,
          Raw.extrinsics block !! idx = Some raw ->
          b_extrinsics b !! idx = Some e ->
          Raw.isSigned raw = true ->
          paysFee e = Some true ->
          info e = InfoError ("Fee calculation not supported for "
                              +:+ specName v +:+ "#" +:+ pretty (specVersion v)))
    /\ Forall (fun c => isCalcFeeCall c = false) calls.
Proof.
  intros Hrun Hng Hin Hnone.
  apply fetchBlock_Ok in Hrun
    as (block & attributed & t0 & Hb & Hsan & (l0 & -> & Hl0) & Hpar & Hrest).
  rewrite Hpar in Hng. rewrite Hng in Hrest.
  destruct Hrest as (fee & t1 & Hc & Hloop).
  apply sanitizeEvents_lookup in Hsan as [Hlen Hat].
  rewrite extractExtrinsics_length in Hlen.
  destruct (feeLoop_calls ext api fee block (length (Raw.extrinsics block)) 0
              (at_extrinsics attributed) t1 eq_refl Hlen)
    as (l2 & exts' & Hrun2 & _ & Hl2).
  rewrite Hloop in Hrun2. injection Hrun2 as Ht _.
  assert (forall c, c ∈ l0 -> forall q, c <> CalcFee_from_params q) as Hl0'.
  { intros c Hc0 q ->. rewrite Forall_forall in Hl0. by apply Hl0 in Hc0. }
  assert (forall c, c ∈ l2 -> forall q, c <> CalcFee_from_params q) as Hl2'.
  { intros c Hc2 q Heq. rewrite Forall_forall in Hl2.
    apply Hl2 in Hc2 as (handle & w & len & Hx & _). congruence. }
  destruct (createCalcFee_Ok_cases _ _ _ _ _ Hc) as [[_ Ht1]|Hnd].
  { exfalso. rewrite Ht1, <- !app_assoc in Ht. apply app_inv_head in Ht.
    subst calls. rewrite !elem_of_app, list_elem_of_singleton in Hin.
    destruct Hin as [Hin|[[=]|Hin]].
    - by eapply Hl0'.
    - by eapply Hl2'. }
  destruct (createCalcFee_supported_full ext api _ _ _ _ _ Hc Hnd)
    as (perByte & tp & w2f & mult_at & pph & v & mult & bw & h & _ & _ & _ & _
        & _ & Hpph & Hv & _ & Hh & Hfee & Ht1).
  simpl in Hh, Hfee, Ht1.
  rewrite Ht1, <- !app_assoc in Ht. apply app_inv_head in Ht. subst calls.
  assert (p = mkFeeParams (coefficientsOf w2f) (Z.of_N bw) (pretty mult)
                (if (Raw.number (Raw.header block) <? historical_height)%N
                 then historical_perByte else pretty perByte)
                (OfStr (specName v)) (OfNum (specVersion v))) as ->.
  { assert (CalcFee_from_params p ∈ l0 \/ CalcFee_from_params p ∈ l2
            \/ p = mkFeeParams (coefficientsOf w2f) (Z.of_N bw) (pretty mult)
                     (if (Raw.number (Raw.header block) <? historical_height)%N
                      then historical_perByte else pretty perByte)
                     (OfStr (specName v)) (OfNum (specVersion v)))
      as [Hc0|[Hc2|Hp]]; [|exfalso; by eapply Hl0'|exfalso; by eapply Hl2'|done].
    destruct (1 <? _)%N, (versionDiffers api v);
      repeat (rewrite elem_of_app in Hin || rewrite elem_of_cons in Hin
              || rewrite elem_of_nil in Hin);
      intuition (simplify_eq; auto). }
  rewrite Hnone in Hh. injection Hh as <-.
  exists block, pph, v. do 5 (split; [done|]). split.
  - intros idx raw e Hraw He Hsigned Hpays.
    apply feeLoop_Ok in Hloop; [|done]. rewrite Hloop in He.
    rewrite lookup_zip_with, Hraw in He. simpl in He.
    destruct (at_extrinsics attributed !! idx) as [e1|]; [|done].
    simpl in He. injection He as <-.
    rewrite annotate_paysFee in Hpays.
    unfold annotate. rewrite Hsigned, bool_decide_true by done.
    rewrite Hfee. simpl. done.
  - assert (l2 = []) as ->.
    { destruct l2 as [|c l2]; [done|]. exfalso.
      apply Forall_cons in Hl2 as [(handle & w & len & _ & Hx) _].
      by rewrite Hfee in Hx. }
    rewrite app_nil_r. apply Forall_app. split.
    + eapply Forall_impl; [exact Hl0|]. intros c Hcf. by destruct c.
    + repeat (apply Forall_app; split);
        repeat match goal with |- context [if ?c then _ else _] => destruct c end;
        repeat constructor.
Qed.

End Unsupported.

Section FetchMore.
Variable ext : Externals.
Variable api : ApiPromise.

(** The calls of the first [Promise.all] of [fetchBlock]. *)
Lemma fetchBlock_fetch_calls blockHash t :
  exists out,
    fetchBlock_fetch api blockHash t
    = (t ++ [rpc_chain_getBlock blockHash; query_system_events_at blockHash]
         ++ match session_validators_at api with
            | Some _ => [query_session_validators_at blockHash]
            | None => []
            end, out)
    /\ match out with
       | Ok (block, evs, sv) =>
           getBlock api blockHash = Ok block
           /\ evs = fetched_events api blockHash
           /\ match session_validators_at api with
              | Some validators_at => exists l, validators_at blockHash = Ok l
                                                /\ sv = Some l
              | None => sv = None
              end
       | Throw _ =>
           (exists e, getBlock api blockHash = Throw e)
           \/ (exists validators_at e,
                 session_validators_at api = Some validators_at
                 /\ validators_at blockHash = Throw e)
       end.
Proof.
  unfold fetchBlock_fetch, fetched_events, fetchEvents.
  unfold mbind, M_bind, bind, promise_all2, try_catch, fmap, M_fmap, bind, await, ret.
  destruct (session_validators_at api) as [validators_at|].
  - destruct (getBlock api blockHash) as [block|] eqn:Hb,
      (system_events_at api blockHash) as [rs|],
      (validators_at blockHash) as [sv|] eqn:Hsv;
      (eexists; rewrite <- !app_assoc; split; [reflexivity|]; simpl; eauto 10).
  - destruct (getBlock api blockHash) as [block|] eqn:Hb,
      (system_events_at api blockHash) as [rs|];
      (eexists; rewrite <- !app_assoc; split; [reflexivity|]; simpl; eauto 10).
Qed.

Lemma createCalcFee_fee_calls parentHash block :
  emits (fun c => isFeeCall c = true) (fun _ => True)
    (createCalcFee ext api parentHash block).
Proof.
  unfold createCalcFee.
  eapply (emits_bind _ (fun _ => True)); [emits_any| |done].
  intros bwe _.
  destruct (perByte_const api), bwe, (nextFeeMultiplier_at api); emits_any.
Qed.

(** X12. [fetchBlock] always starts with the block and the events asked at
    the requested hash, and the session validators too when the node has
    that query, whatever any of them answers. When the block or the
    validators cannot be fetched it rejects without any further call. *)
Theorem fetch_stage_asks_everything_at_the_hash blockHash ed xd t :
  exists rest out,
    fetchBlock ext api blockHash ed xd t
    = (t ++ [rpc_chain_getBlock blockHash; query_system_events_at blockHash]
         ++ match session_validators_at api with
            | Some _ => [query_session_validators_at blockHash]
            | None => []
            end ++ rest, out)
    /\ Forall (fun c => isFeeCall c = true) rest
    /\ (forall e, getBlock api blockHash = Throw e ->
                  rest = [] /\ exists e', out = Throw e')
    /\ (forall validators_at e,
          session_validators_at api = Some validators_at ->
          validators_at blockHash = Throw e ->
          rest = [] /\ exists e', out = Throw e').
Proof.
  destruct (fetchBlock_fetch_calls blockHash t) as (o & Hf & Ho).
  unfold fetchBlock. rewrite bind_run, Hf.
  destruct o as [[[block evs] sv]|err].
  - destruct Ho as (Hb & -> & Hsv).
    unfold fetchBlock_assemble. rewrite bind_run. unfold lift.
    set (t0 := t ++ _).
    destruct (sanitizeEvents ext _ _ blockHash ed) as [attributed|] eqn:Hsan.
    2:{ exists [], (Throw e). subst t0. rewrite app_nil_r.
        split; [done|]. split; [done|]. split.
        - intros e0 He0. congruence.
        - intros validators_at e0 Hva He0. rewrite Hva in Hsv.
          destruct Hsv as (l & Hl & _). congruence. }
    assert (exists rest out,
              (if isGenesisParent (Raw.parentHash (Raw.header block))
               then ret (mkIBlock (Raw.number (Raw.header block)) blockHash
                           (Raw.parentHash (Raw.header block))
                           (Raw.stateRoot (Raw.header block))
                           (Raw.extrinsicsRoot (Raw.header block))
                           (sv ≫= fun s => extractAuthor ext s
                                             (Raw.digest (Raw.header block)))
                           (Raw.digest (Raw.header block))
                           (at_onInitialize attributed) (at_extrinsics attributed)
                           (at_onFinalize attributed))
               else
                 fee ← createCalcFee ext api (Raw.parentHash (Raw.header block)) block;
                 extrinsics ← feeLoop ext api fee block
                                (length (Raw.extrinsics block)) 0
                                (at_extrinsics attributed);
                 ret (mkIBlock (Raw.number (Raw.header block)) blockHash
                        (Raw.parentHash (Raw.header block))
                        (Raw.stateRoot (Raw.header block))
                        (Raw.extrinsicsRoot (Raw.header block))
                        (sv ≫= fun s => extractAuthor ext s
                                          (Raw.digest (Raw.header block)))
                        (Raw.digest (Raw.header block))
                        (at_onInitialize attributed) extrinsics
                        (at_onFinalize attributed))) t0
              = (t0 ++ rest, out)
              /\ Forall (fun c => isFeeCall c = true) rest)
      as (rest & out & Hrun & Hrest).
    { destruct (isGenesisParent _).
      - exists [], (Ok (mkIBlock (Raw.number (Raw.header block)) blockHash
                          (Raw.parentHash (Raw.header block))
                          (Raw.stateRoot (Raw.header block))
                          (Raw.extrinsicsRoot (Raw.header block))
                          (sv ≫= fun s => extractAuthor ext s
                                            (Raw.digest (Raw.header block)))
                          (Raw.digest (Raw.header block))
                          (at_onInitialize attributed) (at_extrinsics attributed)
                          (at_onFinalize attributed))).
        unfold ret. by rewrite app_nil_r.
      - rewrite bind_run.
        destruct (createCalcFee_fee_calls (Raw.parentHash (Raw.header block))
                    block t0) as (l1 & r1 & Hc & Hl1 & _).
        rewrite Hc. destruct r1 as [fee|err].
        + rewrite bind_run.
          apply sanitizeEvents_lookup in Hsan as [Hlen _].
          rewrite extractExtrinsics_length in Hlen.
          destruct (feeLoop_calls ext api fee block (length (Raw.extrinsics block)) 0
                      (at_extrinsics attributed) (t0 ++ l1) eq_refl Hlen)
            as (l2 & exts' & Hrun2 & _ & Hl2).
          rewrite Hrun2. unfold ret. eexists (l1 ++ l2), _.
          rewrite app_assoc. split; [reflexivity|].
          apply Forall_app. split.
          * exact Hl1.
          * eapply Forall_impl; [exact Hl2|].
            by intros c (handle & w & len & -> & _).
        + by exists l1, (Throw err). }
    exists rest, out. split.
    { rewrite Hrun. subst t0. rewrite <- (app_assoc t). reflexivity. }
    split; [done|]. split.
    + intros e0 He0. congruence.
    + intros validators_at e0 Hva He0. rewrite Hva in Hsv.
      destruct Hsv as (l & Hl & _). congruence.
  - exists [], (Throw err). rewrite app_nil_r.
    split; [done|]. split; [done|].
    destruct Ho as [[e He]|(validators_at & e & Hva & He)].
    + split; [eauto|]. intros; eauto.
    + split; intros; eauto.
Qed.

End FetchMore.

Section FetchOutcome.
Variable ext : Externals.
Variable api : ApiPromise.

(** X13. A failure of the events query alone never makes [fetchBlock]
    reject: if it rejects, then the block or the validators could not be
    fetched, or [createCalcFee] threw on a block that is not the genesis
    block. When it returns, both [onInitialize] and [onFinalize] are
    empty. *)
Theorem events_failure_is_never_fatal blockHash ed xd t t' out err :
  system_events_at api blockHash = Throw err ->
  fetchBlock ext api blockHash ed xd t = (t', out) ->
  match out with
  | Ok b => b_onInitialize b = [] /\ b_onFinalize b = []
  | Throw e =>
      (exists e', getBlock api blockHash = Throw e')
      \/ (exists validators_at e',
            session_validators_at api = Some validators_at
            /\ validators_at blockHash = Throw e')
      \/ (exists block t0 t1,
            getBlock api blockHash = Ok block
            /\ isGenesisParent (Raw.parentHash (Raw.header block)) = false
            /\ createCalcFee ext api (Raw.parentHash (Raw.header block)) block t0
               = (t1, Throw e))
  end.
Proof.
  intros Hev Hrun.
  assert (fetched_events api blockHash = inr fetchEvents_message) as Hfe.
  { unfold fetched_events. by rewrite Hev. }
  destruct out as [b|e].
  - apply fetchBlock_Ok_fields in Hrun
      as (block & attributed & _ & Hsan & _ & _ & _ & _ & _ & _ & -> & -> & _).
    rewrite Hfe in Hsan. unfold sanitizeEvents in Hsan. by injection Hsan as <-.
  - destruct (fetchBlock_fetch_calls api blockHash t) as (o & Hf & Ho).
    unfold fetchBlock in Hrun. rewrite bind_run, Hf in Hrun.
    destruct o as [[[block evs] sv]|e0].
    2:{ destruct Ho as [He|He]; eauto. }
    destruct Ho as (Hb & -> & _). right. right.
    unfold fetchBlock_assemble in Hrun. rewrite bind_run in Hrun.
    unfold lift in Hrun. rewrite Hfe in Hrun. unfold sanitizeEvents in Hrun.
    destruct (isGenesisParent (Raw.parentHash (Raw.header block))) eqn:Hg.
    { unfold ret in Hrun. by simplify_eq. }
    rewrite bind_run in Hrun.
    destruct (createCalcFee ext api _ block _) as [t1 [fee|e1]] eqn:Hc.
    2:{ injection Hrun as <- <-. eauto 10. }
    rewrite bind_run in Hrun. simpl in Hrun.
    destruct (feeLoop_calls ext api fee block (length (Raw.extrinsics block)) 0
                (extractExtrinsics ext block (inr fetchEvents_message) xd) t1
                eq_refl (extractExtrinsics_length _ _ _ _))
      as (l2 & exts' & Hrun2 & _).
    rewrite Hrun2 in Hrun. unfold ret in Hrun. by simplify_eq.
Qed.

Lemma head_filter_find (ty : string) (digest : list Raw.DigestItem) :
  match filter (fun l => Raw.type l = ty) digest with
  | item :: _ => Some item
  | [] => None
  end = digestItemOfType ty digest.
Proof.
  unfold digestItemOfType. induction digest as [|x digest IH]; [done|].
  rewrite filter_cons. simpl. case_bool_decide; [by rewrite decide_True|].
  by rewrite decide_False.
Qed.

(** X14. The author of an assembled block: none when the node has no
    [session.validators] query; otherwise it is extracted, with the
    validators asked at the block's hash, by the engine of the first
    [PreRuntime] item of the header's digest, wherever it stands, and only
    when there is no such item by the engine of the first [Consensus] item;
    a digest with neither gives no author. The logs are the digest. *)
Theorem author_comes_from_first_preruntime_item blockHash ed xd t t' b :
  fetchBlock ext api blockHash ed xd t = (t', Ok b) ->
  exists block,
    getBlock api blockHash = Ok block
    /\ b_logs b = Raw.digest (Raw.header block)
    /\ match session_validators_at api with
       | None => b_authorId b = None
       | Some validators_at =>
           exists sv,
             validators_at blockHash = Ok sv
             /\ b_authorId b =
                  match digestItemOfType "PreRuntime" (Raw.digest (Raw.header block)) with
                  | Some item =>
                      engine_extractAuthor ext (fst (Raw.value item))
                        (snd (Raw.value item)) sv
                  | None =>
                      match digestItemOfType "Consensus"
                              (Raw.digest (Raw.header block)) with
                      | Some item =>
                          engine_extractAuthor ext (fst (Raw.value item))
                            (snd (Raw.value item)) sv
                      | None => None
                      end
                  end
       end.
Proof.
  intros Hrun.
  destruct (fetchBlock_fetch_calls api blockHash t) as (o & Hf & Ho).
  unfold fetchBlock in Hrun. rewrite bind_run, Hf in Hrun.
  destruct o as [[[block evs] sv]|e0]; [|done].
  destruct Ho as (Hb & -> & Hsv). exists block. split; [done|].
  assert (b_logs b = Raw.digest (Raw.header block)
          /\ b_authorId b
             = sv ≫= fun s => extractAuthor ext s (Raw.digest (Raw.header block)))
    as [Hlogs Hauthor].
  { unfold fetchBlock_assemble in Hrun. rewrite bind_run in Hrun.
    unfold lift in Hrun.
    destruct (sanitizeEvents ext _ _ blockHash ed) as [attributed|]; [|done].
    destruct (isGenesisParent _).
    - unfold ret in Hrun. by simplify_eq.
    - rewrite bind_run in Hrun.
      destruct (createCalcFee ext api _ block _) as [t1 [fee|]]; [|done].
      rewrite bind_run in Hrun.
      destruct (feeLoop ext api fee block _ 0 _ t1) as [t2 [exts|]]; [|done].
      unfold ret in Hrun. by simplify_eq. }
  split; [done|].
  destruct (session_validators_at api) as [validators_at|].
  - destruct Hsv as (l & Hl & ->). exists l. split; [done|].
    rewrite Hauthor. simpl. unfold extractAuthor.
    rewrite <- !head_filter_find.
    destruct (filter (fun l0 => Raw.type l0 = "PreRuntime") _); [|done].
    by destruct (filter (fun l0 => Raw.type l0 = "Consensus") _).
  - by rewrite Hauthor, Hsv.
Qed.

End FetchOutcome.

Section ParserMore.
Variable registry : Registry.

Lemma keys_of_parsed (callArgs : list (string * Codec))
    (newArgs : list (string * SanitizedArg)) :
  length newArgs = length callArgs ->
  (forall i k a, callArgs !! i = Some (k, a) ->
                 exists v, newArgs !! i = Some (k, v)) ->
  map fst newArgs = map fst callArgs.
Proof.
  intros Hlen Hall. apply list_eq. intros i.
  change (map fst ?l) with (fst <$> l). rewrite !list_lookup_fmap.
  destruct (callArgs !! i) as [[k a]|] eqn:Hi.
  - destruct (Hall i k a Hi) as [v ->]. done.
  - apply lookup_ge_None in Hi. rewrite <- Hlen in Hi.
    apply lookup_ge_None in Hi. by rewrite Hi.
Qed.

(** X15. Every parse that returns, whatever the decoder does, returns a
    call labelled with the pallet and the method of the call, with one
    argument for each key of the call's argument struct, under the same keys
    in the same order, and none for a call without argument struct. With a
    registry the parse does return, with any fuel from [call_size] on, and
    what it returns is [parseGenericCall]. *)
Theorem parsed_call_keeps_labels_and_keys (genericCall : GenericCall) :
  (forall (decode : Decoder) fuel r,
     parse_fuel decode fuel genericCall = Some r ->
     sc_method r
     = mkFrameMethod (Codec.section genericCall) (Codec.method genericCall)
     /\ map fst (sc_args r) = map fst (default [] (Codec.args genericCall)))
  /\ (forall fuel,
        call_size (rank registry) genericCall <= fuel ->
        parse_fuel (createCall registry) fuel genericCall
        = Some (parseGenericCall registry genericCall))
  /\ sc_method (parseGenericCall registry genericCall)
     = mkFrameMethod (Codec.section genericCall) (Codec.method genericCall)
  /\ map fst (sc_args (parseGenericCall registry genericCall))
     = map fst (default [] (Codec.args genericCall)).
Proof.
  assert (forall (decode : Decoder) fuel r,
            parse_fuel decode fuel genericCall = Some r ->
            sc_method r
            = mkFrameMethod (Codec.section genericCall) (Codec.method genericCall)
            /\ map fst (sc_args r) = map fst (default [] (Codec.args genericCall)))
    as Hany.
  { intros decode fuel r Hr.
    apply parse_fuel_Some in Hr as (m & -> & Hm & Hr). split; [done|].
    destruct (Codec.args genericCall) as [callArgs|]; simpl; [|by rewrite Hr].
    destruct Hr as [Hlen Hr]. apply keys_of_parsed; [done|].
    intros i k a Hi. destruct (Hr i k a Hi) as (v & _ & Hv). eauto. }
  split; [exact Hany|]. split.
  - intros fuel Hfuel. by apply parse_fuel_stable.
  - apply (Hany (createCall registry) (call_size (rank registry) genericCall)).
    by apply parse_fuel_stable.
Qed.

(** X16. An array argument comes out as an array of the same length: the
    elements that are calls are parsed, one level deeper, and every other
    element is left as it is, be it an array that holds calls or bytes that
    would decode to a call. This holds of every parse that returns, whatever
    the decoder does; with a registry it holds of [parseGenericCall]. *)
Theorem array_argument_parses_only_its_calls (genericCall : GenericCall)
    (callArgs : list (string * Codec)) (i : nat) (paramName : string)
    (argsArray : list Codec) :
  Codec.args genericCall = Some callArgs ->
  callArgs !! i = Some (paramName, CArray argsArray) ->
  (forall (decode : Decoder) fuel r,
     parse_fuel decode fuel genericCall = Some r ->
     exists parsed,
       sc_args r !! i = Some (paramName, SArray parsed)
       /\ length parsed = length argsArray
       /\ (forall j call,
             argsArray !! j = Some (CCall call) ->
             exists r', parse_fuel decode (pred fuel) call = Some r'
                        /\ parsed !! j = Some (inr r'))
       /\ (forall j argument,
             argsArray !! j = Some argument ->
             (forall call, argument <> CCall call) ->
             parsed !! j = Some (inl argument)))
  /\ exists parsed,
       sc_args (parseGenericCall registry genericCall) !! i
       = Some (paramName, SArray parsed)
       /\ length parsed = length argsArray
       /\ (forall j call, argsArray !! j = Some (CCall call) ->
                          parsed !! j = Some (inr (parseGenericCall registry call)))
       /\ (forall j argument, argsArray !! j = Some argument ->
                              (forall call, argument <> CCall call) ->
                              parsed !! j = Some (inl argument)).
Proof.
  intros Hargs Hi. split.
  - intros decode fuel r Hr.
    apply parse_fuel_Some in Hr as (m & -> & _ & Hr). rewrite Hargs in Hr.
    destruct Hr as [_ Hr]. destruct (Hr i _ _ Hi) as (v & Hv & Hlook).
    simpl in Hv. apply fmap_Some in Hv as (parsed & Hp & ->).
    apply mapM_Some in Hp. exists parsed. split; [done|].
    split; [symmetry; by eapply Forall2_length|]. split.
    + intros j call Hj.
      destruct (Forall2_lookup_l _ _ _ _ _ Hp Hj) as (y & Hy & Hf).
      simpl in Hf. apply fmap_Some in Hf as (r' & Hr' & ->). eauto.
    + intros j argument Hj Hn.
      destruct (Forall2_lookup_l _ _ _ _ _ Hp Hj) as (y & Hy & Hf).
      destruct argument as [l|call|rt b]; [|by destruct (Hn call)|];
        by injection Hf as <-.
  - rewrite parseGenericCall_eq, Hargs. simpl.
    change (map ?f callArgs) with (f <$> callArgs).
    rewrite list_lookup_fmap, Hi. simpl. eexists. split; [reflexivity|].
    split; [by rewrite length_map|].
    split.
    + intros j call Hj. change (map ?f argsArray) with (f <$> argsArray).
      by rewrite list_lookup_fmap, Hj.
    + intros j argument Hj Hn. change (map ?f argsArray) with (f <$> argsArray).
      rewrite list_lookup_fmap, Hj. simpl.
      destruct argument as [l|call|rt b]; [done| |done]. by destruct (Hn call).
Qed.

(** X17. An argument that is neither an array nor a call is handed to the
    registry only if it is named [call] and its raw type is [Bytes]: any
    other one is passed through as it is, whatever the decoder would make of
    its bytes. This holds of every parse that returns, whatever the decoder
    does; with a registry it holds of [parseGenericCall]. *)
Theorem plain_argument_is_passed_through (genericCall : GenericCall)
    (callArgs : list (string * Codec)) (i : nat) (paramName rawType : string)
    (u8a : list Byte.byte) :
  Codec.args genericCall = Some callArgs ->
  callArgs !! i = Some (paramName, CValue rawType u8a) ->
  paramName <> "call" \/ rawType <> "Bytes" ->
  (forall (decode : Decoder) fuel r,
     parse_fuel decode fuel genericCall = Some r ->
     sc_args r !! i = Some (paramName, SCodec (CValue rawType u8a)))
  /\ sc_args (parseGenericCall registry genericCall) !! i
     = Some (paramName, SCodec (CValue rawType u8a)).
Proof.
  intros Hargs Hi Hn.
  assert (String.eqb paramName "call" && String.eqb rawType "Bytes" = false)
    as Htest.
  { destruct (String.eqb_spec paramName "call") as [->|_];
      destruct (String.eqb_spec rawType "Bytes") as [->|_]; simpl; try done.
    by destruct Hn. }
  assert (forall (decode : Decoder) fuel r,
            parse_fuel decode fuel genericCall = Some r ->
            sc_args r !! i = Some (paramName, SCodec (CValue rawType u8a)))
    as Hany.
  { intros decode fuel r Hr.
    apply parse_fuel_Some in Hr as (m & -> & _ & Hr). rewrite Hargs in Hr.
    destruct Hr as [_ Hr]. destruct (Hr i _ _ Hi) as (v & Hv & Hlook).
    simpl in Hv. rewrite Htest in Hv. by injection Hv as <-. }
  split; [exact Hany|].
  apply (Hany (createCall registry) (call_size (rank registry) genericCall)).
  by apply parse_fuel_stable.
Qed.

End ParserMore.

(** ** The staking endpoint *)

Section StakingFacts.
Variable api : Staking.StakingApi.

Lemma andThen_run {A B : Type} (m : Staking.Task A) (k : A -> Staking.Task B) w :
  (m ≫= k) w = match m w with
               | (w', Staking.Fulfilled a) => k a w'
               | (w', Staking.RejectedWith e) => (w', Staking.RejectedWith e)
               end.
Proof. reflexivity. Qed.

Lemma alter_push_push (ref : Staking.Ref) (xs ys : list Staking.IErasRewardPoint)
    (store : list (list Staking.IErasRewardPoint)) :
  alter (fun l => l ++ ys) ref (alter (fun l => l ++ xs) ref store)
  = alter (fun l => l ++ (xs ++ ys)) ref store.
Proof.
  rewrite list_alter_alter_eq. apply list_alter_ext; [|done].
  intros l _. simpl. by rewrite <- app_assoc.
Qed.

Lemma pushValidators_run ref entries w :
  Staking.pushValidators ref entries w
  = (Staking.mkWorld (Staking.calls w)
       (alter (fun l => l ++ map (fun kv => Staking.mkPoint (fst kv)) entries)
          ref (Staking.arrays w)),
     Staking.Fulfilled tt).
Proof.
  revert w. induction entries as [|[id pts] rest IH]; intros w; simpl.
  - unfold Staking.resolve. destruct w as [c a]. simpl.
    rewrite list_alter_id; [done|]. intros l. by rewrite app_nil_r.
  - rewrite andThen_run. unfold Staking.push. rewrite IH. simpl.
    by rewrite (alter_push_push ref [Staking.mkPoint id]).
Qed.

(** The era loop when the two calls of its body answer. *)
Lemma eraLoop_fulfilled hash era ref idx rp turns e acc w :
  Staking.createType_EraIndex api era = Staking.Fulfilled idx ->
  Staking.erasRewardPoints_at api hash era = Staking.Fulfilled rp ->
  Staking.eraLoop api hash era ref turns e acc w
  = (let n := min turns (Z.to_nat (era - e + 1)) in
     (Staking.mkWorld
        (Staking.calls w
           ++ replicate n (Staking.query_staking_erasRewardPoints_at hash era))
        (alter (fun l => l ++ mjoin (replicate n (Staking.validatorsOf rp)))
           ref (Staking.arrays w)),
      Staking.Fulfilled
        (acc ++ replicate n (Staking.mkPoints idx (Staking.total rp) ref)))).
Proof.
  intros Hidx Hrp. revert e acc w.
  induction turns as [|turns IH]; intros e acc w; simpl.
  - unfold Staking.resolve. destruct w as [c a]. simpl.
    rewrite !app_nil_r. rewrite list_alter_id; [done|].
    intros l. by rewrite app_nil_r.
  - destruct (Z.leb_spec e era) as [Hle|Hgt].
    + rewrite andThen_run. unfold Staking.attempt. rewrite Hidx.
      rewrite andThen_run. unfold Staking.request. rewrite Hrp.
      rewrite andThen_run, pushValidators_run. simpl. rewrite IH. simpl.
      replace (Z.to_nat (era - e + 1)) with (S (Z.to_nat (era - (e + 1) + 1)))
        by lia.
      simpl. rewrite alter_push_push, <- !app_assoc. done.
    + replace (Z.to_nat (era - e + 1)) with 0 by lia. simpl.
      unfold Staking.resolve. destruct w as [c a]. simpl.
      rewrite !app_nil_r. rewrite list_alter_id; [done|].
      intros l. by rewrite app_nil_r.
Qed.

(** The era loop when there is nothing to do. *)
Lemma eraLoop_idle hash era ref turns e acc w :
  min turns (Z.to_nat (era - e + 1)) = 0 ->
  Staking.eraLoop api hash era ref turns e acc w = (w, Staking.Fulfilled acc).
Proof.
  intros Hn. destruct turns as [|turns]; [done|]. simpl.
  destruct (Z.leb_spec e era) as [Hle|Hgt]; [lia|done].
Qed.

(** A turn of the loop that ends well had its two calls answered. *)
Lemma eraLoop_answers hash era ref turns e acc w w' entries :
  min turns (Z.to_nat (era - e + 1)) <> 0 ->
  Staking.eraLoop api hash era ref turns e acc w = (w', Staking.Fulfilled entries) ->
  exists idx rp,
    Staking.createType_EraIndex api era = Staking.Fulfilled idx
    /\ Staking.erasRewardPoints_at api hash era = Staking.Fulfilled rp.
Proof.
  intros Hn. destruct turns as [|turns]; [done|]. simpl.
  destruct (Z.leb_spec e era) as [Hle|Hgt]; [|lia].
  rewrite andThen_run. unfold Staking.attempt.
  destruct (Staking.createType_EraIndex api era) as [idx|]; [|done].
  rewrite andThen_run. unfold Staking.request.
  destruct (Staking.erasRewardPoints_at api hash era) as [rp|]; [|done].
  eauto.
Qed.

(** What a fulfilled [fetchErasRewardPoints] went through. *)
Lemma fetchErasRewardPoints_fulfilled hash depth era currentEra w w' entries :
  Staking.fetchErasRewardPoints api hash depth era currentEra w
  = (w', Staking.Fulfilled entries) ->
  let n := Z.to_nat (era - Staking.startEra depth era + 1) in
  exists historyDepth,
    Staking.historyDepth_at api hash = Staking.Fulfilled historyDepth
    /\ (depth <= Z.of_N historyDepth)%Z
    /\ (Z.of_N currentEra - Z.of_N historyDepth <= era - (depth - 1))%Z
    /\ Staking.calls w'
       = Staking.calls w
           ++ Staking.query_staking_historyDepth_at hash
              :: replicate n (Staking.query_staking_erasRewardPoints_at hash era)
    /\ length entries = n
    /\ ((n = 0 /\ entries = [] /\ Staking.arrays w' = Staking.arrays w ++ [[]])
        \/ exists idx rp,
             Staking.createType_EraIndex api era = Staking.Fulfilled idx
             /\ Staking.erasRewardPoints_at api hash era = Staking.Fulfilled rp
             /\ entries = replicate n (Staking.mkPoints idx (Staking.total rp)
                                         (length (Staking.arrays w)))
             /\ Staking.arrays w'
                = Staking.arrays w
                    ++ [mjoin (replicate n (Staking.validatorsOf rp))]).
Proof.
  intros H n. unfold Staking.fetchErasRewardPoints in H.
  rewrite andThen_run in H. unfold Staking.request in H.
  destruct (Staking.historyDepth_at api hash) as [historyDepth|]; [|done].
  exists historyDepth. split; [done|].
  destruct (Z.ltb_spec (Z.of_N historyDepth) depth) as [|Hd]; [done|].
  destruct (Z.ltb_spec (era - (depth - 1)) (Z.of_N currentEra - Z.of_N historyDepth))
    as [|Hwin]; [done|].
  split; [done|]. split; [done|].
  rewrite andThen_run in H. unfold Staking.newArray in H. simpl in H.
  fold n in H.
  assert (min n (Z.to_nat (era - Staking.startEra depth era + 1)) = n) as Hmin
    by apply Nat.min_id.
  destruct (decide (n = 0)) as [Hn|Hn].
  - rewrite eraLoop_idle in H by (by rewrite Hmin). injection H as <- <-. simpl.
    rewrite Hn. simpl. split; [done|]. split; [done|]. left. done.
  - pose proof H as H'.
    apply eraLoop_answers in H' as (idx & rp & Hidx & Hrp); [|by rewrite Hmin].
    rewrite (eraLoop_fulfilled _ _ _ idx rp) in H by done.
    rewrite Hmin in H. simpl in H. injection H as <- <-. simpl.
    rewrite <- app_assoc. split; [done|]. split; [by rewrite length_replicate|].
    right. exists idx, rp. split; [done|]. split; [done|]. split; [done|].
    rewrite <- (Nat.add_0_r (length (Staking.arrays w))) at 1.
    by rewrite alter_app_r.
Qed.


(** What a fulfilled [getEraAndHash] went through. *)
Lemma getEraAndHash_fulfilled era w w' r :
  Staking.getEraAndHash api era w = (w', Staking.Fulfilled r) ->
  exists head active current,
    Staking.getFinalizedHead api = Staking.Fulfilled head
    /\ Staking.activeEra api = Staking.Fulfilled (Some active)
    /\ (Staking.currentEra api
        = Staking.Fulfilled (Staking.IsOption (Some current))
        \/ Staking.currentEra api = Staking.Fulfilled (Staking.IsBN current))
    /\ (forall e, era = Some e -> (e <= Z.of_N active - 1)%Z)
    /\ r = Staking.mkEraAndHash head (default (Z.of_N active - 1)%Z era) current
    /\ w' = Staking.mkWorld
              (Staking.calls w
                 ++ [Staking.rpc_chain_getFinalizedHead;
                     Staking.query_staking_activeEra;
                     Staking.query_staking_currentEra])
              (Staking.arrays w).
Proof.
  intros H. unfold Staking.getEraAndHash in H. rewrite andThen_run in H.
  unfold Staking.all3, Staking.request in H. simpl in H.
  rewrite <- !app_assoc in H. simpl in H.
  destruct (Staking.getFinalizedHead api) as [h|]; [|by repeat case_match].
  destruct (Staking.activeEra api) as [[active|]|]; [| |by repeat case_match].
  2:{ by destruct (Staking.currentEra api). }
  exists h, active.
  destruct (Staking.currentEra api) as [[[n|]|n|]|]; try done;
    exists n; (split; [done|]); (split; [done|]); (split; [eauto|]);
    rewrite andThen_run in H; unfold Staking.resolve in H;
    (destruct era as [e|]; simpl;
     [destruct (Z.ltb_spec (Z.of_N active - 1) e) as [|Hle]; [done|]|]);
    injection H as <- <-; (split; [|done]); intros e'; by intros [= <-].
Qed.

(** X18. When [getEraAndHash] returns, it has asked the finalized head, the
    active era and the current era, once each; the hash is the finalized
    head; the era is the given one, or the era before the active one when
    none is given; either way it is not beyond the era before the active
    one. *)
Theorem era_argument_is_at_most_the_era_before_active era w w' r :
  Staking.getEraAndHash api era w = (w', Staking.Fulfilled r) ->
  exists active,
    Staking.activeEra api = Staking.Fulfilled (Some active)
    /\ Staking.getFinalizedHead api = Staking.Fulfilled (Staking.eh_hash r)
    /\ (Staking.currentEra api
        = Staking.Fulfilled (Staking.IsOption (Some (Staking.eh_currentEra r)))
        \/ Staking.currentEra api
           = Staking.Fulfilled (Staking.IsBN (Staking.eh_currentEra r)))
    /\ Staking.eh_eraArg r = default (Z.of_N active - 1)%Z era
    /\ (Staking.eh_eraArg r <= Z.of_N active - 1)%Z
    /\ Staking.calls w'
       = Staking.calls w
           ++ [Staking.rpc_chain_getFinalizedHead; Staking.query_staking_activeEra;
               Staking.query_staking_currentEra]
    /\ Staking.arrays w' = Staking.arrays w.
Proof.
  intros H. apply getEraAndHash_fulfilled in H
    as (head & active & current & Hh & Ha & Hc & Hle & -> & ->).
  exists active. simpl. do 4 (split; [done|]). split; [|done].
  destruct era as [e|]; simpl; [by apply Hle|lia].
Qed.


(** X20. [fetchErasRewardPoints] checks the depth, then the window, against
    the history depth asked at the given hash, before it asks for any
    reward points: a depth above the history depth, or else an oldest era
    [era - (depth - 1)] before [currentEra - historyDepth], is a
    [BadRequest] after that single query, and no array is made. *)
Theorem depth_and_window_are_checked_first hash depth era currentEra w historyDepth :
  Staking.historyDepth_at api hash = Staking.Fulfilled historyDepth ->
  (Z.of_N historyDepth < depth
   \/ era - (depth - 1) < Z.of_N currentEra - Z.of_N historyDepth)%Z ->
  Staking.fetchErasRewardPoints api hash depth era currentEra w
  = (Staking.mkWorld
       (Staking.calls w ++ [Staking.query_staking_historyDepth_at hash])
       (Staking.arrays w),
     Staking.RejectedWith
       (Staking.BadRequest
          (if (Z.of_N historyDepth <? depth)%Z
           then Staking.depth_message else Staking.window_message))).
Proof.
  intros Hhd Hbad. unfold Staking.fetchErasRewardPoints.
  rewrite andThen_run. unfold Staking.request. rewrite Hhd.
  destruct (Z.ltb_spec (Z.of_N historyDepth) depth) as [|Hd]; [done|].
  destruct (Z.ltb_spec (era - (depth - 1)) (Z.of_N currentEra - Z.of_N historyDepth))
    as [|Hwin]; [done|lia].
Qed.

(** X21. A fulfilled [fetchErasRewardPoints] passed both checks and returns
    one entry for each era from [startEra] to [era], none when [era] is
    below [startEra]. The loop variable is not used: every reward points
    query is made for [era] at the given hash, and every entry carries the
    index and the total of [era]. *)
Theorem every_entry_is_for_the_requested_era hash depth era currentEra w w' entries :
  Staking.fetchErasRewardPoints api hash depth era currentEra w
  = (w', Staking.Fulfilled entries) ->
  exists historyDepth,
    Staking.historyDepth_at api hash = Staking.Fulfilled historyDepth
    /\ (depth <= Z.of_N historyDepth)%Z
    /\ (Z.of_N currentEra - Z.of_N historyDepth <= era - (depth - 1))%Z
    /\ length entries = Z.to_nat (era - Staking.startEra depth era + 1)
    /\ Staking.calls w'
       = Staking.calls w
           ++ Staking.query_staking_historyDepth_at hash
              :: replicate (length entries)
                   (Staking.query_staking_erasRewardPoints_at hash era)
    /\ forall p, p ∈ entries ->
                 exists idx rp,
                   Staking.createType_EraIndex api era = Staking.Fulfilled idx
                   /\ Staking.erasRewardPoints_at api hash era = Staking.Fulfilled rp
                   /\ Staking.era p = idx
                   /\ Staking.totalEraRewardPoints p = Staking.total rp.
Proof.
  intros H. apply fetchErasRewardPoints_fulfilled in H
    as (historyDepth & Hhd & Hd & Hwin & Hcalls & Hlen & Hrest).
  exists historyDepth. do 4 (split; [done|]). rewrite Hlen. split; [done|].
  intros p Hp. destruct Hrest as [(_ & -> & _)|(idx & rp & Hidx & Hrp & -> & _)].
  - by apply elem_of_nil in Hp.
  - apply elem_of_replicate in Hp as [-> _]. by exists idx, rp.
Qed.

(** X22. The entries of a fulfilled [fetchErasRewardPoints] all refer to
    one array, made by the call, to which every turn of the loop has pushed
    the validators of [era]: each entry is sent with every validator of
    [era] listed as many times as there are entries. *)
Theorem entries_share_one_validator_array hash depth era currentEra w w' entries :
  Staking.fetchErasRewardPoints api hash depth era currentEra w
  = (w', Staking.Fulfilled entries) ->
  exists shared,
    Staking.arrays w' = Staking.arrays w ++ [shared]
    /\ (forall p, p ∈ entries ->
                  Staking.erasRewardPoint p = length (Staking.arrays w)
                  /\ Staking.sent w' p
                     = (Staking.era p, Staking.totalEraRewardPoints p, shared))
    /\ (forall rp,
          Staking.erasRewardPoints_at api hash era = Staking.Fulfilled rp ->
          shared = mjoin (replicate (length entries) (Staking.validatorsOf rp)))
    /\ (entries = [] -> shared = []).
Proof.
  intros H. apply fetchErasRewardPoints_fulfilled in H
    as (historyDepth & _ & _ & _ & _ & Hlen & Hrest).
  destruct Hrest as [(Hn & -> & Harr)|(idx & rp & Hidx & Hrp & Hent & Harr)].
  - exists []. split; [done|]. split.
    { intros p Hp. by apply elem_of_nil in Hp. }
    split; [|done]. intros rp _. done.
  - eexists. split; [exact Harr|]. split; [|split].
    + intros p Hp. rewrite Hent in Hp. apply elem_of_replicate in Hp as [-> _].
      simpl. split; [done|]. unfold Staking.sent. simpl. rewrite Harr.
      rewrite lookup_app_r by done. by rewrite Nat.sub_diag.
    + intros rp' Hrp'. rewrite Hrp in Hrp'. injection Hrp' as <-. by rewrite Hlen.
    + intros ->. simpl in Hlen. by rewrite <- Hlen.
Qed.

(** X23. The handler asks everything at the finalized head, for the given
    era or the era before the active one, with depth 1 unless one is given.
    A fulfilled request without parameters has one entry, and none at
    active era 0. *)
Theorem handler_queries_at_the_finalized_head depth era w w' entries :
  Staking.getErasRewardPoints api depth era w = (w', Staking.Fulfilled entries) ->
  exists head active,
    Staking.getFinalizedHead api = Staking.Fulfilled head
    /\ Staking.activeEra api = Staking.Fulfilled (Some active)
    /\ let eraArg := default (Z.of_N active - 1)%Z era in
       (eraArg <= Z.of_N active - 1)%Z
       /\ length entries
          = Z.to_nat (eraArg - Staking.startEra (default 1%Z depth) eraArg + 1)
       /\ Staking.calls w'
          = Staking.calls w
              ++ [Staking.rpc_chain_getFinalizedHead; Staking.query_staking_activeEra;
                  Staking.query_staking_currentEra;
                  Staking.query_staking_historyDepth_at head]
              ++ replicate (length entries)
                   (Staking.query_staking_erasRewardPoints_at head eraArg)
       /\ (depth = None -> era = None ->
           length entries = if (active =? 0)%N then 0 else 1).
Proof.
  intros H. unfold Staking.getErasRewardPoints in H. rewrite andThen_run in H.
  destruct (Staking.getEraAndHash api era w) as [w1 [r|]] eqn:Hr; [|done].
  apply getEraAndHash_fulfilled in Hr
    as (head & active & current & Hh & Ha & _ & Hbound & -> & ->).
  assert (default (Z.of_N active - 1) era <= Z.of_N active - 1)%Z as Hle.
  { destruct era as [e|]; simpl; [by apply Hbound|lia]. }
  apply fetchErasRewardPoints_fulfilled in H
    as (historyDepth & _ & _ & _ & Hcalls2 & Hlen & _).
  simpl in Hcalls2, Hlen.
  exists head, active. split; [done|]. split; [done|].
  simpl. split; [done|]. split; [done|]. split.
  - rewrite Hcalls2, Hlen, <- app_assoc. done.
  - intros -> ->. rewrite Hlen. simpl. unfold Staking.startEra.
    destruct (N.eqb_spec active 0) as [->|Hne]; [done|].
    destruct (Z.ltb_spec (Z.of_N active - 1 - (1 - 1)) 0); lia.
Qed.

End StakingFacts.

Section EventsMore.
Variable ext : Externals.
Variable api : ApiPromise.

(** X24. When the events were fetched, the events of each extrinsic of the
    assembled block are the fetched events of phase [ApplyExtrinsic] with
    its index, all of them and in the order of the stream, each with the
    pallet, the method and the data of the raw event, and with docs exactly
    when event docs were asked for. *)
Theorem events_of_an_extrinsic_are_those_of_its_phase blockHash ed xd t t' b records :
  system_events_at api blockHash = Ok records ->
  fetchBlock ext api blockHash ed xd t = (t', Ok b) ->
  forall idx e,
    b_extrinsics b !! idx = Some e ->
    events e
    = map (fun r =>
             {| se_method := mkFrameMethod (Raw.ev_section (Raw.event r))
                               (Raw.ev_method (Raw.event r));
                se_data := Raw.data (Raw.event r);
                se_docs := if ed
                           then Some (sanitizeDocs ext
                                        (Raw.ev_documentation (Raw.event r)))
                           else None |})
        (List.filter (appliesTo idx) records).
Proof.
  intros Hev H idx e He.
  apply assembled_lookup in H as (block & Hb & Hlen & Hall).
  destruct (lookup_lt_is_Some_2 (Raw.extrinsics block) idx) as [raw Hraw].
  { rewrite <- Hlen. by eapply lookup_lt_Some. }
  destruct (Hall idx raw e Hraw He) as (e0 & i & He0 & ->).
  unfold fetched_events in He0 |- *. rewrite Hev in He0 |- *.
  destruct (extractExtrinsics_lookup ext block (inl records) xd idx raw Hraw)
    as (e0' & He0' & _ & _ & Hevs & _).
  rewrite He0 in He0'. injection He0' as <-.
  destruct (applyAll_spec ext ed idx records e0) as (p & -> & _).
  simpl. by rewrite Hevs.
Qed.

(** X25. [fetchBlock] returns a block whenever the block and, where the
    node has the query, the validators can be fetched, every fetched event
    of an [ApplyExtrinsic] phase has the index of an extrinsic of the block,
    and, unless the parent hash is all zero, [createCalcFee] returns: the
    fee loop never throws. The block has the requested hash and one entry
    for each raw extrinsic. *)
Theorem fetchBlock_returns blockHash ed xd t block :
  getBlock api blockHash = Ok block ->
  (forall validators_at,
     session_validators_at api = Some validators_at ->
     exists sv, validators_at blockHash = Ok sv) ->
  (forall records r i,
     system_events_at api blockHash = Ok records ->
     r ∈ records -> Raw.phase r = Raw.ApplyExtrinsic i ->
     N.to_nat i < length (Raw.extrinsics block)) ->
  (isGenesisParent (Raw.parentHash (Raw.header block)) = false ->
   forall t0, exists t1 fee,
     createCalcFee ext api (Raw.parentHash (Raw.header block)) block t0
     = (t1, Ok fee)) ->
  exists t' b,
    fetchBlock ext api blockHash ed xd t = (t', Ok b)
    /\ b_hash b = blockHash
    /\ b_number b = Raw.number (Raw.header block)
    /\ length (b_extrinsics b) = length (Raw.extrinsics block).
Proof.
  intros Hb Hsv Hrange Hfee.
  assert (exists t' b, fetchBlock ext api blockHash ed xd t = (t', Ok b))
    as (t' & b & Hrun).
  { destruct (fetchBlock_fetch_Ok api blockHash block t Hb Hsv) as (t0 & sv & Hf).
    unfold fetchBlock. rewrite bind_run, Hf.
    unfold fetchBlock_assemble. rewrite bind_run. unfold lift.
    destruct (sanitizeEvents ext (fetched_events api blockHash) _ blockHash ed)
      as [attributed|err] eqn:Hsan.
    2:{ exfalso. unfold fetched_events in Hsan.
        destruct (system_events_at api blockHash) as [records|] eqn:Hev; [|done].
        simpl in Hsan.
        apply attributeEvents_Throw in Hsan as (r & i & Hin & Hph & Hle & _).
        simpl in Hle. rewrite extractExtrinsics_length in Hle.
        pose proof (Hrange records r i eq_refl Hin Hph). lia. }
    destruct (isGenesisParent _) eqn:Hg; [unfold ret; eauto|].
    rewrite bind_run.
    destruct (Hfee eq_refl t0) as (t1 & fee & ->).
    rewrite bind_run.
    apply sanitizeEvents_lookup in Hsan as [Hlen _].
    rewrite extractExtrinsics_length in Hlen.
    destruct (feeLoop_calls ext api fee block (length (Raw.extrinsics block)) 0
                (at_extrinsics attributed) t1 eq_refl Hlen)
      as (l2 & exts' & -> & _).
    unfold ret. eauto. }
  exists t', b. split; [done|].
  pose proof Hrun as Hrun'.
  apply fetchBlock_Ok_fields in Hrun
    as (block' & attributed & Hb' & _ & Hn & Hh & _).
  apply fetchBlock_extrinsic in Hrun' as (block'' & Hb'' & Hlen & _).
  rewrite Hb in Hb', Hb''. injection Hb' as <-. injection Hb'' as <-. done.
Qed.

End EventsMore.

(** ** The further properties on the sample chain *)

Lemma assembled_extrinsics_mirror_raw_witness :
  exists t' b,
    fetchBlock Sample.externals
      (Sample.api Sample.hashParent 10 (Ok [Sample.successEvent 1]))
      Sample.hashA false false [] = (t', Ok b)
    /\ length (b_extrinsics b) = 2
    /\ exists e, b_extrinsics b !! 1 = Some e
                 /\ method e = mkFrameMethod "balances" "transfer"
                 /\ nonce e = Some 7%N.
Proof.
  eexists _, _. split; [vm_compute; reflexivity|].
  destruct (assembled_extrinsics_mirror_raw Sample.externals
              (Sample.api Sample.hashParent 10 (Ok [Sample.successEvent 1]))
              Sample.hashA false false [] _ _ eq_refl)
    as (block & Hb & Hlen & H).
  injection Hb as <-. split; [exact Hlen|].
  eexists. split; [reflexivity|].
  destruct (H 1 Sample.balancesTransfer _ eq_refl eq_refl)
    as (Hm & _ & Hn & _).
  split; [exact Hm|exact Hn].
Defined.

Lemma every_event_is_filed_once_witness :
  exists t' b,
    fetchBlock Sample.externals
      (Sample.api Sample.hashParent 10
         (Ok [SampleMore.newSession; Sample.successEvent 1]))
      Sample.hashA false false [] = (t', Ok b)
    /\ length (b_onInitialize b) = 1
    /\ eventCount (b_onInitialize b) (b_onFinalize b) (b_extrinsics b) = 2.
Proof.
  eexists _, _. split; [vm_compute; reflexivity|].
  destruct (every_event_is_filed_once Sample.externals
              (Sample.api Sample.hashParent 10
                 (Ok [SampleMore.newSession; Sample.successEvent 1]))
              Sample.hashA false false [] _ _ _ eq_refl eq_refl)
    as (_ & _ & Hc).
  split; [reflexivity|exact Hc].
Defined.

Lemma paysFee_follows_last_sentinel_event_witness :
  exists t' b e,
    fetchBlock Sample.externals
      (Sample.api Sample.hashParent 10
         (Ok [Sample.failedEvent 1; Sample.successEvent 1]))
      Sample.hashA false false [] = (t', Ok b)
    /\ b_extrinsics b !! 1 = Some e
    /\ paysFee e = Some true.
Proof.
  eexists _, _, _. split; [vm_compute; reflexivity|].
  split; [reflexivity|].
  destruct (paysFee_follows_last_sentinel_event Sample.externals
              (Sample.api Sample.hashParent 10
                 (Ok [Sample.failedEvent 1; Sample.successEvent 1]))
              Sample.hashA false false [] _ _ _ eq_refl eq_refl)
    as (block & Hb & H).
  injection Hb as <-.
  destruct (H 1 Sample.balancesTransfer _ eq_refl eq_refl eq_refl) as [_ Hlast].
  apply (Hlast [Sample.failedEvent 1] (Sample.successEvent 1) [] true);
    [reflexivity|reflexivity|].
  intros r' Hr'. destruct (proj1 (elem_of_nil r') Hr').
Defined.

Lemma fee_info_only_on_signed_paying_witness :
  exists t' b e,
    fetchBlock Sample.externals
      (Sample.api Sample.hashParent 10 (Ok [Sample.successEvent 1]))
      Sample.hashA false false [] = (t', Ok b)
    /\ b_extrinsics b !! 1 = Some e
    /\ info e <> InfoEmpty
    /\ paysFee e = Some true
    /\ isGenesisParent (b_parentHash b) = false.
Proof.
  eexists _, _, _. split; [vm_compute; reflexivity|].
  split; [reflexivity|].
  destruct (fee_info_only_on_signed_paying Sample.externals
              (Sample.api Sample.hashParent 10 (Ok [Sample.successEvent 1]))
              Sample.hashA false false [] _ _ eq_refl)
    as (block & Hb & H).
  injection Hb as <-.
  assert (forall i, InfoDispatch i <> InfoEmpty) as Hne by discriminate.
  split; [apply Hne|].
  destruct (H 1 Sample.balancesTransfer _ eq_refl eq_refl (Hne _))
    as (_ & Hp & Hg & _).
  split; [exact Hp|exact Hg].
Defined.

Lemma completed_event_is_always_found_witness :
  exists t' b,
    fetchBlock Sample.externals
      (Sample.api Sample.hashParent 10 (Ok [Sample.successEvent 1]))
      Sample.hashA false false [] = (t', Ok b)
    /\ forall e, e ∈ b_extrinsics b ->
                 info e <> InfoError
                             "Unable to find success or failure event for extrinsic".
Proof.
  eexists _, _. split; [vm_compute; reflexivity|].
  exact (completed_event_is_always_found Sample.externals
           (Sample.api Sample.hashParent 10 (Ok [Sample.successEvent 1]))
           Sample.hashA false false [] _ _ (fun _ => eq_refl) eq_refl).
Defined.

Lemma fee_parameters_provenance_witness :
  exists t' r,
    createCalcFee Sample.externals (Sample.api Sample.hashParent 10 (Ok []))
      Sample.hashParent (Sample.block Sample.hashParent 10) [] = (t', Ok r)
    /\ exists p calls,
         t' = [] ++ calls
         /\ CalcFee_from_params p ∈ calls
         /\ fp_multiplier p = pretty 1000000000%Z
         /\ rpc_state_getRuntimeVersion Sample.hashGrandparent ∈ calls
         /\ forall h, query_transactionPayment_nextFeeMultiplier_at h ∈ calls ->
                      h = Sample.hashParent.
Proof.
  eexists _, _. split; [vm_compute; reflexivity|].
  assert (forall h, Some (WasmCalcFee h) <> Some DummyCalcFee) as Hnd
    by discriminate.
  destruct (fee_parameters_provenance Sample.externals
              (Sample.api Sample.hashParent 10 (Ok []))
              Sample.hashParent (Sample.block Sample.hashParent 10) [] _ _
              eq_refl (Hnd 0))
    as (p & tp & w2f & mult_at & mult & pph & v & calls & Ht & Hin & _ & _ & _
        & Hm & Hmult & Hfm & Hat & Hpph & _ & Hrv & _).
  simpl in Hm. injection Hm as <-. injection Hmult as <-.
  simpl in Hpph. destruct Hpph as (hdr & Hhdr & ->). injection Hhdr as <-.
  exists p, calls. split; [exact Ht|]. split; [exact Hin|].
  split; [exact Hfm|]. split; [exact Hrv|exact Hat].
Defined.

Lemma missing_materials_ask_version_at_parent_witness :
  createCalcFee Sample.externals
    (Sample.apiNoMultiplier Sample.hashParent 10 (Ok []))
    Sample.hashParent (Sample.block Sample.hashParent 10) []
  = ([rpc_state_getRuntimeVersion Sample.hashParent],
     Ok (mkCalcFeeResult (Some DummyCalcFee) (OfNum 2005) (OfStr "kusama")))
  /\ createCalcFee Sample.externals
       (Sample.apiBare Sample.hashParent 10 (Ok []))
       Sample.hashParent (Sample.block Sample.hashParent 10) []
     = ([], Throw (TypeError
                     "Cannot read property of undefined: extrinsicBaseWeight")).
Proof.
  split.
  - exact (missing_materials_ask_version_at_parent Sample.externals
             (Sample.apiNoMultiplier Sample.hashParent 10 (Ok []))
             Sample.hashParent (Sample.block Sample.hashParent 10) []
             (or_intror (or_introl eq_refl))).
  - exact (missing_materials_ask_version_at_parent Sample.externals
             (Sample.apiBare Sample.hashParent 10 (Ok []))
             Sample.hashParent (Sample.block Sample.hashParent 10) []
             (or_introl eq_refl)).
Defined.

Lemma createCalcFee_throws_on_absent_constants_witness :
  exists msg,
    createCalcFee Sample.externals (Sample.apiBare Sample.hashParent 10 (Ok []))
      Sample.hashParent (Sample.block Sample.hashParent 10) []
    = ([], Throw (TypeError msg)).
Proof.
  exact (proj1 (createCalcFee_throws_on_absent_constants Sample.externals
                  (Sample.apiBare Sample.hashParent 10 (Ok []))
                  Sample.hashParent (Sample.block Sample.hashParent 10) []
                  (or_introl eq_refl))).
Defined.

Lemma fee_loop_calls_calc_fee_at_most_once_each_witness :
  exists calls exts',
    feeLoop Sample.externals
      (Sample.api Sample.hashParent 10 (Ok [Sample.successEvent 1]))
      Sample.wasmFee (Sample.block Sample.hashParent 10)
      (length (Raw.extrinsics (Sample.block Sample.hashParent 10))) 0
      Sample.attributed10 [] = ([] ++ calls, Ok exts')
    /\ length calls <= 1.
Proof.
  destruct (fee_loop_calls_calc_fee_at_most_once_each Sample.externals
              (Sample.api Sample.hashParent 10 (Ok [Sample.successEvent 1]))
              Sample.wasmFee (Sample.block Sample.hashParent 10)
              Sample.attributed10 [] eq_refl)
    as (calls & exts' & Hrun & Hlen & _).
  exists calls, exts'. split; [exact Hrun|exact Hlen].
Defined.

Lemma fee_comes_from_first_completed_event_witness :
  exists t' exts' e,
    feeLoop Sample.externals
      (Sample.api Sample.hashParent 10 (Ok [Sample.successEvent 1]))
      Sample.wasmFee (Sample.block Sample.hashParent 10)
      (length (Raw.extrinsics (Sample.block Sample.hashParent 10))) 0
      Sample.attributed10 [] = (t', Ok exts')
    /\ Sample.attributed10 !! 1 = Some e
    /\ exts' !! 1
       = Some (set_info
                 (InfoDispatch {| rdi_weight := 1000; rdi_class := Some "Normal";
                                  rdi_partialFee := 149000000 |}) e).
Proof.
  destruct (fee_comes_from_first_completed_event Sample.externals
              (Sample.api Sample.hashParent 10 (Ok [Sample.successEvent 1]))
              Sample.wasmFee (Sample.block Sample.hashParent 10)
              Sample.attributed10 [] 0 1 _ Sample.balancesTransfer _
              eq_refl eq_refl eq_refl eq_refl eq_refl eq_refl eq_refl)
    as (t' & exts' & i & Hrun & Hlook & Hi).
  exists t', exts'. eexists. split; [exact Hrun|]. split; [reflexivity|].
  rewrite Hlook, Hi. reflexivity.
Defined.

Lemma unsupported_runtime_is_reported_witness :
  exists t' b e,
    fetchBlock SampleMore.externalsUnknownRuntime
      (Sample.api Sample.hashParent 10 (Ok [Sample.successEvent 1]))
      Sample.hashA false false [] = (t', Ok b)
    /\ b_extrinsics b !! 1 = Some e
    /\ info e = InfoError "Fee calculation not supported for kusama#2004".
Proof.
  eexists _, _, _. split; [vm_compute; reflexivity|].
  split; [reflexivity|].
  pose (p := mkFeeParams [mkCoefficient "8" 0 1 false] 125000000 "1000000000"
               "1000000000" (OfStr "kusama") (OfNum 2004)).
  assert (CalcFee_from_params p
          ∈ [rpc_chain_getBlock Sample.hashA;
             query_system_events_at Sample.hashA;
             rpc_chain_getHeader Sample.hashParent;
             rpc_state_getRuntimeVersion Sample.hashGrandparent;
             query_transactionPayment_nextFeeMultiplier_at Sample.hashParent;
             rpc_state_getMetadata Sample.hashGrandparent;
             CalcFee_from_params p]) as Hin.
  { do 6 apply list_elem_of_further. apply list_elem_of_here. }
  assert (from_params SampleMore.externalsUnknownRuntime p = Ok None) as Hnone
    by reflexivity.
  destruct (unsupported_runtime_is_reported SampleMore.externalsUnknownRuntime
              (Sample.api Sample.hashParent 10 (Ok [Sample.successEvent 1]))
              Sample.hashA false false [] _ _ p eq_refl eq_refl Hin Hnone)
    as (block & pph & v & Hb & Hpph & Hv & _ & _ & H & _).
  injection Hb as <-. simpl in Hpph. destruct Hpph as (hdr & Hhdr & ->).
  injection Hhdr as <-. injection Hv as <-.
  exact (H 1 Sample.balancesTransfer _ eq_refl eq_refl eq_refl eq_refl).
Defined.

Lemma events_failure_is_never_fatal_witness :
  exists t' b,
    fetchBlock Sample.externals
      (Sample.api Sample.hashParent 10 (Throw (Rejected "State already discarded")))
      Sample.hashA false false [] = (t', Ok b)
    /\ b_onInitialize b = [] /\ b_onFinalize b = [].
Proof.
  eexists _, _. split; [vm_compute; reflexivity|].
  exact (events_failure_is_never_fatal Sample.externals
           (Sample.api Sample.hashParent 10
              (Throw (Rejected "State already discarded")))
           Sample.hashA false false [] _ (Ok _) _ eq_refl eq_refl).
Defined.

Lemma author_comes_from_first_preruntime_item_witness :
  exists t' b,
    fetchBlock SampleMore.externalsAuthoring SampleMore.apiAuthored
      Sample.hashA false false [] = (t', Ok b)
    /\ b_authorId b = Some "bob".
Proof.
  eexists _, _. split; [vm_compute; reflexivity|].
  destruct (author_comes_from_first_preruntime_item SampleMore.externalsAuthoring
              SampleMore.apiAuthored Sample.hashA false false [] _ _ eq_refl)
    as (block & Hb & _ & H).
  injection Hb as <-.
  destruct H as (sv & Hsv & Hauthor). injection Hsv as <-. exact Hauthor.
Defined.

Lemma array_argument_parses_only_its_calls_witness :
  exists parsed,
    sc_args (parseGenericCall Sample.registry SampleMore.batch) !! 0
    = Some ("calls", SArray parsed)
    /\ length parsed = 3
    /\ parsed !! 0 = Some (inr (mkSanitizedCall (mkFrameMethod "system" "remark") []))
    /\ parsed !! 1 = Some (inl (CValue "Bytes" [Byte.x2a])).
Proof.
  destruct (proj2 (array_argument_parses_only_its_calls Sample.registry
                     SampleMore.batch _ 0 "calls" _ eq_refl eq_refl))
    as (parsed & Hlook & Hlen & Hcall & Hother).
  exists parsed. split; [exact Hlook|]. split; [exact Hlen|].
  split; [exact (Hcall 0 _ eq_refl)|].
  apply (Hother 1 _ eq_refl). intros call. discriminate.
Defined.

Lemma plain_argument_is_passed_through_witness :
  sc_args (parseGenericCall Sample.registry SampleMore.proxied) !! 0
  = Some ("payload", SCodec (CValue "Bytes" [Byte.x2a])).
Proof.
  apply (plain_argument_is_passed_through Sample.registry SampleMore.proxied
           _ 0 "payload" "Bytes" [Byte.x2a] eq_refl eq_refl).
  left. discriminate.
Defined.

Lemma era_argument_is_at_most_the_era_before_active_witness :
  exists w' r,
    Staking.getEraAndHash (Staking.sampleApi 5) (Some 3%Z) Staking.emptyWorld
    = (w', Staking.Fulfilled r)
    /\ Staking.eh_eraArg r = 3%Z
    /\ (Staking.eh_eraArg r <= 4)%Z.
Proof.
  eexists _, _. split; [vm_compute; reflexivity|].
  destruct (era_argument_is_at_most_the_era_before_active (Staking.sampleApi 5)
              (Some 3%Z) Staking.emptyWorld _ _ eq_refl)
    as (active & Ha & _ & _ & Harg & Hle & _).
  injection Ha as <-. split; [exact Harg|exact Hle].
Defined.


Lemma depth_and_window_are_checked_first_witness :
  Staking.fetchErasRewardPoints (Staking.sampleApi 5) Sample.hashA 100 4 5
    Staking.emptyWorld
  = (Staking.mkWorld [Staking.query_staking_historyDepth_at Sample.hashA] [],
     Staking.RejectedWith (Staking.BadRequest Staking.depth_message)).
Proof.
  apply (depth_and_window_are_checked_first (Staking.sampleApi 5) Sample.hashA
           100 4 5 Staking.emptyWorld 84 eq_refl).
  left. reflexivity.
Defined.

Lemma every_entry_is_for_the_requested_era_witness :
  exists w' entries,
    Staking.fetchErasRewardPoints (Staking.sampleApi 5) Sample.hashA 3 4 5
      Staking.emptyWorld = (w', Staking.Fulfilled entries)
    /\ length entries = 3
    /\ forall p, p ∈ entries -> Staking.era p = 4%N.
Proof.
  eexists _, _. split; [vm_compute; reflexivity|].
  destruct (every_entry_is_for_the_requested_era (Staking.sampleApi 5)
              Sample.hashA 3 4 5 Staking.emptyWorld _ _ eq_refl)
    as (historyDepth & _ & _ & _ & Hlen & _ & Hall).
  split; [exact Hlen|]. intros p Hp.
  destruct (Hall p Hp) as (idx & rp & Hidx & _ & He & _).
  injection Hidx as <-. exact He.
Defined.

Lemma entries_share_one_validator_array_witness :
  exists w' entries,
    Staking.fetchErasRewardPoints (Staking.sampleApi 5) Sample.hashA 2 4 5
      Staking.emptyWorld = (w', Staking.Fulfilled entries)
    /\ forall p, p ∈ entries ->
                 Staking.sent w' p
                 = (Staking.era p, Staking.totalEraRewardPoints p,
                    [Staking.mkPoint "alice"; Staking.mkPoint "bob";
                     Staking.mkPoint "alice"; Staking.mkPoint "bob"]).
Proof.
  eexists _, _. split; [vm_compute; reflexivity|].
  destruct (entries_share_one_validator_array (Staking.sampleApi 5)
              Sample.hashA 2 4 5 Staking.emptyWorld _ _ eq_refl)
    as (shared & _ & Hall & Hshared & _).
  intros p Hp. destruct (Hall p Hp) as [_ Hsent].
  exact (eq_trans Hsent
           (f_equal (fun s => (Staking.era p, Staking.totalEraRewardPoints p, s))
              (Hshared _ eq_refl))).
Defined.

Lemma handler_queries_at_the_finalized_head_witness :
  exists w' entries,
    Staking.getErasRewardPoints (Staking.sampleApi 5) None None Staking.emptyWorld
    = (w', Staking.Fulfilled entries)
    /\ length entries = 1.
Proof.
  eexists _, _. split; [vm_compute; reflexivity|].
  destruct (handler_queries_at_the_finalized_head (Staking.sampleApi 5) None None
              Staking.emptyWorld _ _ eq_refl)
    as (head & active & _ & Ha & _ & _ & _ & Hdefault).
  injection Ha as <-. exact (Hdefault eq_refl eq_refl).
Defined.

Lemma events_of_an_extrinsic_are_those_of_its_phase_witness :
  exists t' b e,
    fetchBlock Sample.externals
      (Sample.api Sample.hashParent 10
         (Ok [SampleMore.newSession; Sample.failedEvent 1; Sample.successEvent 1]))
      Sample.hashA false false [] = (t', Ok b)
    /\ b_extrinsics b !! 1 = Some e
    /\ map se_method (events e)
       = [mkFrameMethod "system" "ExtrinsicFailed";
          mkFrameMethod "system" "ExtrinsicSuccess"].
Proof.
  eexists _, _, _. split; [vm_compute; reflexivity|].
  split; [reflexivity|].
  exact (f_equal (map se_method)
           (events_of_an_extrinsic_are_those_of_its_phase Sample.externals
              (Sample.api Sample.hashParent 10
                 (Ok [SampleMore.newSession; Sample.failedEvent 1;
                      Sample.successEvent 1]))
              Sample.hashA false false [] _ _ _ eq_refl eq_refl 1 _ eq_refl)).
Defined.

Lemma fetchBlock_returns_witness :
  exists t' b e,
    fetchBlock Sample.externals
      (SampleMore.apiWithValidators Sample.hashParent 10
         (Ok [Sample.successEvent 1]))
      Sample.hashA false false [] = (t', Ok b)
    /\ b_hash b = Sample.hashA
    /\ length (b_extrinsics b) = 2
    /\ isGenesisParent (b_parentHash b) = false
    /\ b_extrinsics b !! 1 = Some e
    /\ info e = InfoDispatch {| rdi_weight := 1000; rdi_class := Some "Normal";
                                rdi_partialFee := 149000000 |}.
Proof.
  assert (forall validators_at,
            Some (fun _ : Hash => Ok ["alice"; "bob"]) = Some validators_at ->
            exists sv : list AccountId, validators_at Sample.hashA = Ok sv)
    as Hvalidators.
  { intros validators_at [= <-]. eexists. reflexivity. }
  assert (forall records r i,
            Ok [Sample.successEvent 1] = Ok records ->
            r ∈ records -> Raw.phase r = Raw.ApplyExtrinsic i ->
            N.to_nat i < 2) as Hrange.
  { intros records r i [= <-] Hin Hph.
    apply list_elem_of_singleton in Hin as ->. injection Hph as <-.
    simpl. lia. }
  assert (isGenesisParent Sample.hashParent = false ->
          forall t0, exists t1 fee,
            createCalcFee Sample.externals
              (SampleMore.apiWithValidators Sample.hashParent 10
                 (Ok [Sample.successEvent 1]))
              Sample.hashParent (Sample.block Sample.hashParent 10) t0
            = (t1, Ok fee)) as Hfee.
  { intros _ t0. eexists _, _. vm_compute. reflexivity. }
  destruct (fetchBlock_returns Sample.externals
              (SampleMore.apiWithValidators Sample.hashParent 10
                 (Ok [Sample.successEvent 1]))
              Sample.hashA false false [] (Sample.block Sample.hashParent 10)
              eq_refl Hvalidators Hrange Hfee)
    as (t' & b & Hrun & Hh & _ & Hlen).
  exists t', b. vm_compute in Hrun. injection Hrun as <- <-.
  eexists. split; [vm_compute; reflexivity|].
  split; [exact Hh|]. split; [exact Hlen|]. split; [reflexivity|].
  split; reflexivity.
Defined.
